(** * Portfolio site: the component coordination core

    A shallow embedding of the state-bearing parts of the portfolio page's
    components: [ThemeManager], [PortfolioApp.loadData],
    [LazyImageLoader], [NavigationManager] and the modal of
    [SkillsTimeline].  Every JavaScript method becomes a function on an
    explicit record holding the object's fields together with the part of
    the page (document, storage, event target, console) it reads and writes. *)

From stdpp Require Import base gmap strings list.
From Stdlib Require Import ZArith Lia.

Open Scope string_scope.

(** ** JavaScript conventions shared by the components *)

Module Js.

(** A call either returns or throws; [try]/[catch] is a [match] on this. *)
Inductive completion (A : Type) : Type :=
| Return (a : A)
| Throw (msg : string).
Arguments Return {A} a.
Arguments Throw {A} msg.

(** [Array.prototype.includes] on an array of strings. *)
Definition includes (l : list string) (x : string) : bool :=
  bool_decide (x ∈ l).

(** Truthiness of a value that is a string or [null]: [null] and the empty
    string are falsy, every other string is truthy. *)
Definition truthy (v : option string) : bool :=
  match v with
  | None => false
  | Some s => negb (String.eqb s "")
  end.

(** The double-quote character, for messages that quote a value. *)
Definition dquote : string := String (Ascii.ascii_of_nat 34) EmptyString.

(** [classList]: a set of class names. *)
Definition classList_toggle (c : gset string) (name : string) (force : bool)
  : gset string :=
  if force then c ∪ {[name]} else c ∖ {[name]}.

End Js.

(** ** ThemeManager *)

Module ThemeManager.
Import Js.

(** [localStorage]: its items, and whether reads or writes throw (storage
    disabled, quota exhausted), which the code guards with [try]/[catch]. *)
Record Storage := mkStorage {
  items : gmap string string;
  getThrows : bool;
  setThrows : bool
}.

Definition getItem (s : Storage) (k : string) : completion (option string) :=
  if getThrows s then Throw "SecurityError" else Return (items s !! k).

Definition setItem (s : Storage) (k v : string) : completion Storage :=
  if setThrows s then Throw "QuotaExceededError"
  else Return (mkStorage (<[k:=v]> (items s)) (getThrows s) (setThrows s)).

(** The [.theme-toggle] button. *)
Inductive icon := Sun | Moon.

Record Button := mkButton {
  innerHTML : icon;
  title : string;
  ariaLabel : string;
  btnClasses : gset string
}.

(** The [detail] of a [themeChanged] event. *)
Record ThemeChanged := mkThemeChanged {
  theme : string;
  previousTheme : string;
  timestamp : Z
}.

(** [window.dispatchEvent] runs the listeners synchronously: a delivery keeps
    the event together with what a listener can read at that moment. *)
Record Delivery := mkDelivery {
  event : ThemeChanged;
  seenCurrentTheme : string;
  seenDataTheme : option string;
  seenItems : gmap string string
}.

(** The manager's fields and the page around it.  The page always has its
    root element and its body, so the guards [document &&
    document.documentElement] and [document && document.body] are true. *)
Record World := mkWorld {
  currentTheme : string;                (* this.currentTheme *)
  transitionTimeout : option nat;       (* this.transitionTimeout *)
  dataTheme : option string;            (* root attribute data-theme *)
  bodyClasses : gset string;            (* document.body.classList *)
  toggle : option Button;               (* querySelector('.theme-toggle') *)
  storage : Storage;                    (* localStorage *)
  matchMedia : option bool;             (* prefers-color-scheme: light *)
  now : Z;                              (* Date.now() *)
  pendingTimers : gset nat;             (* timers set and not yet cleared *)
  nextTimer : nat;
  dispatched : list Delivery;           (* events dispatched on window *)
  warnings : list string;               (* console.warn *)
  clickListener : bool;                 (* toggle button listens to click *)
  systemListener : bool                 (* media query listens to change *)
}.

Definition storageKey : string := "portfolio-theme".
Definition supportedThemes : list string := ["dark"; "light"].
Definition transitionDuration : nat := 300.

(** Field updates. *)
Definition set_currentTheme (t : string) (w : World) : World :=
  mkWorld t (transitionTimeout w) (dataTheme w) (bodyClasses w) (toggle w)
    (storage w) (matchMedia w) (now w) (pendingTimers w) (nextTimer w)
    (dispatched w) (warnings w) (clickListener w) (systemListener w).

Definition set_transitionTimeout (t : option nat) (w : World) : World :=
  mkWorld (currentTheme w) t (dataTheme w) (bodyClasses w) (toggle w)
    (storage w) (matchMedia w) (now w) (pendingTimers w) (nextTimer w)
    (dispatched w) (warnings w) (clickListener w) (systemListener w).

Definition set_dataTheme (t : string) (w : World) : World :=
  mkWorld (currentTheme w) (transitionTimeout w) (Some t) (bodyClasses w)
    (toggle w) (storage w) (matchMedia w) (now w) (pendingTimers w)
    (nextTimer w) (dispatched w) (warnings w) (clickListener w)
    (systemListener w).

Definition set_bodyClasses (c : gset string) (w : World) : World :=
  mkWorld (currentTheme w) (transitionTimeout w) (dataTheme w) c (toggle w)
    (storage w) (matchMedia w) (now w) (pendingTimers w) (nextTimer w)
    (dispatched w) (warnings w) (clickListener w) (systemListener w).

Definition set_toggle (b : option Button) (w : World) : World :=
  mkWorld (currentTheme w) (transitionTimeout w) (dataTheme w) (bodyClasses w)
    b (storage w) (matchMedia w) (now w) (pendingTimers w) (nextTimer w)
    (dispatched w) (warnings w) (clickListener w) (systemListener w).

Definition set_storage (s : Storage) (w : World) : World :=
  mkWorld (currentTheme w) (transitionTimeout w) (dataTheme w) (bodyClasses w)
    (toggle w) s (matchMedia w) (now w) (pendingTimers w) (nextTimer w)
    (dispatched w) (warnings w) (clickListener w) (systemListener w).

Definition set_timers (p : gset nat) (n : nat) (w : World) : World :=
  mkWorld (currentTheme w) (transitionTimeout w) (dataTheme w) (bodyClasses w)
    (toggle w) (storage w) (matchMedia w) (now w) p n
    (dispatched w) (warnings w) (clickListener w) (systemListener w).

Definition set_dispatched (d : list Delivery) (w : World) : World :=
  mkWorld (currentTheme w) (transitionTimeout w) (dataTheme w) (bodyClasses w)
    (toggle w) (storage w) (matchMedia w) (now w) (pendingTimers w)
    (nextTimer w) d (warnings w) (clickListener w) (systemListener w).

Definition set_listeners (click system : bool) (w : World) : World :=
  mkWorld (currentTheme w) (transitionTimeout w) (dataTheme w) (bodyClasses w)
    (toggle w) (storage w) (matchMedia w) (now w) (pendingTimers w)
    (nextTimer w) (dispatched w) (warnings w) click system.

(** [console.warn]. *)
Definition warn (msg : string) (w : World) : World :=
  mkWorld (currentTheme w) (transitionTimeout w) (dataTheme w) (bodyClasses w)
    (toggle w) (storage w) (matchMedia w) (now w) (pendingTimers w)
    (nextTimer w) (dispatched w) (warnings w ++ [msg]) (clickListener w)
    (systemListener w).

(** [setTimeout] hands out a fresh timer id (ids are positive, so a stored id
    is truthy); [clearTimeout] drops one. *)
Definition setTimeout (w : World) : nat * World :=
  (nextTimer w, set_timers (pendingTimers w ∪ {[nextTimer w]}) (S (nextTimer w)) w).

Definition clearTimeout (id : nat) (w : World) : World :=
  set_timers (pendingTimers w ∖ {[id]}) (nextTimer w) w.

Definition getCurrentTheme (w : World) : string := currentTheme w.

Definition getSavedTheme (w : World) : option string * World :=
  match getItem (storage w) storageKey with
  | Return v => (v, w)
  | Throw _ => (None, warn "Failed to read theme from localStorage:" w)
  end.

Definition persistTheme (themeName : string) (w : World) : World :=
  match setItem (storage w) storageKey themeName with
  | Return s => set_storage s w
  | Throw _ => warn "Failed to save theme to localStorage:" w
  end.

Definition detectSystemTheme (w : World) : string :=
  match matchMedia w with
  | Some true => "light"
  | _ => "dark"
  end.

Definition applyThemeImmediate (themeName : string) (w : World) : World :=
  set_dataTheme themeName w.

Definition applyThemeWithTransition (themeName : string) (w : World) : World :=
  let w := match transitionTimeout w with
           | Some id => clearTimeout id w
           | None => w
           end in
  let w := set_bodyClasses (bodyClasses w ∪ {["theme-transitioning"]}) w in
  let w := set_dataTheme themeName w in
  let '(id, w) := setTimeout w in
  set_transitionTimeout (Some id) w.

(** The callback handed to [setTimeout] by [applyThemeWithTransition]. *)
Definition transitionTimeoutFired (id : nat) (w : World) : World :=
  if bool_decide (id ∈ pendingTimers w) then
    let w := clearTimeout id w in
    let w := set_bodyClasses (bodyClasses w ∖ {["theme-transitioning"]}) w in
    set_transitionTimeout None w
  else w.

Definition updateToggleButton (w : World) (button : Button) : Button :=
  let isDark := String.eqb (currentTheme w) "dark" in
  let label := if isDark then "Switch to light mode" else "Switch to dark mode" in
  mkButton (if isDark then Sun else Moon) label label
    (classList_toggle
       (classList_toggle (btnClasses button) "theme-toggle--dark" isDark)
       "theme-toggle--light" (negb isDark)).

Definition updateToggleIfPresent (w : World) : World :=
  match toggle w with
  | Some b => set_toggle (Some (updateToggleButton w b)) w
  | None => w
  end.

Definition dispatchThemeChangeEvent (newTheme previousTheme : string)
    (w : World) : World :=
  let ev := mkThemeChanged newTheme previousTheme (now w) in
  set_dispatched
    (dispatched w ++
       [mkDelivery ev (currentTheme w) (dataTheme w) (items (storage w))]) w.

Definition setTheme (themeName : string) (w : World) : World :=
  if negb (includes supportedThemes themeName) then
    warn ("Invalid theme name " ++ dquote ++ themeName ++ dquote ++
          ". Supported themes: " ++ String.concat ", " supportedThemes) w
  else
    let previousTheme := currentTheme w in
    let w := set_currentTheme themeName w in
    let w := applyThemeWithTransition themeName w in
    let w := updateToggleIfPresent w in
    let w := persistTheme themeName w in
    dispatchThemeChangeEvent themeName previousTheme w.

Definition toggleTheme (w : World) : World :=
  let newTheme := if String.eqb (currentTheme w) "dark" then "light" else "dark" in
  setTheme newTheme w.

Definition initializeTheme (w : World) : World :=
  let '(savedTheme, w) := getSavedTheme w in
  let preferredTheme : option string :=
    if negb (truthy savedTheme) then Some (detectSystemTheme w) else savedTheme in
  let preferredTheme : string :=
    match preferredTheme with
    | Some t => if negb (includes supportedThemes t) then "dark" else t
    | None => "dark"
    end in
  let w := set_currentTheme preferredTheme w in
  let w := applyThemeImmediate preferredTheme w in
  persistTheme preferredTheme w.

(** The value of [preferredTheme] when [initializeTheme] assigns it to
    [this.currentTheme], as a function of what the page holds. *)
Definition startupTheme (w : World) : string :=
  match (getSavedTheme w).1 with
  | None => detectSystemTheme w
  | Some s =>
      if String.eqb s "" then detectSystemTheme w
      else if includes supportedThemes s then s else "dark"
  end.

(** The listener registered on the media query's [change] event; [matches]
    is [e.matches]. *)
Definition onSystemThemeChange (matches : bool) (w : World) : World :=
  let '(savedTheme, w) := getSavedTheme w in
  if negb (truthy savedTheme) then
    let systemTheme := if matches then "light" else "dark" in
    let w := setTheme systemTheme w in
    updateToggleIfPresent w
  else w.

Definition setupSystemThemeListener (w : World) : World :=
  match matchMedia w with
  | Some _ => set_listeners (clickListener w) true w
  | None => w
  end.

Definition setupThemeToggle (w : World) : World :=
  match toggle w with
  | None => warn "Theme toggle button not found in DOM" w
  | Some b =>
      let w := set_toggle (Some (updateToggleButton w b)) w in
      let w := set_listeners true (systemListener w) w in
      setupSystemThemeListener w
  end.

(** The click listener of the toggle button. *)
Definition onToggleClick (w : World) : World :=
  let w := toggleTheme w in
  updateToggleIfPresent w.

Definition init (w : World) : World :=
  setupThemeToggle (initializeTheme w).

(** [new ThemeManager()] on a page: the field initialisers, then [init]. *)
Definition construct (w : World) : World :=
  let w := set_currentTheme "dark" w in
  let w := set_transitionTimeout None w in
  let w := set_listeners false false w in
  init w.

(** The page delivers a media-query change only to a registered listener. *)
Definition systemThemeChanged (matches : bool) (w : World) : World :=
  if systemListener w then onSystemThemeChange matches w else w.

Definition cleanup (w : World) : World :=
  match transitionTimeout w with
  | Some id => set_transitionTimeout None (clearTimeout id w)
  | None => w
  end.

(** A fresh page: nothing stored, no toggle button, OS preference [os]. *)
Definition blankPage (os : option bool) (saved : gmap string string) : World :=
  mkWorld "dark" None None ∅ None (mkStorage saved false false) os 0 ∅ 1
    [] [] false false.

(** Example pages.  [freshPage]: the OS prefers light, nothing stored.
    [blueSaved], [emptySaved], [darkSaved]: a value under the storage key.
    [writeRejected]: a store that throws on writes.  [withToggle]: a page
    with the toggle button, an OS that prefers dark, nothing stored.
    [lightPage]: a manager whose current theme is light. *)
Definition freshPage : World := blankPage (Some true) ∅.
Definition blueSaved : World := blankPage (Some true) {[storageKey := "blue"]}.
Definition emptySaved : World := blankPage (Some false) {[storageKey := ""]}.
Definition darkSaved : World := blankPage (Some false) {[storageKey := "dark"]}.
Definition writeRejected : World :=
  set_storage (mkStorage ∅ false true) (blankPage (Some true) ∅).
Definition withToggle : World :=
  set_toggle (Some (mkButton Moon "" "" ∅)) (blankPage (Some false) ∅).
Definition lightPage : World := set_currentTheme "light" (blankPage None ∅).

End ThemeManager.

(** ** PortfolioApp: dataset loading *)

Module PortfolioApp.
Import Js.

#[local] Unset Elimination Schemes.
Inductive json :=
| JNull
| JBool (b : bool)
| JNum (z : Z)
| JStr (s : string)
| JArr (l : list json)
| JObj (fields : list (string * json)).
#[local] Set Elimination Schemes.

(** What [fetch(url)] followed by [response.json()] comes to: either promise
    may reject, or the parsed body arrives. *)
Inductive fetched :=
| NetworkError
| InvalidBody
| Body (j : json).

Definition Network := string → fetched.

(** [this.data]; [None] is [null]. *)
Record Data := mkData {
  projects : option json;
  articles : option json;
  timeline : option json
}.

Record App := mkApp {
  data : Data;
  requests : list string;      (* urls fetched, in order *)
  errors : list string         (* console.error *)
}.

Definition projectsUrl : string := "./data/projects.json".
Definition articlesUrl : string := "./data/articles.json".
Definition timelineUrl : string := "./data/timeline.json".

Definition emptyProjects : json :=
  JObj [("projects", JArr []); ("categories", JArr [])].
Definition emptyArticles : json :=
  JObj [("articles", JArr []); ("categories", JArr [])].
Definition emptyTimeline : json :=
  JObj [("experiences", JArr []); ("skills", JArr [])].

Definition fallbackData : Data :=
  mkData (Some emptyProjects) (Some emptyArticles) (Some emptyTimeline).

(** [await fetch(url)] then [await response.json()]. *)
Definition fetchJson (net : Network) (url : string) (a : App)
  : completion json * App :=
  let a := mkApp (data a) (requests a ++ [url]) (errors a) in
  match net url with
  | NetworkError => (Throw "TypeError: Failed to fetch", a)
  | InvalidBody => (Throw "SyntaxError: Unexpected token", a)
  | Body j => (Return j, a)
  end.

Definition set_projects (j : json) (a : App) : App :=
  mkApp (mkData (Some j) (articles (data a)) (timeline (data a)))
    (requests a) (errors a).
Definition set_articles (j : json) (a : App) : App :=
  mkApp (mkData (projects (data a)) (Some j) (timeline (data a)))
    (requests a) (errors a).
Definition set_timeline (j : json) (a : App) : App :=
  mkApp (mkData (projects (data a)) (articles (data a)) (Some j))
    (requests a) (errors a).

(** The [catch] block of [loadData]. *)
Definition loadDataFailed (a : App) : App :=
  mkApp fallbackData (requests a) (errors a ++ ["Failed to load data:"]).

Definition loadData (net : Network) (a : App) : App :=
  match fetchJson net projectsUrl a with
  | (Throw _, a) => loadDataFailed a
  | (Return p, a) =>
      let a := set_projects p a in
      match fetchJson net articlesUrl a with
      | (Throw _, a) => loadDataFailed a
      | (Return ar, a) =>
          let a := set_articles ar a in
          match fetchJson net timelineUrl a with
          | (Throw _, a) => loadDataFailed a
          | (Return t, a) => set_timeline t a
          end
      end
  end.

(** The application as its constructor leaves it. *)
Definition newApp : App := mkApp (mkData None None None) [] [].

(** An example network: the projects arrive, the articles do not. *)
Definition someProjects : json :=
  JObj [("projects", JArr [JObj [("id", JStr "p1")]]); ("categories", JArr [])].

Definition articlesDown : Network :=
  λ url, if String.eqb url projectsUrl then Body someProjects
         else if String.eqb url articlesUrl then NetworkError
         else Body emptyTimeline.

End PortfolioApp.

(** ** LazyImageLoader *)

Module LazyImageLoader.
Import Js.

(** The width and height attributes end up in [btoa], which looks at every
    UTF-16 code unit: they are kept as sequences of code units. *)
Definition codeUnits := list N.

(** An image source: a url, or one of the two generated inline SVG
    placeholders, kept by the width and height they are drawn with. *)
Inductive source :=
| Url (u : string)
| LoadingPlaceholder (width height : codeUnits)
| ErrorPlaceholder (width height : codeUnits).

Record Img := mkImg {
  classList : gset string;
  src : option source;            (* the src attribute *)
  srcset : option string;
  dataSrc : option string;        (* data-src *)
  dataSrcset : option string;     (* data-srcset *)
  widthAttr : option codeUnits;
  heightAttr : option codeUnits
}.

Definition placeholderClass : string := "lazy-placeholder".
Definition loadedClass : string := "lazy-loaded".
Definition errorClass : string := "lazy-error".

(** Images are objects: the loader's [Set] holds references, here handles
    into the document's images. *)
Record Loader := mkLoader {
  observer : bool;                (* this.observer is not null *)
  images : gset nat;              (* this.images *)
  dom : gmap nat Img;
  observeCalls : list nat;        (* observer.observe(img), in order *)
  unobserveCalls : list nat;
  loading : list (nat * option string * option string);
                                  (* preloads started by loadImage *)
  resolvesEmptySrc : bool         (* the document turns an empty src
                                     attribute into a url when [img.src] is
                                     read (its own address, on a page served
                                     over http, https or file) *)
}.

Definition blankImg : Img := mkImg ∅ None None None None None None.

Definition getImg (st : Loader) (img : nat) : Img :=
  default blankImg (dom st !! img).

Definition updImg (img : nat) (f : Img → Img) (st : Loader) : Loader :=
  mkLoader (observer st) (images st) (<[img := f (getImg st img)]> (dom st))
    (observeCalls st) (unobserveCalls st) (loading st) (resolvesEmptySrc st).

Definition set_images (s : gset nat) (st : Loader) : Loader :=
  mkLoader (observer st) s (dom st) (observeCalls st) (unobserveCalls st)
    (loading st) (resolvesEmptySrc st).

Definition addClass (c : string) (i : Img) : Img :=
  mkImg (classList i ∪ {[c]}) (src i) (srcset i) (dataSrc i) (dataSrcset i)
    (widthAttr i) (heightAttr i).

Definition removeClass (c : string) (i : Img) : Img :=
  mkImg (classList i ∖ {[c]}) (src i) (srcset i) (dataSrc i) (dataSrcset i)
    (widthAttr i) (heightAttr i).

Definition set_src (s : source) (i : Img) : Img :=
  mkImg (classList i) (Some s) (srcset i) (dataSrc i) (dataSrcset i)
    (widthAttr i) (heightAttr i).

(** [img.getAttribute(name) || d] as the template prints it: the attribute
    when it is there and not empty, else the number [d] in digits. *)
Definition orDefault (v : option codeUnits) (d : codeUnits) : codeUnits :=
  match v with
  | Some (u :: s) => u :: s
  | _ => d
  end.

(** The digits of 300 and of 200. *)
Definition default300 : codeUnits := [51; 48; 48]%N.
Definition default200 : codeUnits := [50; 48; 48]%N.

(** [btoa] accepts a string whose code units are all at most 0xFF and throws
    on any other. *)
Definition latin1 (s : codeUnits) : bool := forallb (λ u, (u <=? 255)%N) s.

(** Both SVG templates are ASCII but for the width and the height put into
    them, so [btoa(svg)] returns exactly when these two can be encoded. *)
Definition encodable (i : Img) : bool :=
  latin1 (orDefault (widthAttr i) default300) &&
  latin1 (orDefault (heightAttr i) default200).

Definition generatePlaceholder (i : Img) : completion source :=
  if encodable i
  then Return (LoadingPlaceholder (orDefault (widthAttr i) default300)
                 (orDefault (heightAttr i) default200))
  else Throw "InvalidCharacterError".

(** [img.src] is assigned after [btoa] returned. *)
Definition handleImageError (i : Img) : completion Img :=
  if encodable i
  then Return (set_src (ErrorPlaceholder (orDefault (widthAttr i) default300)
                          (orDefault (heightAttr i) default200)) i)
  else Throw "InvalidCharacterError".

(** [!img.src && !img.getAttribute('src')].  Without the attribute both are
    empty.  With an attribute that is not empty neither is.  With the empty
    attribute [img.src] is what the document resolves it to: its own address
    where it resolves, the empty string where it does not. *)
Definition lacksSrc (resolves : bool) (i : Img) : bool :=
  match src i with
  | None => true
  | Some (Url u) => String.eqb u "" && negb resolves
  | Some _ => false
  end.

(** The synchronous part of [loadImage]: the preload starts unless the image
    has no deferred source; [onload] and [onerror] come later.  The executor
    of the promise throws nowhere. *)
Definition loadImage (img : nat) (st : Loader) : Loader :=
  let i := getImg st img in
  if negb (truthy (dataSrc i)) && negb (truthy (dataSrcset i)) then st
  else mkLoader (observer st) (images st) (dom st) (observeCalls st)
         (unobserveCalls st) (loading st ++ [(img, dataSrc i, dataSrcset i)])
         (resolvesEmptySrc st).

Definition applyImageData (ds dss : option string) (i : Img) : Img :=
  let i := if truthy dss
           then mkImg (classList i) (src i) dss (dataSrc i) None
                  (widthAttr i) (heightAttr i)
           else i in
  if truthy ds
  then mkImg (classList i) (Url <$> ds) (srcset i) None (dataSrcset i)
         (widthAttr i) (heightAttr i)
  else i.

(** [imageLoader.onload] and [imageLoader.onerror] of a started preload.
    [onerror] changes the classes first, so they stay changed when
    [handleImageError] throws. *)
Definition onload (img : nat) (ds dss : option string) (st : Loader) : Loader :=
  updImg img (λ i, addClass loadedClass
                     (removeClass placeholderClass (applyImageData ds dss i))) st.

Definition onerror (img : nat) (st : Loader) : completion unit * Loader :=
  let st := updImg img (λ i, addClass errorClass
                               (removeClass placeholderClass i)) st in
  match handleImageError (getImg st img) with
  | Return i => (Return tt, updImg img (λ _, i) st)
  | Throw m => (Throw m, st)
  end.

(** [observeImage] adds the image to the set and the placeholder class to
    the image before it generates the placeholder, and engages the observer
    after: when the placeholder cannot be generated the image stays in the
    set, with the class, unobserved. *)
Definition observeImage (img : nat) (st : Loader) : completion unit * Loader :=
  if bool_decide (img ∈ images st) then (Return tt, st)
  else
    let st := set_images (images st ∪ {[img]}) st in
    let st := updImg img (addClass placeholderClass) st in
    let r := if lacksSrc (resolvesEmptySrc st) (getImg st img)
             then match generatePlaceholder (getImg st img) with
                  | Return s => Return (updImg img (set_src s) st)
                  | Throw m => Throw m
                  end
             else Return st in
    match r with
    | Throw m => (Throw m, st)
    | Return st =>
        if observer st
        then (Return tt,
              mkLoader (observer st) (images st) (dom st)
                (observeCalls st ++ [img]) (unobserveCalls st) (loading st)
                (resolvesEmptySrc st))
        else (Return tt, loadImage img st)
    end.

Definition addImage (img : nat) (st : Loader) : completion unit * Loader :=
  observeImage img st.

(** [forEach] with a callback that may throw: the first exception ends the
    loop and leaves what was done so far. *)
Fixpoint forEach (f : nat → Loader → completion unit * Loader)
    (l : list nat) (st : Loader) : completion unit * Loader :=
  match l with
  | [] => (Return tt, st)
  | x :: l =>
      match f x st with
      | (Return _, st) => forEach f l st
      | (Throw m, st) => (Throw m, st)
      end
  end.

Definition addImages (imgs : list nat) (st : Loader)
  : completion unit * Loader :=
  forEach addImage imgs st.

(** One entry of the batch handed to [handleIntersection]. *)
Definition handleEntry (st : Loader) (entry : nat * bool) : Loader :=
  let '(img, isIntersecting) := entry in
  if isIntersecting then
    let st := loadImage img st in
    let st := mkLoader (observer st) (images st) (dom st) (observeCalls st)
                (unobserveCalls st ++ [img]) (loading st)
                (resolvesEmptySrc st) in
    set_images (images st ∖ {[img]}) st
  else st.

Definition handleIntersection (entries : list (nat * bool)) (st : Loader)
  : Loader :=
  foldl handleEntry st entries.

Definition destroy (st : Loader) : Loader := set_images ∅ st.

(** How often the observation primitive was engaged for [img]. *)
Definition observations (img : nat) (st : Loader) : nat :=
  length (filter (λ x, x = img) (observeCalls st)).

(** Whether the placeholder of [img] is asked for and cannot be generated:
    the case in which [observeImage] throws for an image it does not track
    yet. *)
Definition placeholderThrows (st : Loader) (img : nat) : bool :=
  lacksSrc (resolvesEmptySrc st) (getImg st img) &&
  negb (encodable (getImg st img)).

(** A loader with an observer over one image that has a deferred source and
    no src. *)
Definition oneImage : Loader :=
  mkLoader true ∅
    {[ 0 := mkImg ∅ None None (Some "cover.jpg") None None None ]}
    [] [] [] true.

(** A loader with an observer over one image that has a deferred source, no
    src and a width written in full-width digits (U+FF11 U+FF10 U+FF10). *)
Definition fullWidthDigits : Loader :=
  mkLoader true ∅
    {[ 1 := mkImg ∅ None None (Some "photo.jpg") None
              (Some [65297; 65296; 65296]%N) None ]}
    [] [] [] true.

End LazyImageLoader.

(** ** NavigationManager and the SkillsTimeline modal

    Both components write [document.body.style.overflow]; they live on one
    page, so they share one record. *)

Module Navigation.
Import Js.

(** An entry of [this.sections]: the section id, the section element and the
    navigation link, the latter two as handles of DOM elements. *)
Record Section := mkSection {
  id : string;
  element : nat;
  navLink : nat
}.

(** An in-page anchor of the navigation list. *)
Record Anchor := mkAnchor {
  link : nat;
  href : string
}.

(** A timeline experience as far as the modal reads it: its id, and its
    achievements and technologies where these are arrays ([None] where the
    field is missing or is no array, so that it has no [map]). *)
Record Experience := mkExperience {
  expId : string;
  achievements : option (list string);
  technologies : option (list string)
}.

Record Page := mkPage {
  (* NavigationManager fields *)
  mobileMenuOpen : bool;
  activeSection : string;
  sections : list Section;
  navLinks : nat;                        (* the .nav-links element *)
  hamburgerBtn : nat;
  (* SkillsTimeline fields *)
  experiences : list Experience;         (* this.experiences *)
  modal : option nat;                    (* this.modal *)
  (* document and window *)
  classes : gmap nat (gset string);      (* classList of each element *)
  ariaExpanded : string;                 (* of the hamburger button *)
  bodyOverflow : string;                 (* document.body.style.overflow *)
  bodyChildren : list nat;               (* nodes appended to the body *)
  nextNode : nat;                        (* next handle of createElement *)
  anchors : list Anchor;                 (* a[href^=#] under .nav-links *)
  selectors : gmap string (nat * Z);     (* querySelector: element, offsetTop *)
  invalidSelectors : gset string;        (* strings that are no selector *)
  headerHeight : option Z;               (* offsetHeight of the header
                                            around the nav, if there is one *)
  scrolls : list Z                       (* window.scrollTo({top}) *)
}.

Definition set_menu (open : bool) (aria : string) (cls : gmap nat (gset string))
    (overflow : string) (p : Page) : Page :=
  mkPage open (activeSection p) (sections p) (navLinks p) (hamburgerBtn p)
    (experiences p) (modal p) cls aria overflow (bodyChildren p) (nextNode p)
    (anchors p) (selectors p) (invalidSelectors p) (headerHeight p)
    (scrolls p).

Definition set_active (a : string) (cls : gmap nat (gset string)) (p : Page)
  : Page :=
  mkPage (mobileMenuOpen p) a (sections p) (navLinks p) (hamburgerBtn p)
    (experiences p) (modal p) cls (ariaExpanded p) (bodyOverflow p)
    (bodyChildren p) (nextNode p) (anchors p) (selectors p)
    (invalidSelectors p) (headerHeight p) (scrolls p).

Definition set_sections (l : list Section) (p : Page) : Page :=
  mkPage (mobileMenuOpen p) (activeSection p) l (navLinks p) (hamburgerBtn p)
    (experiences p) (modal p) (classes p) (ariaExpanded p) (bodyOverflow p)
    (bodyChildren p) (nextNode p) (anchors p) (selectors p)
    (invalidSelectors p) (headerHeight p) (scrolls p).

Definition set_modal (m : option nat) (children : list nat) (next : nat)
    (overflow : string) (p : Page) : Page :=
  mkPage (mobileMenuOpen p) (activeSection p) (sections p) (navLinks p)
    (hamburgerBtn p) (experiences p) m (classes p) (ariaExpanded p) overflow
    children next (anchors p) (selectors p) (invalidSelectors p) (headerHeight p)
    (scrolls p).

Definition scrollTo (top : Z) (p : Page) : Page :=
  mkPage (mobileMenuOpen p) (activeSection p) (sections p) (navLinks p)
    (hamburgerBtn p) (experiences p) (modal p) (classes p) (ariaExpanded p)
    (bodyOverflow p) (bodyChildren p) (nextNode p) (anchors p) (selectors p)
    (invalidSelectors p) (headerHeight p) (scrolls p ++ [top]).

(** [classList] of an element of the store. *)
Definition classesOf (cls : gmap nat (gset string)) (e : nat) : gset string :=
  default ∅ (cls !! e).

Definition classList_add (e : nat) (c : string) (cls : gmap nat (gset string))
  : gmap nat (gset string) :=
  <[e := classesOf cls e ∪ {[c]}]> cls.

Definition classList_remove (e : nat) (c : string)
    (cls : gmap nat (gset string)) : gmap nat (gset string) :=
  <[e := classesOf cls e ∖ {[c]}]> cls.

(** [href.substring(1)]. *)
Definition substring1 (s : string) : string :=
  match s with
  | EmptyString => EmptyString
  | String _ r => r
  end.

(** [document.querySelector]: a [SyntaxError] for a string that is no valid
    selector (a lone [#] is none), else the first matching element, with its
    [offsetTop], or [null]. *)
Definition querySelector (p : Page) (sel : string)
  : completion (option (nat * Z)) :=
  if bool_decide (sel ∈ invalidSelectors p) then Throw "SyntaxError"
  else Return (selectors p !! sel).

(** The [map] and the [filter] of [collectSections] over the anchors: an
    entry for every anchor whose target exists, unless [querySelector] throws
    for one of them. *)
Fixpoint collect (p : Page) (l : list Anchor) : completion (list Section) :=
  match l with
  | [] => Return []
  | a :: l =>
      match querySelector p (href a) with
      | Throw m => Throw m
      | Return section =>
          match collect p l with
          | Throw m => Throw m
          | Return rest =>
              Return (match section with
                      | Some (el, _) =>
                          mkSection (substring1 (href a)) el (link a) :: rest
                      | None => rest
                      end)
          end
      end
  end.

(** [this.sections] is assigned once the whole list has been built. *)
Definition collectSections (p : Page) : completion unit * Page :=
  match collect p (anchors p) with
  | Return l => (Return tt, set_sections l p)
  | Throw m => (Throw m, p)
  end.

Definition openMobileMenu (p : Page) : Page :=
  set_menu true "true"
    (classList_add (hamburgerBtn p) "active"
       (classList_add (navLinks p) "mobile-menu-open" (classes p)))
    "hidden" p.

Definition closeMobileMenu (p : Page) : Page :=
  set_menu false "false"
    (classList_remove (hamburgerBtn p) "active"
       (classList_remove (navLinks p) "mobile-menu-open" (classes p)))
    "" p.

Definition toggleMobileMenu (p : Page) : Page :=
  if mobileMenuOpen p then closeMobileMenu p else openMobileMenu p.

(** The body of the [forEach] in [updateActiveSection]; every entry built by
    [collectSections] has its [navLink]. *)
Definition markSection (sectionId : string) (cls : gmap nat (gset string))
    (s : Section) : gmap nat (gset string) :=
  if String.eqb (id s) sectionId
  then classList_add (navLink s) "active" cls
  else classList_remove (navLink s) "active" cls.

Definition updateActiveSection (sectionId : string) (p : Page) : Page :=
  if String.eqb (activeSection p) sectionId then p
  else set_active sectionId
         (foldl (markSection sectionId) (classes p) (sections p)) p.

Definition startsWithHash (s : string) : bool :=
  match s with
  | String c _ => bool_decide (c = Ascii.ascii_of_nat 35)
  | EmptyString => false
  end.

(** [nav.closest('header')] is [null] for a nav outside any header, and
    reading [offsetHeight] from it throws. *)
Definition smoothScrollToSection (h : option string) (p : Page)
  : completion unit * Page :=
  match h with
  | None => (Return tt, p)
  | Some h =>
      if negb (truthy (Some h)) || negb (startsWithHash h) then (Return tt, p)
      else match querySelector p h with
           | Throw m => (Throw m, p)
           | Return (Some (_, offsetTop)) =>
               match headerHeight p with
               | Some height =>
                   (Return tt, scrollTo (offsetTop - height - 20) p)
               | None => (Throw "TypeError", p)
               end
           | Return None => (Return tt, p)
           end
  end.

(** The events the constructor's listeners react to.  An exception of a
    listener is reported and goes no further: [handle] is the page the
    listener leaves, whether it returned or threw. *)
Inductive UiEvent :=
| HamburgerClick
| DocumentClick (insideNav : bool)      (* nav.contains(e.target) *)
| Keydown (key : string)
| NavLinksClick (tagName : string) (h : option string)
| WindowResize (innerWidth : Z).

Definition handle (e : UiEvent) (p : Page) : Page :=
  match e with
  | HamburgerClick => toggleMobileMenu p
  | DocumentClick insideNav =>
      if mobileMenuOpen p && negb insideNav then closeMobileMenu p else p
  | Keydown key =>
      if String.eqb key "Escape" && mobileMenuOpen p then closeMobileMenu p
      else p
  | NavLinksClick tagName h =>
      if String.eqb tagName "A"
      then (smoothScrollToSection h (closeMobileMenu p)).2
      else p
  | WindowResize innerWidth =>
      if (768 <? innerWidth)%Z && mobileMenuOpen p then closeMobileMenu p
      else p
  end.

(** Whether the listener of [e] calls [closeMobileMenu]: the guard of each
    of the four triggers, and the hamburger button while the menu is open. *)
Definition closeTrigger (e : UiEvent) (p : Page) : bool :=
  match e with
  | HamburgerClick => mobileMenuOpen p
  | DocumentClick insideNav => mobileMenuOpen p && negb insideNav
  | Keydown key => String.eqb key "Escape" && mobileMenuOpen p
  | NavLinksClick tagName _ => String.eqb tagName "A"
  | WindowResize innerWidth => (768 <? innerWidth)%Z && mobileMenuOpen p
  end.

(** SkillsTimeline. *)
Definition closeModal (p : Page) : Page :=
  match modal p with
  | Some m =>
      set_modal None (filter (λ n, n ≠ m) (bodyChildren p)) (nextNode p) "" p
  | None => p
  end.

(** The modal's node is created, then the template is filled in: calling
    [map] on achievements or technologies that are no array throws, before
    the node is appended and [this.modal] assigned. *)
Definition createTimelineModal (experience : Experience) (p : Page)
  : completion unit * Page :=
  let p := closeModal p in
  let m := nextNode p in
  let p := set_modal (modal p) (bodyChildren p) (S m) (bodyOverflow p) p in
  match achievements experience, technologies experience with
  | Some _, Some _ =>
      (Return tt,
       set_modal (Some m) (bodyChildren p ++ [m]) (nextNode p) "hidden" p)
  | _, _ => (Throw "TypeError", p)
  end.

(** [this.experiences.find(exp => exp.id === experienceId)]. *)
Definition findExperience (experienceId : string) (p : Page)
  : option Experience :=
  List.find (λ exp, String.eqb (expId exp) experienceId) (experiences p).

Definition showTimelineDetails (experienceId : string) (p : Page)
  : completion unit * Page :=
  match findExperience experienceId p with
  | Some experience => createTimelineModal experience p
  | None => (Return tt, p)
  end.

(** An experience the modal can be filled in for. *)
Definition detailed (experience : Experience) : bool :=
  match achievements experience, technologies experience with
  | Some _, Some _ => true
  | _, _ => false
  end.

(** The links of the tracked sections that carry the [active] marker. *)
Definition isActive (p : Page) (s : Section) : bool :=
  bool_decide ("active" ∈ classesOf (classes p) (navLink s)).

Definition activeLinks (p : Page) : list Section :=
  filter (λ s, isActive p s = true) (sections p).

(** Two timeline experiences: one with everything the modal shows, one
    without achievements. *)
Definition exp1 : Experience :=
  mkExperience "exp1" (Some ["Shipped the portfolio"]) (Some ["JavaScript"]).

Definition exp2 : Experience :=
  mkExperience "exp2" None (Some ["HTML"; "CSS"]).

(** An example page before its sections are collected: two in-page anchors
    whose sections exist, the home link marked active by the markup, the two
    experiences, the nav inside a header. *)
Definition markupPage : Page :=
  mkPage false "home" [] 100 101 [exp1; exp2] None {[1 := {["active"]}]}
    "false" "" [] 200 [mkAnchor 1 "#home"; mkAnchor 2 "#about"]
    {["#home" := (10, 0%Z); "#about" := (11, 600%Z)]} {["#"]} (Some 80%Z) [].

(** The same page with a third anchor that leads nowhere, [href="#"]. *)
Definition markupWithBareHash : Page :=
  mkPage false "home" [] 100 101 [exp1; exp2] None {[1 := {["active"]}]}
    "false" "" [] 200
    [mkAnchor 1 "#home"; mkAnchor 2 "#about"; mkAnchor 3 "#"]
    {["#home" := (10, 0%Z); "#about" := (11, 600%Z)]} {["#"]} (Some 80%Z) [].

(** The example page with its sections collected as the constructor does. *)
Definition examplePage : Page := (collectSections markupPage).2.

(** The example page with a timeline modal shown and the mobile menu opened
    over it. *)
Definition menuAndModal : Page :=
  openMobileMenu (showTimelineDetails "exp1" examplePage).2.

End Navigation.

(** ** Invariants and the remaining entry points of the components *)

Module ThemeManagerState.
Import Js ThemeManager.

(** The timers outstanding are exactly the one the manager remembers in
    [this.transitionTimeout]: none, or that single one. *)
Definition singleTimer (w : World) : Prop :=
  pendingTimers w =
  match transitionTimeout w with
  | Some id => {[id]}
  | None => ∅
  end.

(** The toggle button offers the switch away from theme [t]. *)
Definition buttonOffers (t : string) (b : Button) : Prop :=
  innerHTML b = (if String.eqb t "dark" then Sun else Moon) ∧
  title b = (if String.eqb t "dark" then "Switch to light mode"
             else "Switch to dark mode") ∧
  ariaLabel b = title b ∧
  ("theme-toggle--dark" ∈ btnClasses b ↔ t = "dark") ∧
  ("theme-toggle--light" ∈ btnClasses b ↔ t ≠ "dark").

(** The manager as the field initialisers of the constructor leave it, just
    before [init] runs. *)
Definition constructStart (w : World) : World :=
  set_listeners false false
    (set_transitionTimeout None (set_currentTheme "dark" w)).

End ThemeManagerState.

Module LazyImageLoaderInit.
Import Js LazyImageLoader.

(** [lazyImages] stands for the result of
    [document.querySelectorAll('img[data-src], img[data-srcset]')]. *)
Definition observeImages (lazyImages : list nat) (st : Loader)
  : completion unit * Loader :=
  forEach observeImage lazyImages st.

(** The promise of each [loadImage] has its rejection swallowed; the
    synchronous part is the start of the preload. *)
Definition loadAllImages (lazyImages : list nat) (st : Loader) : Loader :=
  foldl (λ st img, loadImage img st) st lazyImages.

(** [init]; [supported] is ['IntersectionObserver' in window]. *)
Definition init (supported : bool) (lazyImages : list nat) (st : Loader)
  : completion unit * Loader :=
  if negb supported then (Return tt, loadAllImages lazyImages st)
  else
    observeImages lazyImages
      (mkLoader true (images st) (dom st) (observeCalls st)
         (unobserveCalls st) (loading st) (resolvesEmptySrc st)).

(** The loader as the field initialisers of the constructor leave it, over
    the images [d] of the document. *)
Definition newLoader (resolves : bool) (d : gmap nat Img) : Loader :=
  mkLoader false ∅ d [] [] [] resolves.

(** [new LazyImageLoader()]: when [init] throws no loader is handed to the
    caller; the record is then what the document and the observer were left
    with. *)
Definition construct (supported resolves : bool) (lazyImages : list nat)
    (d : gmap nat Img) : completion unit * Loader :=
  init supported lazyImages (newLoader resolves d).

(** Whether an image has a deferred source, and the preload [loadImage]
    starts for it. *)
Definition deferred (st : Loader) (img : nat) : bool :=
  truthy (dataSrc (getImg st img)) || truthy (dataSrcset (getImg st img)).

Definition preload (st : Loader) (img : nat)
  : nat * option string * option string :=
  (img, dataSrc (getImg st img), dataSrcset (getImg st img)).

Definition preloads (st : Loader) (imgs : list nat)
  : list (nat * option string * option string) :=
  preload st <$> filter (λ img, deferred st img = true) imgs.

(** The loader after the preload started for [img] has succeeded: [onload]
    runs with the deferred attributes [loadImage] read. *)
Definition loadedImage (img : nat) (st : Loader) : Loader :=
  onload img (dataSrc (getImg st img)) (dataSrcset (getImg st img)) st.

(** The targets of the intersecting entries of a batch. *)
Definition intersecting (entries : list (nat * bool)) : list nat :=
  (filter (λ e, e.2 = true) entries).*1.

(** [observeImage] returns for [img]: it is tracked already, or its
    placeholder is not asked for or can be generated. *)
Definition observable (st : Loader) (img : nat) : Prop :=
  img ∈ images st ∨ placeholderThrows st img = false.

(** Two lazy images of a page that resolves an empty src: a plain one and
    one sized in full-width digits. *)
Definition twoImages : gmap nat Img :=
  {[ 0 := mkImg ∅ None None (Some "cover.jpg") None None None;
     1 := mkImg ∅ None None (Some "photo.jpg") None
            (Some [65297; 65296; 65296]%N) None ]}.

End LazyImageLoaderInit.

Module NavigationState.
Import Js Navigation.

(** The menu flag agrees with what the document shows. *)
Definition menuConsistent (p : Page) : Prop :=
  ("mobile-menu-open" ∈ classesOf (classes p) (navLinks p)
   ↔ mobileMenuOpen p = true) ∧
  ("active" ∈ classesOf (classes p) (hamburgerBtn p)
   ↔ mobileMenuOpen p = true) ∧
  ariaExpanded p = (if mobileMenuOpen p then "true" else "false").

(** The tracked links that carry the marker are those of the active
    section. *)
Definition markersConsistent (p : Page) : Prop :=
  ∀ s, s ∈ sections p → (isActive p s = true ↔ id s = activeSection p).

(** A run of [updateActiveSection] calls, first call first. *)
Definition updateActiveSections (ids : list string) (p : Page) : Page :=
  foldl (λ p i, updateActiveSection i p) p ids.

(** Every node of the body was handed out by [createElement] before. *)
Definition nodesKnown (p : Page) : Prop :=
  ∀ n, n ∈ bodyChildren p → n < nextNode p.

End NavigationState.

(** ** ContactForm: validation *)

Module ContactForm.
Import Js.

#[local] Open Scope list_scope.

(** A JavaScript string is a sequence of UTF-16 code units; [length] counts
    them and the patterns below (written without the unicode flag) match
    them one by one. *)
Definition jsstring := list N.

(** White space and line terminators: what [\s] matches and what [trim]
    strips. *)
Definition isWhiteSpace (c : N) : bool :=
  bool_decide (c ∈ [9; 10; 11; 12; 13; 32; 160; 5760; 8232; 8233; 8239;
                    8287; 12288; 65279]%N)
  || ((8192 <=? c) && (c <=? 8202))%N.

Definition isLetter (c : N) : bool :=
  ((97 <=? c) && (c <=? 122) || (65 <=? c) && (c <=? 90))%N.

Fixpoint trimStart (s : jsstring) : jsstring :=
  match s with
  | c :: r => if isWhiteSpace c then trimStart r else s
  | [] => []
  end.

Definition trimEnd (s : jsstring) : jsstring := rev (trimStart (rev s)).

(** [String.prototype.trim]. *)
Definition trim (s : jsstring) : jsstring := trimEnd (trimStart s).

(** Regular expressions over code units; [Void] only arises while
    matching. *)
Inductive re :=
| Void
| Eps
| Class (p : N → bool)
| Seq (r1 r2 : re)
| Alt (r1 r2 : re)
| Star (r : re).

Definition Plus (r : re) : re := Seq r (Star r).
Definition Chr (c : N) : re := Class (N.eqb c).

(** What it means for a whole string to match. *)
Inductive matches : re → jsstring → Prop :=
| MEps : matches Eps []
| MClass p c : p c = true → matches (Class p) [c]
| MSeq r1 r2 s1 s2 :
    matches r1 s1 → matches r2 s2 → matches (Seq r1 r2) (s1 ++ s2)
| MAltL r1 r2 s : matches r1 s → matches (Alt r1 r2) s
| MAltR r1 r2 s : matches r2 s → matches (Alt r1 r2) s
| MStarNil r : matches (Star r) []
| MStarApp r s1 s2 :
    matches r s1 → matches (Star r) s2 → matches (Star r) (s1 ++ s2).

Fixpoint nullable (r : re) : bool :=
  match r with
  | Void => false
  | Eps => true
  | Class _ => false
  | Seq r1 r2 => nullable r1 && nullable r2
  | Alt r1 r2 => nullable r1 || nullable r2
  | Star _ => true
  end.

Fixpoint deriv (c : N) (r : re) : re :=
  match r with
  | Void => Void
  | Eps => Void
  | Class p => if p c then Eps else Void
  | Seq r1 r2 =>
      if nullable r1
      then Alt (Seq (deriv c r1) r2) (deriv c r2)
      else Seq (deriv c r1) r2
  | Alt r1 r2 => Alt (deriv c r1) (deriv c r2)
  | Star r1 => Seq (deriv c r1) (Star r1)
  end.

(** [pattern.test(value)] for a pattern anchored at both ends. *)
Fixpoint test (r : re) (s : jsstring) : bool :=
  match s with
  | [] => nullable r
  | c :: s' => test (deriv c r) s'
  end.

(** The class [[a-zA-Z\s]] and the class [[^\s@]]. *)
Definition letterOrSpace (c : N) : bool := isLetter c || isWhiteSpace c.
Definition notSpaceNorAt (c : N) : bool :=
  negb (isWhiteSpace c) && negb (N.eqb c 64).

(** [/^[a-zA-Z\s]+$/] and [/^[^\s@]+@[^\s@]+\.[^\s@]+$/]. *)
Definition namePattern : re := Plus (Class letterOrSpace).
Definition emailPattern : re :=
  Seq (Plus (Class notSpaceNorAt))
    (Seq (Chr 64)
       (Seq (Plus (Class notSpaceNorAt))
          (Seq (Chr 46) (Plus (Class notSpaceNorAt))))).

Inductive Field := FName | FEmail | FSubject | FMessage.

#[global] Instance Field_eq_dec : EqDecision Field.
Proof. solve_decision. Defined.

(** [Object.keys(this.fields)], in insertion order. *)
Definition fieldNames : list Field := [FName; FEmail; FSubject; FMessage].

Definition fieldName (f : Field) : string :=
  match f with
  | FName => "name"
  | FEmail => "email"
  | FSubject => "subject"
  | FMessage => "message"
  end.

Record Rule := mkRule {
  required : bool;
  minLength : option nat;
  maxLength : option nat;
  pattern : option re;
  message : string
}.

Definition validationRules (f : Field) : Rule :=
  match f with
  | FName =>
      mkRule true (Some 2) None (Some namePattern)
        "Name must contain only letters and spaces, minimum 2 characters"
  | FEmail =>
      mkRule true None None (Some emailPattern)
        "Please enter a valid email address"
  | FSubject =>
      mkRule true (Some 5) (Some 100) None
        "Subject must be between 5 and 100 characters"
  | FMessage =>
      mkRule true (Some 10) (Some 1000) None
        "Message must be between 10 and 1000 characters"
  end.

(** [capitalizeFirst], which only ever receives one of the four field names:
    the first character of an ASCII string in upper case. *)
Definition upper (c : Ascii.ascii) : Ascii.ascii :=
  let n := Ascii.nat_of_ascii c in
  if (97 <=? n)%nat && (n <=? 122)%nat then Ascii.ascii_of_nat (n - 32) else c.

Definition capitalizeFirst (str : string) : string :=
  match str with
  | EmptyString => EmptyString
  | String c r => String (upper c) r
  end.

(** [n && len < n] and [n && len > n] for an optional numeric rule. *)
Definition below (limit : option nat) (len : nat) : bool :=
  match limit with
  | Some n => negb (n =? 0)%nat && (len <? n)%nat
  | None => false
  end.

Definition above (limit : option nat) (len : nat) : bool :=
  match limit with
  | Some n => negb (n =? 0)%nat && (n <? len)%nat
  | None => false
  end.

(** The verdict of [validateField] on the raw value of a field: [None] when
    valid, otherwise the error message. *)
Definition verdict (f : Field) (raw : jsstring) : option string :=
  let rules := validationRules f in
  let value := trim raw in
  let empty := bool_decide (value = []) in
  if required rules && empty then
    Some (capitalizeFirst (fieldName f) ++ " is required")%string
  else if negb empty &&
          match pattern rules with
          | Some r => negb (test r value)
          | None => false
          end then
    Some (message rules)
  else if negb empty then
    if below (minLength rules) (length value) then Some (message rules)
    else if above (maxLength rules) (length value) then Some (message rules)
    else None
  else None.

(** The form: its inputs, the error elements, the timers of [hideError] that
    have not fired yet (oldest first) and what was handed to [submitForm]. *)
Record Input := mkInput {
  value : jsstring;
  borderColor : string
}.

Record Notice := mkNotice {
  textContent : string;
  display : string;
  opacity : string
}.

Record Form := mkForm {
  inputs : Field → option Input;      (* this.fields[name] *)
  notices : Field → option Notice;    (* getElementById(name + "-error") *)
  hideTimers : list Field;
  submitted : list (Field → option jsstring)
}.

Definition upd {A} (f : Field) (x : A) (m : Field → A) : Field → A :=
  λ g, if decide (g = f) then x else m g.

Definition showError (f : Field) (n : Notice) (msg : string) (st : Form)
  : Form :=
  mkForm (inputs st) (upd f (Some (mkNotice msg "block" "1")) (notices st))
    (hideTimers st) (submitted st).

Definition hideError (f : Field) (n : Notice) (st : Form) : Form :=
  mkForm (inputs st)
    (upd f (Some (mkNotice (textContent n) (display n) "0")) (notices st))
    (hideTimers st ++ [f]) (submitted st).

(** The callback of the oldest pending [hideError] timer. *)
Definition hideTimerFired (st : Form) : Form :=
  match hideTimers st with
  | [] => st
  | f :: rest =>
      mkForm (inputs st)
        (match notices st f with
         | Some n =>
             upd f (Some (mkNotice (textContent n) "none" (opacity n)))
               (notices st)
         | None => notices st
         end)
        rest (submitted st)
  end.

Definition setBorder (f : Field) (i : Input) (color : string) (st : Form)
  : Form :=
  mkForm (upd f (Some (mkInput (value i) color)) (inputs st)) (notices st)
    (hideTimers st) (submitted st).

Definition validateField (f : Field) (st : Form) : bool * Form :=
  match inputs st f, notices st f with
  | Some i, Some n =>
      match verdict f (value i) with
      | None =>
          (true, hideError f n (setBorder f i "rgba(34, 197, 94, 0.3)" st))
      | Some msg =>
          (false,
           showError f n msg (setBorder f i "rgba(239, 68, 68, 0.5)" st))
      end
  | _, _ => (true, st)
  end.

(** The body of the [forEach] in [validateAllFields]. *)
Definition validateNext (acc : bool * Form) (f : Field) : bool * Form :=
  let '(allValid, st) := acc in
  let '(ok, st) := validateField f st in
  (if ok then allValid else false, st).

Definition validateAllFields (st : Form) : bool * Form :=
  foldl validateNext (true, st) fieldNames.

(** How an input and its error element look after [validateField] judged the
    value of the input. *)
Definition judgedInput (f : Field) (i : Input) : Input :=
  mkInput (value i)
    (match verdict f (value i) with
     | None => "rgba(34, 197, 94, 0.3)"
     | Some _ => "rgba(239, 68, 68, 0.5)"
     end).

Definition judgedNotice (f : Field) (i : Input) (n : Notice) : Notice :=
  match verdict f (value i) with
  | None => mkNotice (textContent n) (display n) "0"
  | Some msg => mkNotice msg "block" "1"
  end.

(** Whether a field, if it has its input and error element, holds a value
    that [validateField] accepts. *)
Definition acceptable (st : Form) (f : Field) : Prop :=
  ∀ i, inputs st f = Some i → is_Some (notices st f) →
       verdict f (value i) = None.

(** [handleSubmit].  [formData] stands for [new FormData(this.form)] read
    at the four names: what the browser collects from the controls of the
    whole form at that moment, [None] for [null].  It need not be the value
    of the input the validation looked at: a disabled control contributes no
    entry, and the first control of a name in the form wins. *)
Definition handleSubmit (formData : Field → option jsstring) (st : Form)
  : bool * Form :=
  let '(ok, st) := validateAllFields st in
  if negb ok then (false, st)
  else (true, mkForm (inputs st) (notices st) (hideTimers st)
                (submitted st ++ [formData])).

(** The user types [v] into field [f]. *)
Definition typeInto (f : Field) (v : jsstring) (st : Form) : Form :=
  match inputs st f with
  | Some i =>
      mkForm (upd f (Some (mkInput v (borderColor i))) (inputs st))
        (notices st) (hideTimers st) (submitted st)
  | None => st
  end.

(** The string [s] as code units, for examples. *)
Fixpoint units (s : string) : jsstring :=
  match s with
  | EmptyString => []
  | String c r => N.of_nat (Ascii.nat_of_ascii c) :: units r
  end.

(** A form with its four inputs empty and its four error elements. *)
Definition blankForm : Form :=
  mkForm (λ _, Some (mkInput [] "")) (λ _, Some (mkNotice "" "none" "0"))
    [] [].

(** A form filled in with values that pass. *)
Definition filledForm : Form :=
  typeInto FName (units "Ada Lovelace")
    (typeInto FEmail (units "ada@example.org")
       (typeInto FSubject (units "Hello")
          (typeInto FMessage (units "A note about engines.") blankForm))).

(** What [FormData] reads from the filled form when its subject input is
    disabled: the three other values, and no subject. *)
Definition subjectDisabled : Field → option jsstring :=
  λ f, match f with
       | FSubject => None
       | _ => value <$> inputs filledForm f
       end.

End ContactForm.

(** ** PortfolioApp: the component registry *)

Module AppShell.
Import Js PortfolioApp.

#[local] Open Scope list_scope.

(** The classes the application instantiates. *)
Inductive Kind :=
| ThemeManagerK
| LazyImageLoaderK
| AnimationEngineK
| NavigationManagerK
| ProjectGalleryK
| BlogSystemK
| ContactFormK
| SkillsTimelineK.

(** [typeof component.destroy === 'function']: only the animation engine
    and the lazy image loader define [destroy]. *)
Definition hasDestroy (k : Kind) : bool :=
  match k with
  | AnimationEngineK | LazyImageLoaderK => true
  | _ => false
  end.

(** Which of the elements [initializeComponents] looks for exist. *)
Record Dom := mkDom {
  navEl : bool;               (* querySelector('nav') *)
  projectsEl : bool;          (* getElementById('projects') *)
  blogEl : bool;              (* getElementById('blog') *)
  contactFormEl : bool;       (* getElementById('contact-form') *)
  skillsTimelineEl : bool     (* querySelector('.skills-timeline') *)
}.

(** The registry side of the application: [this.components] as a [Map]
    (names in insertion order, each with the instance it holds), the class of
    every instance created so far, the [destroy] calls made, and the
    datasets.  What the constructors do to the page is the business of the
    components themselves. *)
Record Shell := mkShell {
  components : list (string * nat);
  kindOf : gmap nat Kind;
  destroyCalls : list nat;
  nextInstance : nat;
  app : App;
  consoleErrors : list string
}.

(** [Map.prototype.set], [get], [has] and [clear]. *)
Fixpoint mapSet (k : string) (v : nat) (m : list (string * nat))
  : list (string * nat) :=
  match m with
  | [] => [(k, v)]
  | (k', v') :: r =>
      if String.eqb k' k then (k, v) :: r else (k', v') :: mapSet k v r
  end.

Fixpoint mapGet (k : string) (m : list (string * nat)) : option nat :=
  match m with
  | [] => None
  | (k', v') :: r => if String.eqb k' k then Some v' else mapGet k r
  end.

Definition mapHas (k : string) (m : list (string * nat)) : bool :=
  match mapGet k m with
  | Some _ => true
  | None => false
  end.

(** Truthiness of a dataset field. *)
Definition jsonTruthy (v : option json) : bool :=
  match v with
  | None | Some JNull => false
  | Some (JBool b) => b
  | Some (JNum z) => negb (z =? 0)%Z
  | Some (JStr s) => negb (String.eqb s "")
  | Some (JArr _) | Some (JObj _) => true
  end.

(** [new K(...)] (with [init()] for the animation engine); [fails k] says
    that constructing a [k] throws on this page. *)
Definition create (fails : Kind → bool) (k : Kind) (sh : Shell)
  : completion nat * Shell :=
  if fails k then (Throw "TypeError", sh)
  else
    (Return (nextInstance sh),
     mkShell (components sh) (<[nextInstance sh := k]> (kindOf sh))
       (destroyCalls sh) (S (nextInstance sh)) (app sh) (consoleErrors sh)).

Definition register (name : string) (i : nat) (sh : Shell) : Shell :=
  mkShell (mapSet name i (components sh)) (kindOf sh) (destroyCalls sh)
    (nextInstance sh) (app sh) (consoleErrors sh).

(** Construct a component and put it in the registry, when [cond] holds. *)
Definition createAndSet (fails : Kind → bool) (cond : bool) (k : Kind)
    (name : string) (sh : Shell) : completion unit * Shell :=
  if cond then
    match create fails k sh with
    | (Return i, sh) => (Return tt, register name i sh)
    | (Throw m, sh) => (Throw m, sh)
    end
  else (Return tt, sh).

Definition andThen (r : completion unit * Shell)
    (f : Shell → completion unit * Shell) : completion unit * Shell :=
  match r with
  | (Return _, sh) => f sh
  | (Throw m, sh) => (Throw m, sh)
  end.

Definition initializeComponents (fails : Kind → bool) (d : Dom) (sh : Shell)
  : completion unit * Shell :=
  andThen (createAndSet fails true AnimationEngineK "animationEngine" sh)
    (λ sh,
  andThen (createAndSet fails (navEl d) NavigationManagerK
             "navigationManager" sh) (λ sh,
  andThen (createAndSet fails
             (projectsEl d && jsonTruthy (projects (data (app sh))))
             ProjectGalleryK "projectGallery" sh) (λ sh,
  andThen (createAndSet fails
             (blogEl d && jsonTruthy (articles (data (app sh))))
             BlogSystemK "blogSystem" sh) (λ sh,
  andThen (createAndSet fails (contactFormEl d) ContactFormK
             "contactForm" sh) (λ sh,
  createAndSet fails
    (skillsTimelineEl d && jsonTruthy (timeline (data (app sh))))
    SkillsTimelineK "skillsTimeline" sh))))).

Definition getComponent (name : string) (sh : Shell) : option nat :=
  mapGet name (components sh).

Definition areAllComponentsInitialized (sh : Shell) : bool :=
  forallb (λ name, mapHas name (components sh))
    ["themeManager"; "animationEngine"; "lazyImageLoader"].

(** The instances of the registry that have a [destroy] method. *)
Definition canDestroy (sh : Shell) (i : nat) : bool :=
  match kindOf sh !! i with
  | Some k => hasDestroy k
  | None => false
  end.

Definition destroyable (sh : Shell) : list nat :=
  filter (λ i, canDestroy sh i = true) (components sh).*2.

Definition reinitializeComponents (fails : Kind → bool) (d : Dom)
    (sh : Shell) : completion unit * Shell :=
  let sh := mkShell (components sh) (kindOf sh)
              (destroyCalls sh ++ destroyable sh) (nextInstance sh)
              (app sh) (consoleErrors sh) in
  let sh := mkShell [] (kindOf sh) (destroyCalls sh) (nextInstance sh)
              (app sh) (consoleErrors sh) in
  initializeComponents fails d sh.

(** [init]: the two early components, the datasets, then the rest at once
    or, while the document is still loading, not before DOMContentLoaded;
    anything thrown on the way is caught and logged. *)
Definition init (fails : Kind → bool) (net : Network) (loading : bool)
    (d : Dom) (sh : Shell) : Shell :=
  let caught (m : string) (sh : Shell) :=
    mkShell (components sh) (kindOf sh) (destroyCalls sh) (nextInstance sh)
      (app sh) (consoleErrors sh ++ ["Failed to initialize portfolio app:"]) in
  match createAndSet fails true ThemeManagerK "themeManager" sh with
  | (Throw m, sh) => caught m sh
  | (Return _, sh) =>
      match createAndSet fails true LazyImageLoaderK "lazyImageLoader" sh with
      | (Throw m, sh) => caught m sh
      | (Return _, sh) =>
          let sh := mkShell (components sh) (kindOf sh) (destroyCalls sh)
                      (nextInstance sh) (loadData net (app sh))
                      (consoleErrors sh) in
          if loading then sh
          else
            match initializeComponents fails d sh with
            | (Throw m, sh) => caught m sh
            | (Return _, sh) => sh
            end
      end
  end.

(** The application as [new PortfolioApp()] leaves it. *)
Definition newShell : Shell := mkShell [] ∅ [] 0 newApp [].

(** The names [initializeComponents] registers on a page, in order. *)
Definition registeredNames (d : Dom) (sh : Shell) : list string :=
  ["animationEngine"] ++
  (if navEl d then ["navigationManager"] else []) ++
  (if projectsEl d && jsonTruthy (projects (data (app sh)))
   then ["projectGallery"] else []) ++
  (if blogEl d && jsonTruthy (articles (data (app sh)))
   then ["blogSystem"] else []) ++
  (if contactFormEl d then ["contactForm"] else []) ++
  (if skillsTimelineEl d && jsonTruthy (timeline (data (app sh)))
   then ["skillsTimeline"] else []).

End AppShell.

(** * Properties *)

(** ** ThemeManager *)

Module ThemeManagerFacts.
Import Js ThemeManager.

Lemma includes_supported (t : string) :
  includes supportedThemes t = true ↔ t = "dark" ∨ t = "light".
Proof.
  unfold includes, supportedThemes. rewrite bool_decide_eq_true.
  rewrite !elem_of_cons, elem_of_nil. tauto.
Qed.

Lemma includes_unsupported (t : string) :
  t ≠ "dark" → t ≠ "light" → includes supportedThemes t = false.
Proof.
  intros Hd Hl. destruct (includes supportedThemes t) eqn:E; [|done].
  apply includes_supported in E. tauto.
Qed.

Lemma detectSystemTheme_supported (w : World) :
  detectSystemTheme w = "dark" ∨ detectSystemTheme w = "light".
Proof. unfold detectSystemTheme. destruct (matchMedia w) as [[]|]; auto. Qed.

(** What a valid [setTheme] leaves behind, field by field. *)
Lemma setTheme_valid_unfold (t : string) (w : World) :
  t = "dark" ∨ t = "light" →
  setTheme t w =
  dispatchThemeChangeEvent t (currentTheme w)
    (persistTheme t
       (updateToggleIfPresent
          (applyThemeWithTransition t (set_currentTheme t w)))).
Proof.
  intros Ht. unfold setTheme.
  by rewrite (proj2 (includes_supported t) Ht).
Qed.

Lemma persistTheme_currentTheme t w :
  currentTheme (persistTheme t w) = currentTheme w.
Proof. unfold persistTheme, setItem. by destruct (setThrows (storage w)). Qed.

Lemma persistTheme_dataTheme t w :
  dataTheme (persistTheme t w) = dataTheme w.
Proof. unfold persistTheme, setItem. by destruct (setThrows (storage w)). Qed.

Lemma persistTheme_dispatched t w :
  dispatched (persistTheme t w) = dispatched w.
Proof. unfold persistTheme, setItem. by destruct (setThrows (storage w)). Qed.

Lemma persistTheme_now t w : now (persistTheme t w) = now w.
Proof. unfold persistTheme, setItem. by destruct (setThrows (storage w)). Qed.

Lemma persistTheme_items t w :
  setThrows (storage w) = false →
  items (storage (persistTheme t w)) !! storageKey = Some t.
Proof.
  intros H. unfold persistTheme, setItem. rewrite H. simpl.
  apply lookup_insert_eq.
Qed.

Lemma updateToggleIfPresent_fields w :
  currentTheme (updateToggleIfPresent w) = currentTheme w ∧
  dataTheme (updateToggleIfPresent w) = dataTheme w ∧
  dispatched (updateToggleIfPresent w) = dispatched w ∧
  storage (updateToggleIfPresent w) = storage w ∧
  now (updateToggleIfPresent w) = now w.
Proof. unfold updateToggleIfPresent. by destruct (toggle w). Qed.

Lemma applyThemeWithTransition_fields t w :
  currentTheme (applyThemeWithTransition t w) = currentTheme w ∧
  dataTheme (applyThemeWithTransition t w) = Some t ∧
  dispatched (applyThemeWithTransition t w) = dispatched w ∧
  storage (applyThemeWithTransition t w) = storage w ∧
  now (applyThemeWithTransition t w) = now w.
Proof. unfold applyThemeWithTransition. by destruct (transitionTimeout w). Qed.

Lemma setTheme_valid_currentTheme (t : string) (w : World) :
  t = "dark" ∨ t = "light" → currentTheme (setTheme t w) = t.
Proof.
  intros Ht. rewrite setTheme_valid_unfold by done.
  unfold dispatchThemeChangeEvent. simpl.
  rewrite persistTheme_currentTheme.
  destruct (updateToggleIfPresent_fields
              (applyThemeWithTransition t (set_currentTheme t w))) as [-> _].
  by destruct (applyThemeWithTransition_fields t (set_currentTheme t w)) as [-> _].
Qed.

Lemma setTheme_valid_dataTheme (t : string) (w : World) :
  t = "dark" ∨ t = "light" → dataTheme (setTheme t w) = Some t.
Proof.
  intros Ht. rewrite setTheme_valid_unfold by done.
  unfold dispatchThemeChangeEvent. simpl.
  rewrite persistTheme_dataTheme.
  destruct (updateToggleIfPresent_fields
              (applyThemeWithTransition t (set_currentTheme t w)))
    as (_ & -> & _).
  by destruct (applyThemeWithTransition_fields t (set_currentTheme t w))
    as (_ & -> & _).
Qed.

Lemma toggleTheme_from_dark (w : World) :
  currentTheme w = "dark" → toggleTheme w = setTheme "light" w.
Proof. intros H. unfold toggleTheme. by rewrite H. Qed.

Lemma toggleTheme_from_light (w : World) :
  currentTheme w = "light" → toggleTheme w = setTheme "dark" w.
Proof. intros H. unfold toggleTheme. by rewrite H. Qed.

(** C1: for every string other than "dark" and "light", [setTheme] changes
    nothing but the console: the current theme, the root's theme attribute,
    the persisted store and the dispatched events are as before. *)
Theorem setTheme_invalid_noop (s : string) (w : World) :
  s ≠ "dark" → s ≠ "light" →
  (∃ msg, setTheme s w = warn msg w) ∧
  currentTheme (setTheme s w) = currentTheme w ∧
  dataTheme (setTheme s w) = dataTheme w ∧
  storage (setTheme s w) = storage w ∧
  dispatched (setTheme s w) = dispatched w.
Proof.
  intros Hd Hl. unfold setTheme.
  rewrite (includes_unsupported s Hd Hl). simpl.
  split; [by eexists|done].
Qed.

Lemma setTheme_invalid_noop_witness :
  "blue" ≠ "dark" ∧ "blue" ≠ "light" ∧
  currentTheme (setTheme "blue" freshPage) = currentTheme freshPage ∧
  dispatched (setTheme "blue" freshPage) = dispatched freshPage.
Proof.
  set (w := freshPage).
  assert (Hd : "blue" ≠ "dark") by discriminate.
  assert (Hl : "blue" ≠ "light") by discriminate.
  destruct (setTheme_invalid_noop "blue" w Hd Hl) as (_ & Hc & _ & _ & He).
  exact (conj Hd (conj Hl (conj Hc He))).
Defined.

(** C6: from a current theme that is "dark" or "light", two toggles in a row
    lead back to it. *)
Theorem toggleTheme_twice (w : World) :
  currentTheme w = "dark" ∨ currentTheme w = "light" →
  currentTheme (toggleTheme (toggleTheme w)) = currentTheme w.
Proof.
  intros [H|H].
  - rewrite (toggleTheme_from_light (toggleTheme w)).
    + rewrite setTheme_valid_currentTheme; [done|by left].
    + rewrite (toggleTheme_from_dark w H).
      apply setTheme_valid_currentTheme. by right.
  - rewrite (toggleTheme_from_dark (toggleTheme w)).
    + rewrite setTheme_valid_currentTheme; [done|by right].
    + rewrite (toggleTheme_from_light w H).
      apply setTheme_valid_currentTheme. by left.
Qed.

Lemma toggleTheme_twice_witness :
  (currentTheme lightPage = "dark" ∨ currentTheme lightPage = "light") ∧
  currentTheme (toggleTheme (toggleTheme lightPage)) = currentTheme lightPage.
Proof.
  set (w := lightPage).
  assert (H : currentTheme w = "dark" ∨ currentTheme w = "light")
    by (right; reflexivity).
  exact (conj H (toggleTheme_twice w H)).
Defined.

(** C8: in a [setTheme] with a valid name exactly one [themeChanged] event is
    dispatched, carrying the new theme, the previous theme and the time; at
    the moment of the dispatch the current-theme field and the root's theme
    attribute already hold the new theme (and so does the store, when it
    accepts the write), and they still do when [setTheme] returns. *)
Theorem setTheme_mutation_before_dispatch (t : string) (w : World) :
  t = "dark" ∨ t = "light" →
  ∃ d, dispatched (setTheme t w) = (dispatched w ++ [d])%list ∧
       event d = mkThemeChanged t (currentTheme w) (now w) ∧
       seenCurrentTheme d = t ∧
       seenDataTheme d = Some t ∧
       (setThrows (storage w) = false → seenItems d !! storageKey = Some t) ∧
       currentTheme (setTheme t w) = t ∧
       dataTheme (setTheme t w) = Some t.
Proof.
  intros Ht. rewrite (setTheme_valid_unfold t w Ht).
  destruct (applyThemeWithTransition_fields t (set_currentTheme t w))
    as (A1 & A2 & A3 & A4 & A5).
  set (w1 := applyThemeWithTransition t (set_currentTheme t w))
    in A1, A2, A3, A4, A5 |- *.
  destruct (updateToggleIfPresent_fields w1) as (U1 & U2 & U3 & U4 & U5).
  set (w2 := updateToggleIfPresent w1) in U1, U2, U3, U4, U5 |- *.
  assert (P1 : currentTheme (persistTheme t w2) = t).
  { by rewrite persistTheme_currentTheme, U1, A1. }
  assert (P2 : dataTheme (persistTheme t w2) = Some t).
  { by rewrite persistTheme_dataTheme, U2, A2. }
  assert (P3 : dispatched (persistTheme t w2) = dispatched w).
  { by rewrite persistTheme_dispatched, U3, A3. }
  assert (P4 : now (persistTheme t w2) = now w).
  { by rewrite persistTheme_now, U5, A5. }
  assert (P5 : setThrows (storage w) = false →
               items (storage (persistTheme t w2)) !! storageKey = Some t).
  { intros Hs. apply persistTheme_items. by rewrite U4, A4. }
  unfold dispatchThemeChangeEvent. cbn [dispatched set_dispatched
    currentTheme dataTheme].
  rewrite P1, P2, P3, P4.
  eexists. split; [reflexivity|]. cbn [event seenCurrentTheme seenDataTheme
    seenItems]. done.
Qed.

Lemma setTheme_mutation_before_dispatch_witness :
  ("light" = "dark" ∨ "light" = "light") ∧
  ∃ d, dispatched (setTheme "light" freshPage)
         = (dispatched freshPage ++ [d])%list ∧
       seenCurrentTheme d = "light" ∧ seenDataTheme d = Some "light".
Proof.
  set (w := freshPage).
  assert (H : "light" = "dark" ∨ "light" = "light") by (right; reflexivity).
  destruct (setTheme_mutation_before_dispatch "light" w H)
    as (d & Hd & _ & Hc & Ha & _).
  exact (conj H (ex_intro _ d (conj Hd (conj Hc Ha)))).
Defined.

(** The value [initializeTheme] reads, and what it settles on. *)
Lemma getSavedTheme_world (w : World) :
  storage (getSavedTheme w).2 = storage w ∧
  matchMedia (getSavedTheme w).2 = matchMedia w.
Proof. unfold getSavedTheme, getItem. by destruct (getThrows (storage w)). Qed.

Lemma startupTheme_supported (w : World) :
  startupTheme w = "dark" ∨ startupTheme w = "light".
Proof.
  unfold startupTheme. destruct (getSavedTheme w).1 as [s|];
    [|apply detectSystemTheme_supported].
  destruct (String.eqb s ""); [apply detectSystemTheme_supported|].
  destruct (includes supportedThemes s) eqn:E; [|by left].
  by apply includes_supported.
Qed.

Lemma initializeTheme_unfold (w : World) :
  initializeTheme w =
  persistTheme (startupTheme w)
    (applyThemeImmediate (startupTheme w)
       (set_currentTheme (startupTheme w) (getSavedTheme w).2)).
Proof.
  unfold initializeTheme, startupTheme.
  destruct (getSavedTheme w) as [saved w'] eqn:E. simpl.
  assert (Hm : detectSystemTheme w' = detectSystemTheme w).
  { unfold detectSystemTheme.
    replace w' with (getSavedTheme w).2 by (by rewrite E).
    by destruct (getSavedTheme_world w) as [_ ->]. }
  destruct saved as [s|]; simpl.
  - destruct (String.eqb s "") eqn:Es; simpl.
    + rewrite Hm.
      destruct (detectSystemTheme_supported w) as [-> | ->]; done.
    + by destruct (includes supportedThemes s).
  - rewrite Hm.
    destruct (detectSystemTheme_supported w) as [-> | ->]; done.
Qed.

(** C3 (amended): initialisation takes the saved value when it is a
    non-empty string and the OS-reported preference when nothing, or the
    empty string, is saved; a candidate that is not a valid theme is replaced
    by "dark".  So a saved non-empty invalid value gives "dark" whatever the
    OS reports, and the result is always a valid theme, also set on the
    document root. *)
Theorem initializeTheme_order (w : World) :
  currentTheme (initializeTheme w) =
    match (getSavedTheme w).1 with
    | None => detectSystemTheme w
    | Some s =>
        if String.eqb s "" then detectSystemTheme w
        else if includes supportedThemes s then s else "dark"
    end ∧
  dataTheme (initializeTheme w) = Some (currentTheme (initializeTheme w)) ∧
  (currentTheme (initializeTheme w) = "dark" ∨
   currentTheme (initializeTheme w) = "light").
Proof.
  assert (E : currentTheme (initializeTheme w) = startupTheme w).
  { rewrite initializeTheme_unfold. by rewrite persistTheme_currentTheme. }
  split; [exact E|]. split.
  - rewrite E, initializeTheme_unfold. by rewrite persistTheme_dataTheme.
  - rewrite E. apply startupTheme_supported.
Qed.

(** C3 as stated fails: with "blue" saved and an OS that prefers light, the
    initial theme is "dark", not the OS preference. *)
Lemma initializeTheme_invalid_saved_skips_os :
  (getSavedTheme blueSaved).1 = Some "blue" ∧
  includes supportedThemes "blue" = false ∧
  detectSystemTheme blueSaved = "light" ∧
  currentTheme (initializeTheme blueSaved) = "dark" ∧
  currentTheme (initializeTheme blueSaved) ≠ detectSystemTheme blueSaved.
Proof. vm_compute. repeat split; discriminate. Qed.

Lemma getSavedTheme_truthy_world (w : World) :
  truthy (getSavedTheme w).1 = true → (getSavedTheme w).2 = w.
Proof.
  unfold getSavedTheme, getItem. destruct (getThrows (storage w)); [|done].
  simpl. discriminate.
Qed.

(** C5 (amended): on an OS preference-change event the listener sets the
    theme to the OS-reported value when the value read under the storage key
    is absent (or unreadable) or the empty string, and leaves the page as it
    is when a non-empty value is stored. *)
Theorem onSystemThemeChange_guard (matches : bool) (w : World) :
  ((getSavedTheme w).1 = None ∨ (getSavedTheme w).1 = Some "" →
   currentTheme (onSystemThemeChange matches w)
     = (if matches then "light" else "dark") ∧
   dataTheme (onSystemThemeChange matches w)
     = Some (if matches then "light" else "dark")) ∧
  (∀ s, (getSavedTheme w).1 = Some s → s ≠ "" →
        onSystemThemeChange matches w = w).
Proof.
  split.
  - intros Hs. unfold onSystemThemeChange.
    destruct (getSavedTheme w) as [saved w'] eqn:E. simpl in Hs.
    assert (Hf : truthy saved = false) by (by destruct Hs as [-> | ->]).
    rewrite Hf. simpl.
    set (os := if matches then "light" else "dark").
    assert (Hos : os = "dark" ∨ os = "light")
      by (unfold os; destruct matches; auto).
    destruct (updateToggleIfPresent_fields (setTheme os w'))
      as (-> & -> & _).
    split; [by apply setTheme_valid_currentTheme
           |by apply setTheme_valid_dataTheme].
  - intros s Hs Hne. unfold onSystemThemeChange.
    assert (Ht : truthy (getSavedTheme w).1 = true).
    { rewrite Hs. simpl. by destruct (String.eqb_spec s ""). }
    pose proof (getSavedTheme_truthy_world w Ht) as Hw.
    destruct (getSavedTheme w) as [saved w'] eqn:E. simpl in *.
    by rewrite Ht, Hw.
Qed.

Lemma onSystemThemeChange_guard_witness :
  (getSavedTheme freshPage).1 = None ∧
  currentTheme (onSystemThemeChange false freshPage) = "dark" ∧
  (getSavedTheme darkSaved).1 = Some "dark" ∧
  onSystemThemeChange true darkSaved = darkSaved.
Proof.
  assert (Hn : (getSavedTheme freshPage).1 = None) by reflexivity.
  assert (Hs : (getSavedTheme darkSaved).1 = Some "dark") by reflexivity.
  split; [exact Hn|]. split; [|split; [exact Hs|]].
  - apply (proj1 (onSystemThemeChange_guard false freshPage)). by left.
  - apply (proj2 (onSystemThemeChange_guard true darkSaved) "dark");
      [exact Hs|discriminate].
Defined.

(** C5 as stated fails: with the empty string stored under the key a saved
    value exists, and the listener still switches the theme. *)
Lemma onSystemThemeChange_empty_saved_switches :
  items (storage emptySaved) !! storageKey = Some "" ∧
  currentTheme emptySaved = "dark" ∧
  currentTheme (onSystemThemeChange true emptySaved) = "light" ∧
  currentTheme (onSystemThemeChange true emptySaved) ≠ currentTheme emptySaved.
Proof. vm_compute. repeat split; discriminate. Qed.

Lemma setupThemeToggle_fields (w : World) :
  currentTheme (setupThemeToggle w) = currentTheme w ∧
  dataTheme (setupThemeToggle w) = dataTheme w ∧
  storage (setupThemeToggle w) = storage w.
Proof.
  unfold setupThemeToggle, setupSystemThemeListener.
  destruct (toggle w); [|done]. simpl. by destruct (matchMedia w).
Qed.

(** What construction does to the store and to the console: one write of
    the startup theme, and a warning for each of the read that throws, the
    write that throws and the missing toggle button. *)
Lemma construct_storage_and_warnings (w : World) :
  storage (construct w)
    = (if setThrows (storage w) then storage w
       else mkStorage (<[storageKey := currentTheme (construct w)]>
                         (items (storage w)))
              (getThrows (storage w)) false) ∧
  warnings (construct w)
    = (warnings w
       ++ (if getThrows (storage w)
           then ["Failed to read theme from localStorage:"] else [])
       ++ (if setThrows (storage w)
           then ["Failed to save theme to localStorage:"] else [])
       ++ (match toggle w with
           | Some _ => []
           | None => ["Theme toggle button not found in DOM"]
           end))%list.
Proof.
  unfold construct, init.
  set (w0 := set_listeners false false
               (set_transitionTimeout None (set_currentTheme "dark" w))).
  assert (Hc : currentTheme (setupThemeToggle (initializeTheme w0))
               = startupTheme w0).
  { destruct (setupThemeToggle_fields (initializeTheme w0)) as (-> & _).
    rewrite initializeTheme_unfold. by rewrite persistTheme_currentTheme. }
  rewrite Hc. rewrite initializeTheme_unfold.
  set (t := startupTheme w0).
  unfold setupThemeToggle, setupSystemThemeListener, persistTheme, setItem,
    applyThemeImmediate, getSavedTheme, getItem.
  change (storage w0) with (storage w).
  destruct (getThrows (storage w)) eqn:Eg, (setThrows (storage w)) eqn:Es;
    simpl; rewrite ?Es, ?Eg; simpl; destruct (toggle w) as [b|]; simpl;
    try (destruct (matchMedia w)); simpl; rewrite ?Es, ?Eg, ?app_nil_r;
    try done; split; try done; by rewrite <- ?app_assoc.
Qed.

(** C9 (amended): construction resolves a startup theme, "dark" or "light",
    makes it the current theme and the root's theme attribute, and always
    attempts to store it.  Whenever the store accepts the write, the theme
    is under the storage key after construction, whether or not anything was
    stored before.  When the write throws, construction still completes: the
    store is left exactly as it was, nothing is persisted, and the failure
    is reported as a warning. *)
Theorem construct_persists (w : World) :
  ∃ t, (t = "dark" ∨ t = "light") ∧
       currentTheme (construct w) = t ∧
       dataTheme (construct w) = Some t ∧
       (setThrows (storage w) = false →
        items (storage (construct w)) !! storageKey = Some t) ∧
       (setThrows (storage w) = true →
        storage (construct w) = storage w ∧
        warnings (construct w)
          = (warnings w
             ++ (if getThrows (storage w)
                 then ["Failed to read theme from localStorage:"] else [])
             ++ ["Failed to save theme to localStorage:"]
             ++ (match toggle w with
                 | Some _ => []
                 | None => ["Theme toggle button not found in DOM"]
                 end))%list).
Proof.
  destruct (construct_storage_and_warnings w) as [Hs Hw].
  unfold construct, init in *.
  set (w0 := set_listeners false false
               (set_transitionTimeout None (set_currentTheme "dark" w))) in *.
  destruct (setupThemeToggle_fields (initializeTheme w0)) as (Hc & Hd & Hst).
  exists (startupTheme w0). split; [apply startupTheme_supported|].
  split; [|split; [|split]].
  - rewrite Hc, initializeTheme_unfold. by rewrite persistTheme_currentTheme.
  - rewrite Hd, initializeTheme_unfold. by rewrite persistTheme_dataTheme.
  - intros Hok. rewrite Hst, initializeTheme_unfold.
    apply persistTheme_items. simpl.
    by destruct (getSavedTheme_world w0) as [-> _].
  - intros Hko. rewrite Hko in Hs, Hw. by split.
Qed.

Lemma construct_persists_witness :
  setThrows (storage freshPage) = false ∧
  (∃ t, currentTheme (construct freshPage) = t ∧
        items (storage (construct freshPage)) !! storageKey = Some t) ∧
  setThrows (storage writeRejected) = true ∧
  storage (construct writeRejected) = storage writeRejected ∧
  warnings (construct writeRejected)
    = ["Failed to save theme to localStorage:";
       "Theme toggle button not found in DOM"].
Proof.
  assert (H : setThrows (storage freshPage) = false) by reflexivity.
  assert (H' : setThrows (storage writeRejected) = true) by reflexivity.
  destruct (construct_persists freshPage) as (t & _ & Hc & _ & Hi & _).
  destruct (construct_persists writeRejected) as (t' & _ & _ & _ & _ & Hr).
  destruct (Hr H') as [Hs Hw].
  exact (conj H (conj (ex_intro _ t (conj Hc (Hi H))) (conj H' (conj Hs Hw)))).
Defined.

(** C9 as stated fails: when the store rejects writes, nothing is under the
    storage key after construction, although a startup theme was resolved. *)
Lemma construct_write_rejected_nothing_persisted :
  currentTheme (construct writeRejected) = "light" ∧
  items (storage (construct writeRejected)) !! storageKey = None ∧
  (getSavedTheme (construct writeRejected)).1 = None.
Proof. vm_compute. done. Qed.

(** After construction on a page with nothing stored, the store holds the
    startup theme, so the media-query listener finds a saved value and does
    not follow the OS although no user choice was ever made. *)
Lemma systemThemeChanged_after_construct :
  items (storage withToggle) !! storageKey = None ∧
  systemListener (construct withToggle) = true ∧
  currentTheme (construct withToggle) = "dark" ∧
  currentTheme (systemThemeChanged true (construct withToggle)) = "dark".
Proof. vm_compute. done. Qed.

End ThemeManagerFacts.

(** ** PortfolioApp *)

Module PortfolioAppFacts.
Import Js PortfolioApp.

(** C2 (amended): dataset loading is all-or-nothing.  The three datasets are
    fetched one after the other inside one [try]; when all three arrive each
    holds what was fetched, and when any one fails all three hold the empty
    well-typed structures, those already fetched included. *)
Theorem loadData_all_or_nothing (net : Network) (a : App) :
  data (loadData net a) =
    match net projectsUrl, net articlesUrl, net timelineUrl with
    | Body p, Body ar, Body t => mkData (Some p) (Some ar) (Some t)
    | _, _, _ => fallbackData
    end.
Proof.
  unfold loadData, fetchJson.
  destruct (net projectsUrl); simpl; try reflexivity.
  destruct (net articlesUrl); simpl; try reflexivity.
  destruct (net timelineUrl); simpl; reflexivity.
Qed.

(** C2 as stated fails: the projects fetch succeeds and the articles fetch
    fails, and [data.projects] ends as the empty fallback, not as the
    projects that were fetched. *)
Lemma loadData_articles_failure_drops_projects :
  articlesDown projectsUrl = Body someProjects ∧
  articlesDown articlesUrl = NetworkError ∧
  articles (data (loadData articlesDown newApp)) = Some emptyArticles ∧
  projects (data (loadData articlesDown newApp)) = Some emptyProjects ∧
  projects (data (loadData articlesDown newApp)) ≠ Some someProjects ∧
  requests (loadData articlesDown newApp) = [projectsUrl; articlesUrl].
Proof. vm_compute. repeat split; discriminate. Qed.

End PortfolioAppFacts.

(** ** LazyImageLoader *)

Module LazyImageLoaderFacts.
Import Js LazyImageLoader.

Lemma loadImage_fields (img : nat) (st : Loader) :
  images (loadImage img st) = images st ∧
  observeCalls (loadImage img st) = observeCalls st ∧
  observer (loadImage img st) = observer st ∧
  dom (loadImage img st) = dom st ∧
  resolvesEmptySrc (loadImage img st) = resolvesEmptySrc st ∧
  unobserveCalls (loadImage img st) = unobserveCalls st.
Proof. unfold loadImage. by destruct (_ && _). Qed.

Lemma updImg_getImg (img j : nat) (f : Img → Img) (st : Loader) :
  getImg (updImg img f st) j
  = if decide (img = j) then f (getImg st img) else getImg st j.
Proof.
  unfold getImg, updImg. simpl. rewrite lookup_insert.
  by destruct (decide (img = j)).
Qed.

Lemma getImg_dom (st st' : Loader) :
  dom st' = dom st → getImg st' = getImg st.
Proof. intros H. unfold getImg. by rewrite H. Qed.

(** An image not yet tracked: what [observeImage] does to the set, to the
    image, and to the calls of the observation primitive, and whether it
    returns. *)
Lemma observeImage_fresh (img : nat) (st : Loader) :
  img ∉ images st →
  (observeImage img st).1
    = (if placeholderThrows st img then Throw "InvalidCharacterError"
       else Return tt) ∧
  images (observeImage img st).2 = images st ∪ {[img]} ∧
  observeCalls (observeImage img st).2 =
    (if observer st && negb (placeholderThrows st img)
     then (observeCalls st ++ [img])%list else observeCalls st) ∧
  observer (observeImage img st).2 = observer st ∧
  resolvesEmptySrc (observeImage img st).2 = resolvesEmptySrc st ∧
  unobserveCalls (observeImage img st).2 = unobserveCalls st ∧
  getImg (observeImage img st).2 img
    = (if lacksSrc (resolvesEmptySrc st) (getImg st img)
          && encodable (getImg st img)
       then set_src (LoadingPlaceholder
                       (orDefault (widthAttr (getImg st img)) default300)
                       (orDefault (heightAttr (getImg st img)) default200))
              (addClass placeholderClass (getImg st img))
       else addClass placeholderClass (getImg st img)) ∧
  (∀ j, j ≠ img → getImg (observeImage img st).2 j = getImg st j) ∧
  loading (observeImage img st).2 =
    (loading st ++
     if observer st || placeholderThrows st img then []
     else if negb (truthy (dataSrc (getImg st img)))
             && negb (truthy (dataSrcset (getImg st img))) then []
     else [(img, dataSrc (getImg st img), dataSrcset (getImg st img))])%list.
Proof.
  intros Hn. unfold observeImage, placeholderThrows.
  rewrite bool_decide_eq_false_2 by done.
  set (i := getImg st img).
  set (st1 := updImg img (addClass placeholderClass)
                (set_images (images st ∪ {[img]}) st)).
  assert (H1 : getImg st1 img = addClass placeholderClass i).
  { unfold st1. rewrite updImg_getImg. by destruct (decide (img = img)). }
  assert (Ho1 : ∀ j, j ≠ img → getImg st1 j = getImg st j).
  { intros j Hj. unfold st1. rewrite updImg_getImg.
    by destruct (decide (img = j)). }
  change (resolvesEmptySrc st1) with (resolvesEmptySrc st).
  rewrite H1.
  change (lacksSrc (resolvesEmptySrc st) (addClass placeholderClass i))
    with (lacksSrc (resolvesEmptySrc st) i).
  unfold generatePlaceholder.
  change (encodable (addClass placeholderClass i)) with (encodable i).
  destruct (lacksSrc (resolvesEmptySrc st) i) eqn:El;
    [destruct (encodable i) eqn:Ee|]; simpl.
  - set (st2 := updImg img _ st1).
    assert (H2 : getImg st2 img
                 = set_src (LoadingPlaceholder
                              (orDefault (widthAttr i) default300)
                              (orDefault (heightAttr i) default200))
                     (addClass placeholderClass i)).
    { unfold st2. rewrite updImg_getImg. destruct (decide (img = img)); [|done].
      by rewrite H1. }
    assert (Ho2 : ∀ j, j ≠ img → getImg st2 j = getImg st j).
    { intros j Hj. unfold st2. rewrite updImg_getImg.
      destruct (decide (img = j)); [done|]. by apply Ho1. }
    change (observer st2) with (observer st).
    destruct (observer st) eqn:Eo; simpl.
    + rewrite app_nil_r. repeat split; try done.
    + destruct (loadImage_fields img st2) as (-> & -> & -> & Hd & -> & ->).
      rewrite (getImg_dom _ _ Hd). unfold loadImage. rewrite H2. simpl.
      change (observer st2) with (observer st). rewrite ?Eo.
      destruct (negb (truthy (dataSrc i)) && negb (truthy (dataSrcset i)));
        simpl; rewrite ?app_nil_r; repeat split; done.
  - rewrite andb_false_r, orb_true_r, app_nil_r. repeat split; done.
  - change (observer st1) with (observer st).
    destruct (observer st) eqn:Eo; simpl.
    + rewrite app_nil_r. repeat split; try done.
    + destruct (loadImage_fields img st1) as (-> & -> & -> & Hd & -> & ->).
      rewrite (getImg_dom _ _ Hd). unfold loadImage. rewrite H1. simpl.
      change (observer st1) with (observer st). rewrite ?Eo.
      destruct (negb (truthy (dataSrc i)) && negb (truthy (dataSrcset i)));
        simpl; rewrite ?app_nil_r; repeat split; done.
Qed.

Lemma observeImage_tracked (img : nat) (st : Loader) :
  img ∈ images st → observeImage img st = (Return tt, st).
Proof. intros H. unfold observeImage. by rewrite bool_decide_eq_true_2. Qed.

Lemma observeImage_tracks (img : nat) (st : Loader) :
  img ∈ images (observeImage img st).2.
Proof.
  destruct (decide (img ∈ images st)) as [H|H].
  - by rewrite observeImage_tracked.
  - destruct (observeImage_fresh img st H) as (_ & -> & _). set_solver.
Qed.

Lemma observations_snoc (img : nat) (l : list nat) :
  length (filter (λ x, x = img) (l ++ [img])%list) =
  S (length (filter (λ x, x = img) l)).
Proof.
  rewrite filter_app, length_app, filter_cons_True by done.
  simpl. lia.
Qed.

(** C7 (amended): [addImage] is idempotent.  Adding an image that is in the
    tracked set changes nothing and returns; every [addImage] leaves its
    image in the tracked set, whether it returns or throws, so a second
    [addImage] is such a no-op.  Over the two calls the observation primitive
    is engaged once for an image that was not tracked when there is an
    observer and the first call returns, and not at all otherwise.  The first
    call returns unless the image was not tracked and its placeholder is
    asked for and cannot be generated. *)
Theorem addImage_idempotent (img : nat) (st : Loader) :
  (img ∈ images st → addImage img st = (Return tt, st)) ∧
  img ∈ images (addImage img st).2 ∧
  addImage img (addImage img st).2 = (Return tt, (addImage img st).2) ∧
  observations img (addImage img (addImage img st).2).2 =
    observations img st +
    (if bool_decide (img ∈ images st) then 0
     else if observer st && negb (placeholderThrows st img) then 1 else 0) ∧
  ((addImage img st).1 = Return tt
   ↔ img ∈ images st ∨ placeholderThrows st img = false).
Proof.
  unfold addImage.
  pose proof (observeImage_tracks img st) as Ht.
  split; [apply observeImage_tracked|]. split; [exact Ht|].
  rewrite (observeImage_tracked img (observeImage img st).2) by exact Ht.
  split; [done|]. simpl. unfold observations.
  case_bool_decide as H.
  - rewrite observeImage_tracked by done. simpl. split; [lia|].
    split; [by left|done].
  - destruct (observeImage_fresh img st H) as (-> & _ & -> & _).
    split.
    + destruct (observer st && negb (placeholderThrows st img));
        [rewrite observations_snoc|]; lia.
    + destruct (placeholderThrows st img); split; try done.
      * by intros [?|?].
      * by right.
Qed.

Lemma addImage_idempotent_witness :
  0 ∈ images (addImage 0 oneImage).2 ∧
  addImage 0 (addImage 0 oneImage).2 = (Return tt, (addImage 0 oneImage).2) ∧
  (addImage 0 oneImage).1 = Return tt ∧
  observations 0 (addImage 0 (addImage 0 oneImage).2).2 = 1.
Proof.
  destruct (addImage_idempotent 0 oneImage) as (_ & Hin & _ & Hn & Hr).
  destruct (addImage_idempotent 0 (addImage 0 oneImage).2) as (Hsame & _).
  split; [exact Hin|]. split; [exact (Hsame Hin)|]. split.
  - apply Hr. by right.
  - exact Hn.
Defined.

(** C7 as stated fails: an image without src whose width is written in
    full-width digits is added to the tracked set, then [btoa] throws; the
    second [addImage] finds it tracked, and the observation primitive was
    engaged for it not once but never. *)
Lemma addImage_unencodable_never_observed :
  (addImage 1 fullWidthDigits).1 = Throw "InvalidCharacterError" ∧
  addImage 1 (addImage 1 fullWidthDigits).2
    = (Return tt, (addImage 1 fullWidthDigits).2) ∧
  observations 1 (addImage 1 (addImage 1 fullWidthDigits).2).2 = 0 ∧
  observations 1 (addImage 1 (addImage 1 fullWidthDigits).2).2 ≠ 1.
Proof. vm_compute. repeat split; discriminate. Qed.

End LazyImageLoaderFacts.

(** ** NavigationManager and the SkillsTimeline modal *)

Module NavigationFacts.
Import Js Navigation.

Lemma classesOf_insert (cls : gmap nat (gset string)) (e e' : nat)
    (c : gset string) :
  classesOf (<[e := c]> cls) e' = if decide (e = e') then c else classesOf cls e'.
Proof.
  unfold classesOf. rewrite lookup_insert. by destruct (decide (e = e')).
Qed.

Lemma markSection_other sid cls s (e : nat) :
  e ≠ navLink s → classesOf (markSection sid cls s) e = classesOf cls e.
Proof.
  intros Hne. unfold markSection, classList_add, classList_remove.
  destruct (String.eqb (id s) sid); rewrite classesOf_insert;
    by destruct (decide (navLink s = e)).
Qed.

Lemma markSection_link sid cls s :
  "active" ∈ classesOf (markSection sid cls s) (navLink s) ↔ id s = sid.
Proof.
  unfold markSection, classList_add, classList_remove.
  destruct (String.eqb_spec (id s) sid) as [E|E]; rewrite classesOf_insert;
    (destruct (decide (navLink s = navLink s)); [|done]).
  - split; [done|]. intros _. apply elem_of_union_r. by apply elem_of_singleton.
  - split; [|done]. intros Hin. apply elem_of_difference in Hin as [_ Hin].
    destruct Hin. by apply elem_of_singleton.
Qed.

(** Links that are not among the sections keep their classes. *)
Lemma foldl_markSection_other sid (l : list Section) cls (e : nat) :
  e ∉ (navLink <$> l) →
  classesOf (foldl (markSection sid) cls l) e = classesOf cls e.
Proof.
  revert cls. induction l as [|s l IH]; intros cls Hn; [done|].
  rewrite fmap_cons, not_elem_of_cons in Hn. destruct Hn as [Hne Hn].
  simpl. rewrite IH by done. by apply markSection_other.
Qed.

(** After the loop a tracked link is active exactly when its section is the
    requested one. *)
Lemma foldl_markSection_in sid (l : list Section) cls (s : Section) :
  NoDup (navLink <$> l) → s ∈ l →
  "active" ∈ classesOf (foldl (markSection sid) cls l) (navLink s)
  ↔ id s = sid.
Proof.
  revert cls. induction l as [|s' l IH]; intros cls Hnd Hin.
  - by apply elem_of_nil in Hin.
  - rewrite fmap_cons, NoDup_cons in Hnd. destruct Hnd as [Hfresh Hnd].
    apply elem_of_cons in Hin. destruct Hin as [-> | Hin]; simpl.
    + rewrite foldl_markSection_other by done. apply markSection_link.
    + by apply IH.
Qed.

Lemma filter_ext_elem {A} (P Q : A → Prop) `{!∀ x, Decision (P x)}
    `{!∀ x, Decision (Q x)} (l : list A) :
  (∀ x, x ∈ l → P x ↔ Q x) → filter P l = filter Q l.
Proof.
  induction l as [|a l IH]; intros Hall; [done|].
  assert (Ha : P a ↔ Q a) by (apply Hall; left).
  assert (Hl : filter P l = filter Q l)
    by (apply IH; intros x Hx; apply Hall; by right).
  destruct (decide (P a)).
  - rewrite !filter_cons_True by tauto. by rewrite Hl.
  - rewrite !filter_cons_False by tauto. done.
Qed.

Lemma filter_id_absent sid (l : list Section) :
  sid ∉ (id <$> l) → filter (λ s, id s = sid) l = [].
Proof.
  induction l as [|s l IH]; intros Hn; [done|].
  rewrite fmap_cons, not_elem_of_cons in Hn. destruct Hn as [Hne Hn].
  rewrite filter_cons_False by congruence. by apply IH.
Qed.

Lemma filter_id_unique sid (l : list Section) :
  NoDup (id <$> l) → sid ∈ id <$> l →
  length (filter (λ s, id s = sid) l) = 1.
Proof.
  induction l as [|s l IH]; intros Hnd Hin.
  - by apply elem_of_nil in Hin.
  - rewrite fmap_cons in Hnd, Hin. apply NoDup_cons in Hnd as [Hfresh Hnd].
    destruct (decide (id s = sid)) as [E|E].
    + rewrite filter_cons_True by done. subst sid.
      by rewrite filter_id_absent.
    + rewrite filter_cons_False by done. apply IH; [done|].
      apply elem_of_cons in Hin. by destruct Hin as [?|?].
Qed.

(** C4 (amended): a call with the current active section is a no-op.  A call
    with another id records it and leaves the active marker on exactly the
    tracked links whose section has that id: on exactly one link when the id
    names a known section (section ids being distinct), on none when it names
    no known section. *)
Theorem updateActiveSection_marks (sectionId : string) (p : Page) :
  NoDup (navLink <$> sections p) →
  (activeSection p = sectionId → updateActiveSection sectionId p = p) ∧
  (activeSection p ≠ sectionId →
   activeSection (updateActiveSection sectionId p) = sectionId ∧
   activeLinks (updateActiveSection sectionId p)
     = filter (λ s, id s = sectionId) (sections p) ∧
   (NoDup (id <$> sections p) → sectionId ∈ id <$> sections p →
    length (activeLinks (updateActiveSection sectionId p)) = 1) ∧
   (sectionId ∉ (id <$> sections p) →
    activeLinks (updateActiveSection sectionId p) = [])).
Proof.
  intros Hnd. unfold updateActiveSection. split.
  - intros ->. by rewrite String.eqb_refl.
  - intros Hne. destruct (String.eqb_spec (activeSection p) sectionId); [done|].
    assert (HA : activeLinks
                   (set_active sectionId
                      (foldl (markSection sectionId) (classes p) (sections p)) p)
                 = filter (λ s, id s = sectionId) (sections p)).
    { unfold activeLinks, isActive. simpl. apply filter_ext_elem.
      intros s Hs. rewrite bool_decide_eq_true.
      by apply foldl_markSection_in. }
    split; [done|]. split; [done|]. rewrite HA. split.
    + apply filter_id_unique.
    + apply filter_id_absent.
Qed.

Lemma updateActiveSection_marks_witness :
  NoDup (navLink <$> sections examplePage) ∧
  updateActiveSection "home" examplePage = examplePage ∧
  length (activeLinks (updateActiveSection "about" examplePage)) = 1.
Proof.
  assert (Hl : NoDup (navLink <$> sections examplePage)).
  { apply (NoDup_cons_2 1 [2]); [by intros ?%list_elem_of_singleton|].
    apply (NoDup_cons_2 2 []); [apply not_elem_of_nil|apply NoDup_nil_2]. }
  assert (Hi : NoDup (id <$> sections examplePage)).
  { apply (NoDup_cons_2 "home" ["about"]);
      [by intros ?%list_elem_of_singleton|].
    apply (NoDup_cons_2 "about" []); [apply not_elem_of_nil|apply NoDup_nil_2]. }
  destruct (updateActiveSection_marks "home" examplePage Hl) as [Hsame _].
  destruct (updateActiveSection_marks "about" examplePage Hl) as [_ Hother].
  split; [exact Hl|]. split.
  - apply Hsame. reflexivity.
  - apply Hother; [discriminate|exact Hi|].
    right. left.
Defined.

(** C4 as stated fails: an id that names no tracked section clears every
    link, so no link at all carries the active marker after the call. *)
Lemma updateActiveSection_unknown_id_clears_all :
  length (activeLinks examplePage) = 1 ∧
  ("skills" ∉ (id <$> sections examplePage)) ∧
  activeLinks (updateActiveSection "skills" examplePage) = [] ∧
  length (activeLinks (updateActiveSection "skills" examplePage)) ≠ 1.
Proof.
  split; [by vm_compute|]. split.
  - vm_compute. intros H. repeat (apply elem_of_cons in H as [H|H]; [discriminate|]).
    by apply elem_of_nil in H.
  - split; [by vm_compute|]. vm_compute. discriminate.
Qed.

(** [smoothScrollToSection] scrolls or does nothing, whether it returns
    or throws. *)
Lemma smoothScrollToSection_cases (h : option string) (p : Page) :
  (smoothScrollToSection h p).2 = p ∨
  ∃ top, (smoothScrollToSection h p).2 = scrollTo top p.
Proof.
  unfold smoothScrollToSection. destruct h as [h|]; [|by left].
  destruct (_ || _); [by left|]. unfold querySelector.
  case_bool_decide; [by left|].
  destruct (selectors p !! h) as [[el top]|]; [|by left].
  destruct (headerHeight p) as [height|]; [|by left].
  right. by eexists.
Qed.

Lemma smoothScrollToSection_fields (h : option string) (p : Page) :
  bodyOverflow (smoothScrollToSection h p).2 = bodyOverflow p ∧
  modal (smoothScrollToSection h p).2 = modal p ∧
  bodyChildren (smoothScrollToSection h p).2 = bodyChildren p ∧
  mobileMenuOpen (smoothScrollToSection h p).2 = mobileMenuOpen p.
Proof.
  by destruct (smoothScrollToSection_cases h p) as [->|[top ->]].
Qed.

Lemma createTimelineModal_detailed (x : Experience) (p : Page) :
  detailed x = true →
  (createTimelineModal x p).1 = Return tt ∧
  bodyOverflow (createTimelineModal x p).2 = "hidden" ∧
  modal (createTimelineModal x p).2 = Some (nextNode p) ∧
  nextNode (createTimelineModal x p).2 = S (nextNode p) ∧
  bodyChildren (createTimelineModal x p).2
    = (bodyChildren (closeModal p) ++ [nextNode p])%list.
Proof.
  unfold detailed, createTimelineModal, closeModal.
  destruct (achievements x), (technologies x); try done.
  intros _. by destruct (modal p).
Qed.

Lemma createTimelineModal_undetailed (x : Experience) (p : Page) :
  detailed x = false →
  (createTimelineModal x p).1 = Throw "TypeError" ∧
  bodyOverflow (createTimelineModal x p).2 = bodyOverflow (closeModal p) ∧
  modal (createTimelineModal x p).2 = None ∧
  nextNode (createTimelineModal x p).2 = S (nextNode p) ∧
  bodyChildren (createTimelineModal x p).2 = bodyChildren (closeModal p).
Proof.
  unfold detailed, createTimelineModal, closeModal.
  destruct (achievements x), (technologies x); try done;
    intros _; by destruct (modal p) eqn:E.
Qed.

(** C10: [closeMobileMenu] sets the body's overflow style to the empty
    string whatever it was and whoever set it, and leaves the timeline modal
    alone.  [createTimelineModal] opens the modal and locks the scroll for
    an experience it can fill the modal in for, and whenever it leaves a
    modal open the scroll is locked.  So once a modal has locked the scroll,
    every event whose listener calls [closeMobileMenu] releases the lock
    while the modal stays open. *)
Theorem closeMobileMenu_releases_scroll_lock (e : UiEvent) (x : Experience)
    (p : Page) :
  (bodyOverflow (closeMobileMenu p) = "" ∧
   modal (closeMobileMenu p) = modal p ∧
   bodyChildren (closeMobileMenu p) = bodyChildren p) ∧
  ((detailed x = true →
    bodyOverflow (createTimelineModal x p).2 = "hidden" ∧
    is_Some (modal (createTimelineModal x p).2)) ∧
   (is_Some (modal (createTimelineModal x p).2) →
    bodyOverflow (createTimelineModal x p).2 = "hidden")) ∧
  (closeTrigger e p = true →
   bodyOverflow (handle e p) = "" ∧
   modal (handle e p) = modal p ∧
   bodyChildren (handle e p) = bodyChildren p ∧
   mobileMenuOpen (handle e p) = false).
Proof.
  split; [done|]. split.
  - destruct (detailed x) eqn:Ed.
    + destruct (createTimelineModal_detailed x p Ed) as (_ & -> & -> & _).
      split; [|done]. intros _. split; [done|by eexists].
    + destruct (createTimelineModal_undetailed x p Ed) as (_ & _ & -> & _).
      split; [done|]. by intros [? ?].
  - destruct e as [|inside|key|tag h|width]; simpl; intros Hg.
    + unfold toggleMobileMenu. by rewrite Hg.
    + by rewrite Hg.
    + by rewrite Hg.
    + rewrite Hg.
      by destruct (smoothScrollToSection_fields h (closeMobileMenu p))
        as (-> & -> & -> & ->).
    + by rewrite Hg.
Qed.

Lemma closeMobileMenu_releases_scroll_lock_witness :
  closeTrigger (Keydown "Escape") menuAndModal = true ∧
  bodyOverflow menuAndModal = "hidden" ∧
  bodyOverflow (handle (Keydown "Escape") menuAndModal) = "" ∧
  modal (handle (Keydown "Escape") menuAndModal) = modal menuAndModal ∧
  is_Some (modal menuAndModal).
Proof.
  set (p := menuAndModal).
  assert (Hg : closeTrigger (Keydown "Escape") p = true) by reflexivity.
  destruct (closeMobileMenu_releases_scroll_lock (Keydown "Escape") exp1 p)
    as (_ & _ & H).
  destruct (H Hg) as (Ho & Hm & _).
  split; [exact Hg|]. split; [reflexivity|]. split; [exact Ho|].
  split; [exact Hm|]. by eexists.
Defined.

(** A click on a timeline details button while the mobile menu is open: the
    timeline's listener opens the modal, then the document's outside-click
    listener closes the menu; the modal is open and the page scrolls. *)
Lemma details_click_with_menu_open :
  is_Some (modal (handle (DocumentClick false)
                    (showTimelineDetails "exp1"
                       (openMobileMenu examplePage)).2)) ∧
  bodyOverflow (handle (DocumentClick false)
                  (showTimelineDetails "exp1"
                     (openMobileMenu examplePage)).2) = "".
Proof. split; [by eexists|reflexivity]. Qed.

(** A navigation-link click needs no open menu to reach [closeMobileMenu]. *)
Lemma nav_link_click_with_modal_open :
  mobileMenuOpen (showTimelineDetails "exp1" examplePage).2 = false ∧
  bodyOverflow (showTimelineDetails "exp1" examplePage).2 = "hidden" ∧
  bodyOverflow (handle (NavLinksClick "A" (Some "#about"))
                  (showTimelineDetails "exp1" examplePage).2) = "" ∧
  is_Some (modal (handle (NavLinksClick "A" (Some "#about"))
                    (showTimelineDetails "exp1" examplePage).2)).
Proof. repeat split; try reflexivity. by eexists. Qed.

End NavigationFacts.

(** ** ThemeManager: sessions, timers, the toggle button, listeners *)

Module ThemeManagerMore.
Import Js ThemeManager ThemeManagerState ThemeManagerFacts.

#[local] Set Warnings "-clear-no-such-hyp".

Lemma valid_not_empty (t : string) :
  t = "dark" ∨ t = "light" → String.eqb t "" = false.
Proof. by intros [-> | ->]. Qed.

Lemma getSavedTheme_readable (w : World) :
  getThrows (storage w) = false →
  getSavedTheme w = (items (storage w) !! storageKey, w).
Proof. intros H. unfold getSavedTheme, getItem. by rewrite H. Qed.

Lemma startupTheme_saved (t : string) (w : World) :
  t = "dark" ∨ t = "light" →
  getThrows (storage w) = false →
  items (storage w) !! storageKey = Some t →
  startupTheme w = t.
Proof.
  intros Ht Hg Hi. unfold startupTheme.
  rewrite getSavedTheme_readable by done. simpl. rewrite Hi.
  rewrite valid_not_empty by done.
  by rewrite (proj2 (includes_supported t) Ht).
Qed.

Lemma construct_unfold (w : World) :
  construct w = setupThemeToggle (initializeTheme (constructStart w)).
Proof. reflexivity. Qed.

Lemma construct_startup (w : World) :
  currentTheme (construct w) = startupTheme (constructStart w) ∧
  dataTheme (construct w) = Some (startupTheme (constructStart w)).
Proof.
  rewrite construct_unfold.
  destruct (setupThemeToggle_fields (initializeTheme (constructStart w)))
    as (-> & -> & _).
  rewrite initializeTheme_unfold.
  by rewrite persistTheme_currentTheme, persistTheme_dataTheme.
Qed.

(** X1: a valid theme that is readable under the storage key is the theme a
    new manager starts with, whatever the OS prefers. *)
Theorem construct_restores_saved (t : string) (w : World) :
  t = "dark" ∨ t = "light" →
  getThrows (storage w) = false →
  items (storage w) !! storageKey = Some t →
  currentTheme (construct w) = t ∧ dataTheme (construct w) = Some t.
Proof.
  intros Ht Hg Hi. destruct (construct_startup w) as [-> ->].
  by rewrite (startupTheme_saved t (constructStart w)).
Qed.

Lemma construct_restores_saved_witness :
  ("dark" = "dark" ∨ "dark" = "light") ∧
  getThrows (storage darkSaved) = false ∧
  items (storage darkSaved) !! storageKey = Some "dark" ∧
  currentTheme (construct darkSaved) = "dark".
Proof.
  assert (Ht : "dark" = "dark" ∨ "dark" = "light") by (by left).
  assert (Hg : getThrows (storage darkSaved) = false) by reflexivity.
  assert (Hi : items (storage darkSaved) !! storageKey = Some "dark")
    by reflexivity.
  exact (conj Ht (conj Hg (conj Hi
           (proj1 (construct_restores_saved "dark" darkSaved Ht Hg Hi))))).
Defined.

Lemma setTheme_valid_storage (t : string) (w : World) :
  t = "dark" ∨ t = "light" →
  storage (setTheme t w) = storage (persistTheme t w).
Proof.
  intros Ht. rewrite setTheme_valid_unfold by done.
  unfold dispatchThemeChangeEvent, persistTheme, setItem.
  destruct (applyThemeWithTransition_fields t (set_currentTheme t w))
    as (_ & _ & _ & A4 & _).
  destruct (updateToggleIfPresent_fields
              (applyThemeWithTransition t (set_currentTheme t w)))
    as (_ & _ & _ & U4 & _).
  rewrite U4, A4. simpl.
  destruct (setThrows (storage w)); simpl; by rewrite ?U4, ?A4.
Qed.

(** X2: a theme chosen with [setTheme] survives into the next session: on
    any page that shares the store (reads and writes working), a new manager
    starts with the theme that was set. *)
Theorem setTheme_then_new_session (t : string) (w w' : World) :
  t = "dark" ∨ t = "light" →
  getThrows (storage w) = false →
  setThrows (storage w) = false →
  storage w' = storage (setTheme t w) →
  currentTheme (construct w') = t ∧ dataTheme (construct w') = Some t.
Proof.
  intros Ht Hg Hs Hw.
  assert (Hst : storage w' = storage (persistTheme t w))
    by (by rewrite Hw, setTheme_valid_storage).
  destruct (construct_startup w') as [-> ->].
  assert (E : startupTheme (constructStart w') = t).
  { apply startupTheme_saved; [done| |]; simpl; rewrite Hst.
    - unfold persistTheme, setItem. by rewrite Hs.
    - by apply persistTheme_items. }
  by rewrite E.
Qed.

Lemma setTheme_then_new_session_witness :
  currentTheme (construct (set_storage (storage (setTheme "light" freshPage))
                             (blankPage (Some false) ∅))) = "light".
Proof.
  apply (setTheme_then_new_session "light" freshPage
           (set_storage (storage (setTheme "light" freshPage))
              (blankPage (Some false) ∅)));
    [by right|reflexivity|reflexivity|reflexivity].
Defined.

(** The remaining fields after a valid [setTheme]. *)
Lemma setTheme_valid_page (t : string) (w : World) :
  t = "dark" ∨ t = "light" →
  transitionTimeout (setTheme t w) = Some (nextTimer w) ∧
  pendingTimers (setTheme t w) =
    match transitionTimeout w with
    | Some id => pendingTimers w ∖ {[id]}
    | None => pendingTimers w
    end ∪ {[nextTimer w]} ∧
  bodyClasses (setTheme t w) = bodyClasses w ∪ {["theme-transitioning"]} ∧
  toggle (setTheme t w) =
    (updateToggleButton (set_currentTheme t w)) <$> toggle w ∧
  matchMedia (setTheme t w) = matchMedia w ∧
  clickListener (setTheme t w) = clickListener w ∧
  systemListener (setTheme t w) = systemListener w.
Proof.
  intros Ht. rewrite setTheme_valid_unfold by done.
  unfold dispatchThemeChangeEvent, persistTheme, setItem,
    updateToggleIfPresent, applyThemeWithTransition, setTimeout, clearTimeout,
    updateToggleButton.
  destruct w as [cur tt dt bc tg st mm nw pt nt ds wn cl sl].
  destruct tt, tg; simpl; destruct (setThrows st); simpl; done.
Qed.

Lemma setTheme_valid_nextTimer (t : string) (w : World) :
  t = "dark" ∨ t = "light" → nextTimer (setTheme t w) = S (nextTimer w).
Proof.
  intros Ht. rewrite setTheme_valid_unfold by done.
  unfold dispatchThemeChangeEvent, persistTheme, setItem,
    updateToggleIfPresent, applyThemeWithTransition, setTimeout, clearTimeout.
  destruct w as [cur tt dt bc tg st mm nw pt nt ds wn cl sl].
  destruct tt, tg; simpl; destruct (setThrows st); simpl; done.
Qed.

Lemma updateToggleButton_offers (w : World) (b : Button) :
  buttonOffers (currentTheme w) (updateToggleButton w b).
Proof.
  unfold buttonOffers, updateToggleButton, classList_toggle. simpl.
  destruct (String.eqb_spec (currentTheme w) "dark") as [E|E]; simpl;
    repeat split; try done; set_unfold; intuition congruence.
Qed.

(** What [initializeTheme] leaves alone. *)
Lemma initializeTheme_frame (w : World) :
  toggle (initializeTheme w) = toggle w ∧
  matchMedia (initializeTheme w) = matchMedia w ∧
  dispatched (initializeTheme w) = dispatched w ∧
  bodyClasses (initializeTheme w) = bodyClasses w ∧
  pendingTimers (initializeTheme w) = pendingTimers w ∧
  transitionTimeout (initializeTheme w) = transitionTimeout w ∧
  clickListener (initializeTheme w) = clickListener w ∧
  systemListener (initializeTheme w) = systemListener w.
Proof.
  rewrite initializeTheme_unfold.
  unfold persistTheme, setItem, getSavedTheme, getItem.
  destruct (getThrows (storage w)); simpl;
    destruct (setThrows (storage w)); simpl; done.
Qed.

(** X3: on a page with the toggle button, after a valid [setTheme], after
    [toggleTheme] and after construction the button offers the switch away
    from the current theme: sun and "Switch to light mode" in dark, moon and
    "Switch to dark mode" otherwise, with exactly the matching state class. *)
Theorem toggle_button_in_sync (t : string) (w : World) (b : Button) :
  toggle w = Some b →
  (t = "dark" ∨ t = "light" →
   ∃ b', toggle (setTheme t w) = Some b' ∧ buttonOffers t b') ∧
  (∃ b', toggle (toggleTheme w) = Some b' ∧
         buttonOffers (currentTheme (toggleTheme w)) b') ∧
  (∃ b', toggle (construct w) = Some b' ∧
         buttonOffers (currentTheme (construct w)) b').
Proof.
  intros Hb.
  assert (Hset : ∀ t', t' = "dark" ∨ t' = "light" →
            ∃ b', toggle (setTheme t' w) = Some b' ∧ buttonOffers t' b').
  { intros t' Ht'. destruct (setTheme_valid_page t' w Ht') as (_ & _ & _ & -> & _).
    rewrite Hb. simpl. eexists. split; [done|].
    apply (updateToggleButton_offers (set_currentTheme t' w)). }
  split; [apply Hset|]. split.
  - unfold toggleTheme.
    set (t' := if String.eqb (currentTheme w) "dark" then "light" else "dark").
    assert (Ht' : t' = "dark" ∨ t' = "light")
      by (unfold t'; destruct (String.eqb _ _); auto).
    rewrite (setTheme_valid_currentTheme t' w Ht'). by apply Hset.
  - rewrite construct_unfold. unfold setupThemeToggle.
    set (w1 := initializeTheme (constructStart w)).
    assert (Ht1 : toggle w1 = Some b).
    { unfold w1.
      by destruct (initializeTheme_frame (constructStart w)) as (-> & _). }
    rewrite Ht1. unfold setupSystemThemeListener. simpl.
    destruct (matchMedia w1); simpl; (eexists; split; [done|]);
      apply (updateToggleButton_offers w1).
Qed.

Lemma toggle_button_in_sync_witness :
  toggle withToggle = Some (mkButton Moon "" "" ∅) ∧
  ∃ b', toggle (setTheme "light" withToggle) = Some b' ∧
        innerHTML b' = Moon ∧ title b' = "Switch to dark mode".
Proof.
  assert (Hb : toggle withToggle = Some (mkButton Moon "" "" ∅))
    by reflexivity.
  destruct (toggle_button_in_sync "light" withToggle _ Hb) as (H & _).
  destruct (H (or_intror eq_refl)) as (b' & Hb' & Hi & Ht & _).
  exact (conj Hb (ex_intro _ b' (conj Hb' (conj Hi Ht)))).
Defined.

Lemma transitionTimeoutFired_page (id : nat) (w : World) :
  id ∈ pendingTimers w →
  pendingTimers (transitionTimeoutFired id w) = pendingTimers w ∖ {[id]} ∧
  bodyClasses (transitionTimeoutFired id w)
    = bodyClasses w ∖ {["theme-transitioning"]} ∧
  transitionTimeout (transitionTimeoutFired id w) = None ∧
  currentTheme (transitionTimeoutFired id w) = currentTheme w ∧
  dataTheme (transitionTimeoutFired id w) = dataTheme w.
Proof.
  intros Hin. unfold transitionTimeoutFired.
  by rewrite bool_decide_eq_true_2.
Qed.

(** X4: a valid [setTheme] puts the transition class on the body and leaves
    one timer behind; when that timer fires the class is gone and no timer is
    remembered, while the theme stays applied.  A timer that was replaced in
    the meantime does nothing when its time comes. *)
Theorem transition_class_lifecycle (t t' : string) (w : World) :
  t = "dark" ∨ t = "light" → t' = "dark" ∨ t' = "light" →
  transitionTimeout (setTheme t w) = Some (nextTimer w) ∧
  nextTimer w ∈ pendingTimers (setTheme t w) ∧
  "theme-transitioning" ∈ bodyClasses (setTheme t w) ∧
  ("theme-transitioning"
     ∉ bodyClasses (transitionTimeoutFired (nextTimer w) (setTheme t w))) ∧
  transitionTimeout (transitionTimeoutFired (nextTimer w) (setTheme t w))
    = None ∧
  currentTheme (transitionTimeoutFired (nextTimer w) (setTheme t w)) = t ∧
  dataTheme (transitionTimeoutFired (nextTimer w) (setTheme t w)) = Some t ∧
  transitionTimeoutFired (nextTimer w) (setTheme t' (setTheme t w))
    = setTheme t' (setTheme t w).
Proof.
  intros Ht Ht'. set (w1 := setTheme t w). set (id := nextTimer w).
  destruct (setTheme_valid_page t w Ht) as (T1 & T2 & T3 & _).
  fold w1 in T1, T2, T3. fold id in T1, T2.
  assert (Hin : id ∈ pendingTimers w1)
    by (rewrite T2; apply elem_of_union_r; by apply elem_of_singleton).
  destruct (transitionTimeoutFired_page id w1 Hin) as (_ & F2 & F3 & F4 & F5).
  split; [done|]. split; [done|].
  split; [rewrite T3; apply elem_of_union_r; by apply elem_of_singleton|].
  split.
  { rewrite F2. intros [_ Hc]%elem_of_difference. apply Hc.
    by apply elem_of_singleton. }
  split; [done|].
  split; [rewrite F4; by apply setTheme_valid_currentTheme|].
  split; [rewrite F5; by apply setTheme_valid_dataTheme|].
  destruct (setTheme_valid_page t' w1 Ht') as (_ & P2 & _).
  unfold transitionTimeoutFired. rewrite bool_decide_eq_false_2; [done|].
  rewrite P2, T1.
  assert (Hn : nextTimer w1 = S id) by (by apply setTheme_valid_nextTimer).
  rewrite Hn. intros [H|H]%elem_of_union.
  - apply elem_of_difference in H as [_ H]. apply H. by apply elem_of_singleton.
  - apply elem_of_singleton in H. lia.
Qed.

Lemma transition_class_lifecycle_witness :
  "theme-transitioning" ∈ bodyClasses (setTheme "light" freshPage) ∧
  "theme-transitioning"
    ∉ bodyClasses (transitionTimeoutFired (nextTimer freshPage)
                     (setTheme "light" freshPage)).
Proof.
  destruct (transition_class_lifecycle "light" "dark" freshPage
              (or_intror eq_refl) (or_introl eq_refl))
    as (_ & _ & H3 & H4 & _).
  exact (conj H3 H4).
Defined.

Lemma setupThemeToggle_frame (w : World) :
  dispatched (setupThemeToggle w) = dispatched w ∧
  bodyClasses (setupThemeToggle w) = bodyClasses w ∧
  pendingTimers (setupThemeToggle w) = pendingTimers w ∧
  transitionTimeout (setupThemeToggle w) = transitionTimeout w.
Proof.
  unfold setupThemeToggle, setupSystemThemeListener.
  destruct (toggle w); [|done]. simpl. by destruct (matchMedia w).
Qed.

Lemma setTheme_cases (s : string) (w : World) :
  (s = "dark" ∨ s = "light") ∨ (∃ msg, setTheme s w = warn msg w).
Proof.
  destruct (includes supportedThemes s) eqn:E.
  - left. by apply includes_supported.
  - right. unfold setTheme. rewrite E. by eexists.
Qed.

Lemma singleTimer_setTheme (s : string) (w : World) :
  singleTimer w → singleTimer (setTheme s w).
Proof.
  intros Hw. destruct (setTheme_cases s w) as [Hs | [msg ->]]; [|exact Hw].
  unfold singleTimer in *.
  destruct (setTheme_valid_page s w Hs) as (-> & -> & _).
  destruct (transitionTimeout w) as [old|]; rewrite Hw; apply set_eq;
    intros x; set_unfold; naive_solver.
Qed.

Lemma singleTimer_updateToggle (w : World) :
  singleTimer w → singleTimer (updateToggleIfPresent w).
Proof. unfold singleTimer, updateToggleIfPresent. by destruct (toggle w). Qed.

Lemma singleTimer_getSaved (w : World) :
  singleTimer w → singleTimer (getSavedTheme w).2.
Proof.
  unfold singleTimer, getSavedTheme, getItem.
  by destruct (getThrows (storage w)).
Qed.

(** X5: the manager never has more than one transition timer outstanding.
    If the timers outstanding are exactly the remembered one (or none), they
    still are after [setTheme] with any argument, [toggleTheme], a click on
    the toggle button, an OS preference change, the firing of any timer and
    [cleanup]; after [cleanup] none is outstanding; and a manager constructed
    on a page without timers starts that way. *)
Theorem singleTimer_invariant (s : string) (id : nat) (b : bool) (w : World) :
  (pendingTimers w = ∅ → singleTimer (construct w)) ∧
  (singleTimer w →
   singleTimer (setTheme s w) ∧
   singleTimer (toggleTheme w) ∧
   singleTimer (onToggleClick w) ∧
   singleTimer (onSystemThemeChange b w) ∧
   singleTimer (transitionTimeoutFired id w) ∧
   singleTimer (cleanup w) ∧
   pendingTimers (cleanup w) = ∅).
Proof.
  split.
  - intros He. unfold singleTimer. rewrite construct_unfold.
    destruct (setupThemeToggle_frame (initializeTheme (constructStart w)))
      as (_ & _ & -> & ->).
    by destruct (initializeTheme_frame (constructStart w))
      as (_ & _ & _ & _ & -> & -> & _).
  - intros Hw. split; [by apply singleTimer_setTheme|].
    split; [by apply singleTimer_setTheme|].
    split; [by apply singleTimer_updateToggle, singleTimer_setTheme|].
    split.
    { unfold onSystemThemeChange.
      pose proof (singleTimer_getSaved w Hw) as Hg.
      destruct (getSavedTheme w) as [saved w'] eqn:E. simpl in Hg.
      destruct (truthy saved); simpl; [done|].
      by apply singleTimer_updateToggle, singleTimer_setTheme. }
    split.
    { unfold transitionTimeoutFired. case_bool_decide as Hin; [|done].
      unfold singleTimer in *. simpl.
      destruct (transitionTimeout w) as [old|]; rewrite Hw in Hin |- *;
        apply set_eq; intros x; set_unfold; naive_solver. }
    unfold singleTimer, cleanup in *.
    destruct (transitionTimeout w) as [old|] eqn:E; simpl; rewrite ?E, Hw;
      [|done].
    split; apply set_eq; intros x; set_unfold; naive_solver.
Qed.

Lemma singleTimer_invariant_witness :
  pendingTimers freshPage = ∅ ∧
  singleTimer (construct freshPage) ∧
  singleTimer (setTheme "light" (construct freshPage)).
Proof.
  assert (He : pendingTimers freshPage = ∅) by reflexivity.
  pose proof (proj1 (singleTimer_invariant "" 0 true freshPage) He) as Hc.
  destruct (proj2 (singleTimer_invariant "light" 0 true (construct freshPage)) Hc)
    as (Hs & _).
  exact (conj He (conj Hc Hs)).
Defined.

(** X6: construction registers the click listener exactly when the page has
    the toggle button, and the OS-preference listener exactly when it has the
    button and the media-query API: without the button, changes of the OS
    preference are never listened to. *)
Theorem listeners_registered (w : World) :
  clickListener (construct w)
    = match toggle w with Some _ => true | None => false end ∧
  systemListener (construct w)
    = match toggle w, matchMedia w with
      | Some _, Some _ => true
      | _, _ => false
      end.
Proof.
  rewrite construct_unfold.
  destruct (initializeTheme_frame (constructStart w))
    as (Ht & Hm & _ & _ & _ & _ & Hc & Hs).
  unfold setupThemeToggle, setupSystemThemeListener.
  rewrite Ht. simpl. destruct (toggle w) as [b|]; simpl.
  - rewrite Hm. simpl. by destruct (matchMedia w).
  - by rewrite Hc, Hs.
Qed.

Lemma construct_storage (w : World) :
  getThrows (storage (construct w)) = getThrows (storage w) ∧
  (setThrows (storage w) = false →
   items (storage (construct w)) !! storageKey
     = Some (startupTheme (constructStart w))).
Proof.
  rewrite construct_unfold.
  destruct (setupThemeToggle_fields (initializeTheme (constructStart w)))
    as (_ & _ & ->).
  rewrite initializeTheme_unfold. split.
  - unfold persistTheme, setItem, getSavedTheme, getItem. simpl.
    destruct (getThrows (storage w)) eqn:Eg; simpl;
      destruct (setThrows (storage w)); simpl; by rewrite ?Eg.
  - intros Hs. apply persistTheme_items. simpl.
    by destruct (getSavedTheme_world (constructStart w)) as [-> _].
Qed.

(** X7: once a manager has been constructed on a page whose store works, a
    change of the OS preference changes nothing at all: construction itself
    stored the startup theme, so the listener always finds a saved value. *)
Theorem system_change_ignored_after_construct (b : bool) (w : World) :
  getThrows (storage w) = false →
  setThrows (storage w) = false →
  systemThemeChanged b (construct w) = construct w.
Proof.
  intros Hg Hs. unfold systemThemeChanged.
  destruct (systemListener (construct w)); [|done].
  destruct (construct_storage w) as [Hg' Hi]. specialize (Hi Hs).
  unfold onSystemThemeChange.
  rewrite getSavedTheme_readable by (by rewrite Hg').
  rewrite Hi. simpl.
  by rewrite (valid_not_empty _ (startupTheme_supported (constructStart w))).
Qed.

Lemma system_change_ignored_after_construct_witness :
  getThrows (storage withToggle) = false ∧
  setThrows (storage withToggle) = false ∧
  systemListener (construct withToggle) = true ∧
  systemThemeChanged true (construct withToggle) = construct withToggle.
Proof.
  assert (Hg : getThrows (storage withToggle) = false) by reflexivity.
  assert (Hs : setThrows (storage withToggle) = false) by reflexivity.
  split; [exact Hg|]. split; [exact Hs|]. split; [reflexivity|].
  exact (system_change_ignored_after_construct true withToggle Hg Hs).
Defined.

(** X8: construction applies the startup theme quietly: no [themeChanged]
    event is dispatched, the body does not get the transition class and no
    timer is started or remembered. *)
Theorem construct_quiet (w : World) :
  dispatched (construct w) = dispatched w ∧
  bodyClasses (construct w) = bodyClasses w ∧
  pendingTimers (construct w) = pendingTimers w ∧
  transitionTimeout (construct w) = None.
Proof.
  rewrite construct_unfold.
  destruct (setupThemeToggle_frame (initializeTheme (constructStart w)))
    as (-> & -> & -> & ->).
  by destruct (initializeTheme_frame (constructStart w))
    as (_ & _ & -> & -> & -> & -> & _).
Qed.

(** X9: [toggleTheme] always changes the current theme and always lands on a
    supported one: on "light" from "dark", on "dark" from anything else, an
    unsupported current value included. *)
Theorem toggleTheme_changes (w : World) :
  currentTheme (toggleTheme w)
    = (if String.eqb (currentTheme w) "dark" then "light" else "dark") ∧
  currentTheme (toggleTheme w) ≠ currentTheme w ∧
  dataTheme (toggleTheme w) = Some (currentTheme (toggleTheme w)).
Proof.
  unfold toggleTheme.
  set (t := if String.eqb (currentTheme w) "dark" then "light" else "dark").
  assert (Ht : t = "dark" ∨ t = "light")
    by (unfold t; destruct (String.eqb _ _); auto).
  rewrite (setTheme_valid_currentTheme t w Ht), (setTheme_valid_dataTheme t w Ht).
  split; [done|]. split; [|done]. unfold t.
  destruct (String.eqb_spec (currentTheme w) "dark") as [E|E]; congruence.
Qed.

End ThemeManagerMore.

(** ** LazyImageLoader: batches, intersections, load completion *)

Module LazyImageLoaderMore.
Import Js LazyImageLoader LazyImageLoaderInit LazyImageLoaderFacts.

#[local] Set Warnings "-clear-no-such-hyp".

Lemma loadImage_page (img : nat) (st : Loader) :
  images (loadImage img st) = images st ∧
  observeCalls (loadImage img st) = observeCalls st ∧
  unobserveCalls (loadImage img st) = unobserveCalls st ∧
  observer (loadImage img st) = observer st ∧
  dom (loadImage img st) = dom st ∧
  loading (loadImage img st) =
    (loading st ++ if deferred st img then [preload st img] else [])%list.
Proof.
  unfold loadImage, deferred, preload.
  destruct (truthy (dataSrc (getImg st img))),
    (truthy (dataSrcset (getImg st img))); simpl;
    rewrite ?app_nil_r; done.
Qed.

Lemma placeholderThrows_ext (st st' : Loader) (k : nat) :
  getImg st' k = getImg st k → resolvesEmptySrc st' = resolvesEmptySrc st →
  placeholderThrows st' k = placeholderThrows st k.
Proof. intros H1 H2. unfold placeholderThrows. by rewrite H1, H2. Qed.

(** One [observeImage], tracked image or not. *)
Lemma observeImage_step (img j : nat) (st : Loader) :
  images (observeImage j st).2 = images st ∪ {[j]} ∧
  observer (observeImage j st).2 = observer st ∧
  (∀ k, k ≠ j →
     placeholderThrows (observeImage j st).2 k = placeholderThrows st k) ∧
  observations img (observeImage j st).2 =
    observations img st +
    (if bool_decide (j ∈ images st) then 0
     else if bool_decide (j = img) && observer st
             && negb (placeholderThrows st j) then 1 else 0) ∧
  (observable st j → (observeImage j st).1 = Return tt) ∧
  (¬ observable st j →
   (observeImage j st).1 = Throw "InvalidCharacterError") ∧
  (observer st = true → loading (observeImage j st).2 = loading st).
Proof.
  destruct (decide (j ∈ images st)) as [Hin|Hin].
  - rewrite observeImage_tracked by done. simpl.
    rewrite (bool_decide_eq_true_2 _ Hin).
    repeat split; try done; try lia.
    + apply set_eq. intros x. set_unfold. naive_solver.
    + intros H. destruct H. by left.
  - destruct (observeImage_fresh j st Hin)
      as (-> & -> & Ho & -> & Hr & _ & _ & Hoth & Hl).
    rewrite (bool_decide_eq_false_2 _ Hin).
    split; [done|]. split; [done|]. split.
    { intros k Hk. apply placeholderThrows_ext; [by apply Hoth|done]. }
    split.
    { unfold observations. rewrite Ho.
      destruct (observer st); simpl;
        [|rewrite andb_false_r; simpl; lia].
      destruct (placeholderThrows st j); simpl;
        [rewrite andb_false_r; simpl; lia|].
      rewrite andb_true_r, filter_app, length_app.
      case_bool_decide as E; simpl.
      - subst. rewrite filter_cons_True by done. simpl. lia.
      - rewrite filter_cons_False by done. simpl. lia. }
    split.
    { intros [H|H]; [done|]. by rewrite H. }
    split.
    { intros H. destruct (placeholderThrows st j) eqn:E; [done|].
      destruct H. by right. }
    intros Hob. rewrite Hl, Hob. simpl. by rewrite app_nil_r.
Qed.

Lemma observable_step (j k : nat) (st : Loader) :
  observable st k → observable (observeImage j st).2 k.
Proof.
  destruct (observeImage_step 0 j st) as (Hi & _ & Hp & _).
  intros [H|H].
  - left. rewrite Hi. set_unfold. by left.
  - destruct (decide (k = j)) as [->|Hne].
    + left. rewrite Hi. set_unfold. by right.
    + right. by rewrite Hp.
Qed.

Lemma unobservable_step (j k : nat) (st : Loader) :
  k ≠ j → ¬ observable st k → ¬ observable (observeImage j st).2 k.
Proof.
  destruct (observeImage_step 0 j st) as (Hi & _ & Hp & _).
  intros Hne Hk [H|H]; apply Hk.
  - left. rewrite Hi in H. set_unfold. naive_solver.
  - right. by rewrite <- Hp.
Qed.

Lemma forEach_cons (f : nat → Loader → completion unit * Loader) (j : nat)
    (l : list nat) (st : Loader) :
  (f j st).1 = Return tt → forEach f (j :: l) st = forEach f l (f j st).2.
Proof.
  intros H. simpl. destruct (f j st) as [[[]|m] st']; [done|discriminate].
Qed.

Lemma forEach_throws (f : nat → Loader → completion unit * Loader) (j : nat)
    (l : list nat) (st : Loader) (m : string) :
  (f j st).1 = Throw m → forEach f (j :: l) st = (Throw m, (f j st).2).
Proof.
  intros H. simpl. destruct (f j st) as [[[]|m'] st']; [discriminate|].
  simpl in H. by inversion H.
Qed.

(** A batch none of whose images makes [observeImage] throw. *)
Lemma addImages_observable (imgs : list nat) (img : nat) (st : Loader) :
  (∀ j, j ∈ imgs → observable st j) →
  (addImages imgs st).1 = Return tt ∧
  images (addImages imgs st).2 = images st ∪ list_to_set imgs ∧
  observer (addImages imgs st).2 = observer st ∧
  observations img (addImages imgs st).2 =
    observations img st +
    (if bool_decide (img ∈ images st) then 0
     else if bool_decide (img ∈ imgs) && observer st then 1 else 0) ∧
  (observer st = true → loading (addImages imgs st).2 = loading st) ∧
  (∀ k, observable st k → observable (addImages imgs st).2 k) ∧
  (∀ k, k ∉ imgs → ¬ observable st k → ¬ observable (addImages imgs st).2 k).
Proof.
  revert st. induction imgs as [|j l IH]; intros st Hall.
  - simpl. repeat split; try done.
    + apply set_eq. intros x. set_unfold. naive_solver.
    + destruct (bool_decide _); lia.
  - assert (Hj : observable st j) by (apply Hall; left).
    destruct (observeImage_step img j st) as (Hi & Hob & _ & Hn & Hr & _ & Hl).
    unfold addImages, addImage in *.
    rewrite forEach_cons by (by apply Hr).
    destruct (IH (observeImage j st).2) as (-> & -> & -> & -> & Hl' & Ho' & Hu').
    { intros k Hk. apply observable_step, Hall. by right. }
    rewrite Hi, Hob, Hn. split; [done|]. split.
    { apply set_eq. intros x. set_unfold. naive_solver. }
    split; [done|]. split.
    { destruct (decide (img ∈ images st)) as [Him|Him].
      - rewrite (bool_decide_eq_true_2 (img ∈ images st)) by done.
        rewrite (bool_decide_eq_true_2 (img ∈ images st ∪ {[j]}))
          by (set_unfold; naive_solver).
        destruct (decide (j ∈ images st)) as [Hjm|Hjm].
        + rewrite (bool_decide_eq_true_2 (j ∈ images st)) by done. lia.
        + rewrite (bool_decide_eq_false_2 (j ∈ images st)) by done.
          rewrite (bool_decide_eq_false_2 (j = img)) by congruence.
          simpl. lia.
      - rewrite (bool_decide_eq_false_2 (img ∈ images st)) by done.
        destruct (decide (j = img)) as [->|Hne].
        + rewrite (bool_decide_eq_false_2 (img ∈ images st)) by done.
          rewrite (bool_decide_eq_true_2 (img = img)) by done.
          rewrite (bool_decide_eq_true_2 (img ∈ images st ∪ {[img]}))
            by (set_unfold; naive_solver).
          rewrite (bool_decide_eq_true_2 (img ∈ img :: l)) by left.
          destruct Hj as [Hj|Hj]; [done|]. rewrite Hj. simpl.
          rewrite andb_true_r. lia.
        + rewrite (bool_decide_eq_false_2 (j = img)) by done.
          rewrite (bool_decide_eq_false_2 (img ∈ images st ∪ {[j]}))
            by (set_unfold; naive_solver).
          assert (Hl2 : bool_decide (img ∈ j :: l) = bool_decide (img ∈ l)).
          { apply bool_decide_ext. rewrite elem_of_cons. naive_solver. }
          rewrite Hl2. simpl. destruct (bool_decide (j ∈ images st)); lia. }
    split.
    { intros Hob1. rewrite Hl' by (by rewrite Hob). by apply Hl. }
    split.
    { intros k Hk. by apply Ho', observable_step. }
    intros k Hk Hnk. apply Hu'.
    + intros H. apply Hk. by right.
    + apply unobservable_step; [|done]. intros ->. apply Hk. left.
Qed.

(** A batch whose first image that makes [observeImage] throw is [x]. *)
Lemma addImages_first_throw (pre post : list nat) (x img : nat)
    (st : Loader) :
  (∀ j, j ∈ pre → observable st j) → ¬ observable st x →
  (addImages (pre ++ x :: post) st).1 = Throw "InvalidCharacterError" ∧
  images (addImages (pre ++ x :: post) st).2
    = images st ∪ list_to_set pre ∪ {[x]} ∧
  observations img (addImages (pre ++ x :: post) st).2 =
    observations img st +
    (if bool_decide (img ∈ images st) then 0
     else if bool_decide (img ∈ pre) && observer st then 1 else 0).
Proof.
  intros Hpre Hx.
  assert (Hxp : x ∉ pre) by (intros H; by apply Hx, Hpre).
  destruct (addImages_observable pre img st Hpre)
    as (Hr & Hi & Hob & Hn & _ & _ & Hu).
  specialize (Hu x Hxp Hx).
  assert (E : addImages (pre ++ x :: post) st
              = addImages (x :: post) (addImages pre st).2).
  { clear -Hpre. revert st Hpre. induction pre as [|j l IH]; intros st Hpre.
    - done.
    - unfold addImages in *. simpl app.
      assert (Hj : (addImage j st).1 = Return tt).
      { destruct (observeImage_step 0 j st) as (_ & _ & _ & _ & H & _).
        apply H, Hpre. left. }
      rewrite (forEach_cons addImage j (l ++ x :: post) st Hj),
        (forEach_cons addImage j l st Hj). apply IH.
      intros k Hk. apply observable_step, Hpre. by right. }
  rewrite E. set (st' := (addImages pre st).2) in *.
  destruct (observeImage_step img x st') as (Hi' & _ & _ & Hn' & _ & Ht & _).
  change (addImages (x :: post) st')
    with (forEach observeImage (x :: post) st').
  rewrite (forEach_throws observeImage x post st' _ (Ht Hu)). simpl.
  rewrite Hi', Hn', Hi, Hn. split; [done|]. split; [done|].
  assert (Hxi : x ∉ images st ∪ list_to_set pre).
  { rewrite <- Hi. intros H. apply Hu. by left. }
  rewrite (bool_decide_eq_false_2 _ Hxi).
  assert (Hthrow : placeholderThrows st' x = true).
  { destruct (placeholderThrows st' x) eqn:Ep; [done|].
    destruct Hu. by right. }
  rewrite Hthrow, andb_false_r. simpl. lia.
Qed.

(** Either every image of a list has a decidable property, or there is a
    first one that has not. *)
Lemma first_failure (P : nat → Prop) (l : list nat) :
  (∀ j, P j ∨ ¬ P j) →
  (∀ j, j ∈ l → P j) ∨
  ∃ pre x post, l = (pre ++ x :: post)%list ∧ (∀ j, j ∈ pre → P j) ∧ ¬ P x.
Proof.
  intros Hdec. induction l as [|a l IH].
  - left. intros j Hj. by apply elem_of_nil in Hj.
  - destruct (Hdec a) as [Ha|Ha].
    + destruct IH as [IH|(pre & x & post & -> & Hpre & Hx)].
      * left. intros j [->|Hj]%elem_of_cons; [done|by apply IH].
      * right. exists (a :: pre), x, post. split; [done|]. split; [|done].
        intros j [->|Hj]%elem_of_cons; [done|by apply Hpre].
    + right. exists [], a, l. split; [done|]. split; [|done].
      intros j Hj. by apply elem_of_nil in Hj.
Qed.

Lemma observable_dec (st : Loader) (j : nat) :
  observable st j ∨ ¬ observable st j.
Proof.
  unfold observable. destruct (decide (j ∈ images st)) as [H|H]; [by left; left|].
  destruct (placeholderThrows st j); [|by left; right].
  right. by intros [?|?].
Qed.

(** X10: [addImages] and [observeImages] run [observeImage] over the batch
    in order and stop at the first image for which it throws.  When it
    throws for none, every image of the batch ends up tracked and the
    observation primitive is engaged at most once per image, however often
    the image occurs in the batch: once for an image that was not tracked
    (when there is an observer), never for one that was.  When it throws for
    [x] first, the batch is abandoned there: the images before [x] are
    treated as said, [x] is tracked but not observed, and the images after
    [x] are neither.  In no case is an image observed twice. *)
Theorem addImages_each_once (imgs : list nat) (img : nat) (st : Loader) :
  observeImages imgs st = addImages imgs st ∧
  ((∀ j, j ∈ imgs → observable st j) →
   (addImages imgs st).1 = Return tt ∧
   images (addImages imgs st).2 = images st ∪ list_to_set imgs ∧
   observations img (addImages imgs st).2 =
     observations img st +
     (if bool_decide (img ∈ images st) then 0
      else if bool_decide (img ∈ imgs) && observer st then 1 else 0)) ∧
  (∀ pre x post,
     imgs = (pre ++ x :: post)%list →
     (∀ j, j ∈ pre → observable st j) → ¬ observable st x →
     (addImages imgs st).1 = Throw "InvalidCharacterError" ∧
     images (addImages imgs st).2 = images st ∪ list_to_set pre ∪ {[x]} ∧
     observations img (addImages imgs st).2 =
       observations img st +
       (if bool_decide (img ∈ images st) then 0
        else if bool_decide (img ∈ pre) && observer st then 1 else 0)) ∧
  (observations img (addImages imgs st).2
   ≤ observations img st + (if bool_decide (img ∈ images st) then 0 else 1))%nat.
Proof.
  split; [reflexivity|]. split.
  { intros Hall.
    by destruct (addImages_observable imgs img st Hall) as (? & ? & _ & ? & _). }
  split.
  { intros pre x post -> Hpre Hx. by apply addImages_first_throw. }
  destruct (first_failure (observable st) imgs (observable_dec st))
    as [Hall|(pre & x & post & -> & Hpre & Hx)].
  - destruct (addImages_observable imgs img st Hall) as (_ & _ & _ & -> & _).
    destruct (bool_decide (img ∈ images st)); [lia|].
    destruct (_ && _); lia.
  - destruct (addImages_first_throw pre post x img st Hpre Hx) as (_ & _ & ->).
    destruct (bool_decide (img ∈ images st)); [lia|].
    destruct (_ && _); lia.
Qed.

Lemma addImages_each_once_witness :
  (∀ j, j ∈ [0] → observable (newLoader true twoImages) j) ∧
  (addImages [0; 1; 0] (newLoader true twoImages)).1
    = Throw "InvalidCharacterError" ∧
  images (addImages [0; 1; 0] (newLoader true twoImages)).2
    = images (newLoader true twoImages) ∪ list_to_set [0] ∪ {[1]}.
Proof.
  assert (H0 : ∀ j, j ∈ [0] → observable (newLoader true twoImages) j).
  { intros j ->%list_elem_of_singleton. by right. }
  assert (H1 : ¬ observable (newLoader true twoImages) 1).
  { intros [H|H]; [by apply not_elem_of_empty in H|discriminate]. }
  destruct (addImages_each_once [0; 1; 0] 0 (newLoader true twoImages))
    as (_ & _ & H & _).
  destruct (H [0] 1 [0] eq_refl H0 H1) as (Ht & Hi & _).
  exact (conj H0 (conj Ht Hi)).
Defined.

Lemma intersecting_cons (img : nat) (b : bool) (es : list (nat * bool)) :
  intersecting ((img, b) :: es)
  = if b then img :: intersecting es else intersecting es.
Proof.
  unfold intersecting. destruct b.
  - by rewrite filter_cons_True.
  - by rewrite filter_cons_False.
Qed.

Lemma preloads_dom (st st' : Loader) (l : list nat) :
  dom st' = dom st → preloads st' l = preloads st l.
Proof.
  intros H. unfold preloads, preload, deferred, getImg. by rewrite H.
Qed.

Lemma preloads_nil (st : Loader) : preloads st [] = [].
Proof. reflexivity. Qed.

Lemma preloads_cons (st : Loader) (img : nat) (l : list nat) :
  preloads st (img :: l)
  = ((if deferred st img then [preload st img] else []) ++ preloads st l)%list.
Proof.
  unfold preloads. destruct (deferred st img) eqn:E.
  - by rewrite filter_cons_True.
  - rewrite filter_cons_False; [done|]. by rewrite E.
Qed.

Lemma handleEntry_page (st : Loader) (img : nat) (b : bool) :
  images (handleEntry st (img, b))
    = (if b then images st ∖ {[img]} else images st) ∧
  unobserveCalls (handleEntry st (img, b))
    = (unobserveCalls st ++ if b then [img] else [])%list ∧
  loading (handleEntry st (img, b))
    = (loading st ++ if b then preloads st [img] else [])%list ∧
  observeCalls (handleEntry st (img, b)) = observeCalls st ∧
  dom (handleEntry st (img, b)) = dom st.
Proof.
  destruct b; simpl; [|by rewrite !app_nil_r].
  destruct (loadImage_page img st) as (-> & -> & -> & _ & -> & ->).
  by rewrite preloads_cons, preloads_nil, app_nil_r.
Qed.

(** X11: a batch of intersection entries removes exactly the intersecting
    targets from the tracked set, stops observing each of them, and starts a
    preload for those that have a deferred source; entries that do not
    intersect change nothing, and no image of the document is touched until
    a preload completes. *)
Theorem handleIntersection_batch (entries : list (nat * bool)) (st : Loader) :
  images (handleIntersection entries st)
    = images st ∖ list_to_set (intersecting entries) ∧
  unobserveCalls (handleIntersection entries st)
    = (unobserveCalls st ++ intersecting entries)%list ∧
  loading (handleIntersection entries st)
    = (loading st ++ preloads st (intersecting entries))%list ∧
  observeCalls (handleIntersection entries st) = observeCalls st ∧
  dom (handleIntersection entries st) = dom st.
Proof.
  revert st. induction entries as [|[img b] es IH]; intros st.
  - change (handleIntersection [] st) with st.
    unfold intersecting, preloads. rewrite !filter_nil. simpl.
    rewrite !app_nil_r. repeat split. apply set_eq. intros x. set_unfold.
    naive_solver.
  - change (handleIntersection ((img, b) :: es) st)
      with (handleIntersection es (handleEntry st (img, b))).
    destruct (IH (handleEntry st (img, b))) as (-> & -> & -> & -> & ->).
    destruct (handleEntry_page st img b) as (-> & -> & -> & -> & Hd).
    rewrite (preloads_dom st _ _ Hd), Hd, intersecting_cons.
    destruct b.
    + rewrite <- !app_assoc. repeat split; try done.
      * apply set_eq. intros x. set_unfold. naive_solver.
      * f_equal. rewrite !preloads_cons, preloads_nil.
        by rewrite app_nil_r.
    + rewrite !app_nil_r. done.
Qed.

Lemma truthy_None_after (v : option string) :
  truthy (if truthy v then None else v) = false.
Proof. by destruct (truthy v) eqn:E. Qed.

(** X12: completion of a preload.  On success the image gets the loaded
    class in place of the placeholder class, its deferred source becomes its
    source and the deferred attributes that were used are removed, so the
    image has nothing left to load: a later [loadImage] does nothing.  On
    failure it gets the error class in place of the placeholder class and
    keeps its deferred attributes; its source becomes the generated error
    graphic when that can be encoded, and otherwise the handler throws and
    the source stays what it was.  Other images are not touched either
    way. *)
Theorem preload_completion (img : nat) (st : Loader) :
  (loadedClass ∈ classList (getImg (loadedImage img st) img) ∧
   (placeholderClass ∉ classList (getImg (loadedImage img st) img)) ∧
   src (getImg (loadedImage img st) img)
     = (if truthy (dataSrc (getImg st img))
        then Url <$> dataSrc (getImg st img) else src (getImg st img)) ∧
   srcset (getImg (loadedImage img st) img)
     = (if truthy (dataSrcset (getImg st img))
        then dataSrcset (getImg st img) else srcset (getImg st img)) ∧
   deferred (loadedImage img st) img = false ∧
   loadImage img (loadedImage img st) = loadedImage img st) ∧
  (errorClass ∈ classList (getImg (onerror img st).2 img) ∧
   (placeholderClass ∉ classList (getImg (onerror img st).2 img)) ∧
   (onerror img st).1
     = (if encodable (getImg st img) then Return tt
        else Throw "InvalidCharacterError") ∧
   src (getImg (onerror img st).2 img)
     = (if encodable (getImg st img)
        then Some (ErrorPlaceholder
                     (orDefault (widthAttr (getImg st img)) default300)
                     (orDefault (heightAttr (getImg st img)) default200))
        else src (getImg st img)) ∧
   dataSrc (getImg (onerror img st).2 img) = dataSrc (getImg st img) ∧
   dataSrcset (getImg (onerror img st).2 img) = dataSrcset (getImg st img)) ∧
  (∀ j, j ≠ img →
        getImg (loadedImage img st) j = getImg st j ∧
        getImg (onerror img st).2 j = getImg st j).
Proof.
  set (i := getImg st img). set (ok := loadedImage img st).
  assert (Hok : getImg ok img
                = addClass loadedClass
                    (removeClass placeholderClass
                       (applyImageData (dataSrc i) (dataSrcset i) i))).
  { unfold ok, loadedImage, onload. rewrite updImg_getImg.
    by destruct (decide (img = img)). }
  set (st1 := updImg img (λ i, addClass errorClass
                                 (removeClass placeholderClass i)) st).
  assert (H1 : getImg st1 img
               = addClass errorClass (removeClass placeholderClass i)).
  { unfold st1. rewrite updImg_getImg. by destruct (decide (img = img)). }
  assert (Hko : (onerror img st).1
                = (if encodable i then Return tt
                   else Throw "InvalidCharacterError") ∧
                getImg (onerror img st).2 img
                = (if encodable i
                   then set_src (ErrorPlaceholder
                                   (orDefault (widthAttr i) default300)
                                   (orDefault (heightAttr i) default200))
                          (addClass errorClass
                             (removeClass placeholderClass i))
                   else addClass errorClass
                          (removeClass placeholderClass i)) ∧
                ∀ j, j ≠ img → getImg (onerror img st).2 j = getImg st j).
  { unfold onerror. fold st1. rewrite H1. unfold handleImageError.
    change (encodable (addClass errorClass (removeClass placeholderClass i)))
      with (encodable i).
    destruct (encodable i); simpl.
    - split; [done|]. rewrite updImg_getImg.
      destruct (decide (img = img)); [|done]. split; [done|].
      intros j Hj. unfold st1. rewrite !updImg_getImg.
      by destruct (decide (img = j)).
    - split; [done|]. split; [done|].
      intros j Hj. unfold st1. rewrite !updImg_getImg.
      by destruct (decide (img = j)). }
  destruct Hko as (K1 & K2 & K3).
  assert (Hdef : deferred ok img = false).
  { unfold deferred. rewrite Hok. unfold applyImageData. simpl.
    destruct (truthy (dataSrc i)) eqn:E1, (truthy (dataSrcset i)) eqn:E2;
      simpl; by rewrite ?E1, ?E2. }
  split; [|split].
  - rewrite Hok. unfold applyImageData. split.
    { simpl. set_unfold. naive_solver. }
    split.
    { simpl. unfold loadedClass, placeholderClass. set_unfold.
      intros [[_ H]|H]; [by apply H|discriminate]. }
    split.
    { destruct (truthy (dataSrc i)), (truthy (dataSrcset i)); done. }
    split.
    { destruct (truthy (dataSrc i)), (truthy (dataSrcset i)); done. }
    split; [done|].
    unfold loadImage. unfold deferred in Hdef.
    apply orb_false_iff in Hdef as [-> ->]. done.
  - rewrite K1, K2. split.
    { destruct (encodable i); simpl; set_unfold; naive_solver. }
    split.
    { unfold errorClass, placeholderClass.
      destruct (encodable i); simpl; set_unfold;
        (intros [[_ H]|H]; [by apply H|discriminate]). }
    split; [done|]. by destruct (encodable i).
  - intros j Hj. split; [|by apply K3].
    unfold ok, loadedImage, onload. rewrite !updImg_getImg.
    by destruct (decide (img = j)).
Qed.

Lemma preload_completion_witness :
  0 ≠ 1 ∧
  (onerror 1 (newLoader true twoImages)).1 = Throw "InvalidCharacterError" ∧
  src (getImg (onerror 0 (newLoader true twoImages)).2 0)
    = Some (ErrorPlaceholder default300 default200) ∧
  getImg (onerror 1 (newLoader true twoImages)).2 0
    = getImg (newLoader true twoImages) 0.
Proof.
  assert (H : 0 ≠ 1) by discriminate.
  destruct (preload_completion 1 (newLoader true twoImages))
    as (_ & (_ & _ & Ht & _) & Hf).
  destruct (preload_completion 0 (newLoader true twoImages))
    as (_ & (_ & _ & _ & Hs & _) & _).
  exact (conj H (conj Ht (conj Hs (proj2 (Hf 0 H))))).
Defined.

(** X13: a first [observeImage] of an image puts it into the tracked set
    and gives it the placeholder class.  The loading graphic (drawn with its
    width and height attributes, 300 by 200 by default) is generated only
    for an image without src: one that has no src attribute, or an empty
    one in a document that does not resolve it.  When the graphic cannot be
    encoded the call throws there: the image is left tracked, with the
    class, its source unchanged, and is neither observed nor loaded.
    Otherwise the call returns, the image is observed once or, without an
    observer, its preload starts at once.  The deferred attributes stay and
    other images are not touched. *)
Theorem observeImage_first (img : nat) (st : Loader) :
  img ∉ images st →
  img ∈ images (observeImage img st).2 ∧
  placeholderClass ∈ classList (getImg (observeImage img st).2 img) ∧
  (lacksSrc (resolvesEmptySrc st) (getImg st img) = true
   ↔ src (getImg st img) = None
     ∨ (src (getImg st img) = Some (Url "")
        ∧ resolvesEmptySrc st = false)) ∧
  (observeImage img st).1
    = (if placeholderThrows st img then Throw "InvalidCharacterError"
       else Return tt) ∧
  src (getImg (observeImage img st).2 img)
    = (if lacksSrc (resolvesEmptySrc st) (getImg st img)
          && encodable (getImg st img)
       then Some (LoadingPlaceholder
                    (orDefault (widthAttr (getImg st img)) default300)
                    (orDefault (heightAttr (getImg st img)) default200))
       else src (getImg st img)) ∧
  dataSrc (getImg (observeImage img st).2 img) = dataSrc (getImg st img) ∧
  dataSrcset (getImg (observeImage img st).2 img)
    = dataSrcset (getImg st img) ∧
  (∀ j, j ≠ img → getImg (observeImage img st).2 j = getImg st j) ∧
  observations img (observeImage img st).2
    = observations img st
      + (if observer st && negb (placeholderThrows st img) then 1 else 0) ∧
  loading (observeImage img st).2
    = (loading st ++
       if observer st || placeholderThrows st img then []
       else if deferred st img then [preload st img] else [])%list.
Proof.
  intros Hn.
  destruct (observeImage_fresh img st Hn)
    as (H1 & H2 & H3 & _ & _ & _ & H7 & H8 & H9).
  set (i := getImg st img) in *.
  set (g := lacksSrc (resolvesEmptySrc st) i && encodable i) in *.
  split; [rewrite H2; set_unfold; by right|].
  split.
  { rewrite H7.
    destruct g; simpl; by apply elem_of_union_r, elem_of_singleton. }
  split.
  { unfold lacksSrc. destruct (src i) as [[u| |]|]; simpl.
    - destruct (String.eqb_spec u ""), (resolvesEmptySrc st); simpl;
        split; try done; try (intros [?|[? ?]]; congruence).
      intros _. right. by subst.
    - split; [done|]. intros [?|[? ?]]; congruence.
    - split; [done|]. intros [?|[? ?]]; congruence.
    - split; [|done]. by left. }
  split; [done|]. rewrite H7.
  split; [by destruct g|]. split; [by destruct g|].
  split; [by destruct g|]. split; [done|]. split.
  { unfold observations. rewrite H3.
    destruct (observer st && negb (placeholderThrows st img));
      [rewrite observations_snoc|]; lia. }
  rewrite H9. unfold deferred, preload. fold i.
  destruct (observer st || placeholderThrows st img); [done|].
  by destruct (truthy (dataSrc i)), (truthy (dataSrcset i)).
Qed.

Lemma observeImage_first_witness :
  (1 ∉ images (newLoader true twoImages)) ∧
  (observeImage 1 (newLoader true twoImages)).1
    = Throw "InvalidCharacterError" ∧
  (0 ∉ images (newLoader false twoImages)) ∧
  src (getImg (observeImage 0 (newLoader false twoImages)).2 0)
    = Some (LoadingPlaceholder default300 default200).
Proof.
  assert (H1 : 1 ∉ images (newLoader true twoImages))
    by apply not_elem_of_empty.
  assert (H0 : 0 ∉ images (newLoader false twoImages))
    by apply not_elem_of_empty.
  destruct (observeImage_first 1 (newLoader true twoImages) H1)
    as (_ & _ & _ & Ht & _).
  destruct (observeImage_first 0 (newLoader false twoImages) H0)
    as (_ & _ & _ & _ & Hs & _).
  exact (conj H1 (conj Ht (conj H0 Hs))).
Defined.

Lemma loadAllImages_page (l : list nat) (st : Loader) :
  images (loadAllImages l st) = images st ∧
  observeCalls (loadAllImages l st) = observeCalls st ∧
  observer (loadAllImages l st) = observer st ∧
  dom (loadAllImages l st) = dom st ∧
  loading (loadAllImages l st) = (loading st ++ preloads st l)%list.
Proof.
  revert st. induction l as [|j l IH]; intros st.
  - change (loadAllImages [] st) with st.
    by rewrite preloads_nil, app_nil_r.
  - change (loadAllImages (j :: l) st)
      with (loadAllImages l (loadImage j st)).
    destruct (IH (loadImage j st)) as (-> & -> & -> & -> & ->).
    destruct (loadImage_page j st) as (-> & -> & _ & -> & Hd & ->).
    rewrite (preloads_dom st _ _ Hd), Hd, preloads_cons, <- app_assoc.
    done.
Qed.

(** X14: the two modes of the constructor.  With the intersection observer
    available the lazy images of the document are tracked and observed one
    after the other.  When the placeholder of none of them fails, the
    constructor returns, every lazy image is tracked and observed exactly
    once and nothing is preloaded yet; when the placeholder of one of them
    fails, the constructor throws.  Without the observer the constructor
    always returns, no image is tracked or observed and no placeholder is
    applied: the images of the document are left as they are and the
    preload of every lazy image with a deferred source starts
    immediately. *)
Theorem construct_modes (resolves : bool) (lazyImages : list nat)
    (img : nat) (d : gmap nat Img) :
  ((∀ j, j ∈ lazyImages → placeholderThrows (newLoader resolves d) j = false) →
   (construct true resolves lazyImages d).1 = Return tt ∧
   observer (construct true resolves lazyImages d).2 = true ∧
   images (construct true resolves lazyImages d).2
     = list_to_set lazyImages ∧
   observations img (construct true resolves lazyImages d).2
     = (if bool_decide (img ∈ lazyImages) then 1 else 0) ∧
   loading (construct true resolves lazyImages d).2 = []) ∧
  ((∃ j, j ∈ lazyImages ∧ placeholderThrows (newLoader resolves d) j = true) →
   (construct true resolves lazyImages d).1
     = Throw "InvalidCharacterError") ∧
  ((construct false resolves lazyImages d).1 = Return tt ∧
   observer (construct false resolves lazyImages d).2 = false ∧
   images (construct false resolves lazyImages d).2 = ∅ ∧
   observeCalls (construct false resolves lazyImages d).2 = [] ∧
   dom (construct false resolves lazyImages d).2 = d ∧
   loading (construct false resolves lazyImages d).2
     = preloads (newLoader resolves d) lazyImages).
Proof.
  set (st0 := mkLoader true ∅ d [] [] [] resolves).
  assert (E : construct true resolves lazyImages d = addImages lazyImages st0)
    by reflexivity.
  assert (Hp : ∀ j, placeholderThrows st0 j
                    = placeholderThrows (newLoader resolves d) j)
    by reflexivity.
  split; [|split].
  - intros Hall. rewrite E.
    destruct (addImages_observable lazyImages img st0)
      as (-> & -> & -> & -> & Hl & _).
    { intros j Hj. right. rewrite Hp. by apply Hall. }
    rewrite Hl by done. simpl. repeat split.
    + apply set_eq. intros x. set_unfold. naive_solver.
    + rewrite (bool_decide_eq_false_2 (img ∈ (∅ : gset nat)))
        by apply not_elem_of_empty.
      rewrite andb_true_r. by destruct (bool_decide _).
  - intros (j & Hj & Ht). rewrite E.
    destruct (first_failure (observable st0) lazyImages (observable_dec st0))
      as [Hall|(pre & x & post & -> & Hpre & Hx)].
    + destruct (Hall j Hj) as [H|H].
      * by apply not_elem_of_empty in H.
      * rewrite Hp in H. congruence.
    + by destruct (addImages_first_throw pre post x img st0 Hpre Hx) as (-> & _).
  - unfold construct, init. simpl.
    by destruct (loadAllImages_page lazyImages (newLoader resolves d))
      as (-> & -> & -> & -> & ->).
Qed.

Lemma construct_modes_witness :
  (∀ j, j ∈ [0] → placeholderThrows (newLoader true twoImages) j = false) ∧
  images (construct true true [0] twoImages).2 = list_to_set [0] ∧
  (∃ j, j ∈ [0; 1] ∧ placeholderThrows (newLoader true twoImages) j = true) ∧
  (construct true true [0; 1] twoImages).1 = Throw "InvalidCharacterError".
Proof.
  assert (H0 : ∀ j, j ∈ [0] →
                    placeholderThrows (newLoader true twoImages) j = false)
    by (by intros j ->%list_elem_of_singleton).
  assert (H1 : ∃ j, j ∈ [0; 1] ∧
                    placeholderThrows (newLoader true twoImages) j = true).
  { exists 1. split; [|done]. right. left. }
  destruct (construct_modes true [0] 0 twoImages) as (Ha & _).
  destruct (construct_modes true [0; 1] 0 twoImages) as (_ & Hb & _).
  destruct (Ha H0) as (_ & _ & Hi & _).
  exact (conj H0 (conj Hi (conj H1 (Hb H1)))).
Defined.

End LazyImageLoaderMore.

(** ** NavigationManager and SkillsTimeline: sections, menu, modal *)

Module NavigationMore.
Import Js Navigation NavigationState NavigationFacts.

#[local] Set Warnings "-clear-no-such-hyp".

(** The entry [collectSections] builds from an anchor whose target
    exists. *)
Lemma tracked_entries (p : Page) (l : list Anchor) (s : Section) :
  s ∈ omap (λ a, match selectors p !! href a with
                 | Some (el, _) =>
                     Some (mkSection (substring1 (href a)) el (link a))
                 | None => None
                 end) l ↔
  ∃ a el top, a ∈ l ∧ selectors p !! href a = Some (el, top) ∧
              s = mkSection (substring1 (href a)) el (link a).
Proof.
  rewrite list_elem_of_omap. split.
  - intros (a & Ha & Hs). destruct (selectors p !! href a) as [[el top]|] eqn:E;
      [|done]. exists a, el, top. by inversion Hs.
  - intros (a & el & top & Ha & E & ->). exists a. by rewrite E.
Qed.

Lemma collected_links (p : Page) (l : list Anchor) :
  NoDup (link <$> l) →
  NoDup (navLink <$>
         omap (λ a, match selectors p !! href a with
                    | Some (el, _) =>
                        Some (mkSection (substring1 (href a)) el (link a))
                    | None => None
                    end) l) ∧
  ∀ e, e ∈ navLink <$>
           omap (λ a, match selectors p !! href a with
                      | Some (el, _) =>
                          Some (mkSection (substring1 (href a)) el (link a))
                      | None => None
                      end) l → e ∈ link <$> l.
Proof.
  induction l as [|a l IH]; intros Hnd.
  - split; [constructor|]. by intros e H.
  - rewrite fmap_cons in Hnd. apply NoDup_cons in Hnd as [Hfresh Hnd].
    destruct (IH Hnd) as [IH1 IH2]. simpl.
    destruct (selectors p !! href a) as [[el top]|]; simpl.
    + split.
      * apply NoDup_cons. split; [|done]. intros H. by apply Hfresh, IH2.
      * intros e [->|H]%elem_of_cons; [by left|]. right. by apply IH2.
    + split; [done|]. intros e H. right. by apply IH2.
Qed.

(** When every href is a valid selector the loop runs through. *)
Lemma collect_valid (p : Page) (l : list Anchor) :
  (∀ a, a ∈ l → href a ∉ invalidSelectors p) →
  collect p l
  = Return (omap (λ a, match selectors p !! href a with
                       | Some (el, _) =>
                           Some (mkSection (substring1 (href a)) el (link a))
                       | None => None
                       end) l).
Proof.
  induction l as [|a l IH]; intros Hall; [done|].
  simpl. unfold querySelector.
  rewrite bool_decide_eq_false_2 by (apply Hall; left).
  rewrite IH by (intros b Hb; apply Hall; by right).
  by destruct (selectors p !! href a) as [[el top]|].
Qed.

(** One href that is no valid selector makes the whole loop throw. *)
Lemma collect_invalid (p : Page) (l : list Anchor) (a : Anchor) :
  a ∈ l → href a ∈ invalidSelectors p → collect p l = Throw "SyntaxError".
Proof.
  induction l as [|b l IH]; intros Ha Hi.
  - by apply elem_of_nil in Ha.
  - simpl. unfold querySelector. case_bool_decide as Hb; [done|].
    apply elem_of_cons in Ha as [->|Ha]; [done|].
    by rewrite IH.
Qed.

(** X15: [collectSections] tracks exactly the anchors whose target element
    exists, each as the section named by its href without the leading
    character, and never tracks a link twice: distinct anchors give distinct
    tracked links.  That is so when the href of every anchor is a valid
    selector.  When one is not (a lone [#] is not), [querySelector] throws
    for it, [collectSections] throws and nothing is tracked: the page,
    [this.sections] included, stays as it was. *)
Theorem collectSections_tracks (p : Page) :
  ((∀ a, a ∈ anchors p → href a ∉ invalidSelectors p) →
   (collectSections p).1 = Return tt ∧
   (∀ s, s ∈ sections (collectSections p).2 ↔
         ∃ a el top, a ∈ anchors p ∧ selectors p !! href a = Some (el, top) ∧
                     s = mkSection (substring1 (href a)) el (link a)) ∧
   (NoDup (link <$> anchors p) →
    NoDup (navLink <$> sections (collectSections p).2))) ∧
  ((∃ a, a ∈ anchors p ∧ href a ∈ invalidSelectors p) →
   collectSections p = (Throw "SyntaxError", p)).
Proof.
  unfold collectSections. split.
  - intros Hall. rewrite (collect_valid p (anchors p) Hall). simpl.
    split; [done|]. split; [intros s; apply tracked_entries|].
    intros Hnd. by destruct (collected_links p (anchors p) Hnd) as [H _].
  - intros (a & Ha & Hi). by rewrite (collect_invalid p (anchors p) a Ha Hi).
Qed.

Lemma collectSections_tracks_witness :
  (∀ a, a ∈ anchors markupPage → href a ∉ invalidSelectors markupPage) ∧
  (collectSections markupPage).1 = Return tt ∧
  (∃ a, a ∈ anchors markupWithBareHash
        ∧ href a ∈ invalidSelectors markupWithBareHash) ∧
  sections (collectSections markupWithBareHash).2 = [].
Proof.
  assert (H1 : ∀ a, a ∈ anchors markupPage →
                    href a ∉ invalidSelectors markupPage).
  { intros a Ha Hi.
    change (href a ∈ ({["#"]} : gset string)) in Hi.
    apply elem_of_singleton in Hi.
    change (a ∈ [mkAnchor 1 "#home"; mkAnchor 2 "#about"]) in Ha.
    repeat (apply elem_of_cons in Ha as [->|Ha]; [discriminate|]).
    by apply elem_of_nil in Ha. }
  assert (H2 : ∃ a, a ∈ anchors markupWithBareHash
                    ∧ href a ∈ invalidSelectors markupWithBareHash).
  { exists (mkAnchor 3 "#"). split.
    - right. right. left.
    - change ("#" ∈ ({["#"]} : gset string)). by apply elem_of_singleton. }
  destruct (collectSections_tracks markupPage) as [Ha _].
  destruct (collectSections_tracks markupWithBareHash) as [_ Hb].
  destruct (Ha H1) as (Hr & _).
  split; [exact H1|]. split; [exact Hr|]. split; [exact H2|].
  by rewrite (Hb H2).
Defined.

Lemma updateActiveSection_consistent (i : string) (p : Page) :
  NoDup (navLink <$> sections p) →
  markersConsistent p → markersConsistent (updateActiveSection i p).
Proof.
  intros Hnd Hc. unfold updateActiveSection.
  destruct (String.eqb_spec (activeSection p) i) as [E|E]; [done|].
  intros s Hs. unfold isActive. simpl in *. rewrite bool_decide_eq_true.
  by apply foldl_markSection_in.
Qed.

Lemma updateActiveSection_sections (i : string) (p : Page) :
  sections (updateActiveSection i p) = sections p.
Proof.
  unfold updateActiveSection. by destruct (String.eqb (activeSection p) i).
Qed.

Lemma updateActiveSection_active (i : string) (p : Page) :
  activeSection (updateActiveSection i p) = i.
Proof.
  unfold updateActiveSection.
  by destruct (String.eqb_spec (activeSection p) i).
Qed.

Lemma filter_id_at_most_one (sid : string) (l : list Section) :
  NoDup (id <$> l) → (length (filter (λ s, id s = sid) l) ≤ 1)%nat.
Proof.
  intros Hnd. destruct (decide (sid ∈ id <$> l)) as [H|H].
  - by rewrite filter_id_unique.
  - rewrite filter_id_absent by done. simpl. lia.
Qed.

(** X16: once the markers agree with the recorded active section, they keep
    agreeing through any run of [updateActiveSection] calls: after the run
    the tracked links that carry the marker are exactly those of the last id
    requested, so there is never more than one when section ids are
    distinct. *)
Theorem markers_stay_consistent (ids : list string) (p : Page) :
  NoDup (navLink <$> sections p) →
  markersConsistent p →
  markersConsistent (updateActiveSections ids p) ∧
  activeSection (updateActiveSections ids p) = default (activeSection p) (last ids) ∧
  sections (updateActiveSections ids p) = sections p ∧
  activeLinks (updateActiveSections ids p)
    = filter (λ s, id s = default (activeSection p) (last ids)) (sections p) ∧
  (NoDup (id <$> sections p) →
   (length (activeLinks (updateActiveSections ids p)) ≤ 1)%nat).
Proof.
  intros Hnd Hc.
  assert (H : markersConsistent (updateActiveSections ids p) ∧
              activeSection (updateActiveSections ids p)
                = default (activeSection p) (last ids) ∧
              sections (updateActiveSections ids p) = sections p).
  { revert p Hnd Hc. induction ids as [|i l IH]; intros p Hnd Hc; [done|].
    change (updateActiveSections (i :: l) p)
      with (updateActiveSections l (updateActiveSection i p)).
    destruct (IH (updateActiveSection i p)) as (H1 & H2 & H3).
    - by rewrite updateActiveSection_sections.
    - by apply updateActiveSection_consistent.
    - split; [done|]. split.
      + rewrite H2, updateActiveSection_active.
        destruct l as [|j l']; [by rewrite last_singleton|].
        rewrite last_cons_cons.
        destruct (last (j :: l')) eqn:E; [done|]. by apply last_None in E.
      + by rewrite H3, updateActiveSection_sections. }
  destruct H as (H1 & H2 & H3).
  assert (HA : activeLinks (updateActiveSections ids p)
               = filter (λ s, id s = default (activeSection p) (last ids))
                   (sections p)).
  { unfold activeLinks. rewrite H3. apply filter_ext_elem.
    intros s Hs. rewrite <- H2. apply H1. by rewrite H3. }
  split; [done|]. split; [done|]. split; [done|]. split; [done|].
  intros Hid. rewrite HA. by apply filter_id_at_most_one.
Qed.

(** The example page after one effective call; its markers agree. *)
Lemma markers_stay_consistent_witness :
  NoDup (navLink <$> sections examplePage) ∧
  markersConsistent examplePage ∧
  activeSection
    (updateActiveSections ["about"; "skills"; "home"] examplePage) = "home".
Proof.
  assert (Hl : NoDup (navLink <$> sections examplePage)).
  { apply (NoDup_cons_2 1 [2]); [by intros ?%list_elem_of_singleton|].
    apply (NoDup_cons_2 2 []); [apply not_elem_of_nil|apply NoDup_nil_2]. }
  assert (Hc : markersConsistent examplePage).
  { intros s Hs.
    apply elem_of_cons in Hs as [->|Hs]; [by vm_compute|].
    apply elem_of_cons in Hs as [->|Hs]; [by vm_compute|].
    by apply elem_of_nil in Hs. }
  destruct (markers_stay_consistent ["about"; "skills"; "home"] examplePage
              Hl Hc) as (_ & Ha & _).
  exact (conj Hl (conj Hc Ha)).
Defined.

Lemma markSection_other_class sid cls s (e : nat) (c : string) :
  c ≠ "active" →
  c ∈ classesOf (markSection sid cls s) e ↔ c ∈ classesOf cls e.
Proof.
  intros Hc. unfold markSection, classList_add, classList_remove.
  destruct (String.eqb (id s) sid); rewrite classesOf_insert;
    destruct (decide (navLink s = e)) as [->|]; try done;
    set_unfold; naive_solver.
Qed.

Lemma foldl_markSection_other_class sid (l : list Section) cls (e : nat)
    (c : string) :
  c ≠ "active" →
  c ∈ classesOf (foldl (markSection sid) cls l) e ↔ c ∈ classesOf cls e.
Proof.
  intros Hc. revert cls. induction l as [|s l IH]; intros cls; [done|].
  simpl. rewrite IH. by apply markSection_other_class.
Qed.

(** X17: [updateActiveSection] touches nothing but the active marker of the
    tracked links and the recorded active section: every other class of
    every element, all classes of elements that are not tracked links, the
    menu state, the scroll lock and the modal stay as they were. *)
Theorem updateActiveSection_frame (i : string) (p : Page) :
  (∀ e c, c ≠ "active" →
          c ∈ classesOf (classes (updateActiveSection i p)) e
          ↔ c ∈ classesOf (classes p) e) ∧
  (∀ e, e ∉ (navLink <$> sections p) →
        classesOf (classes (updateActiveSection i p)) e
        = classesOf (classes p) e) ∧
  mobileMenuOpen (updateActiveSection i p) = mobileMenuOpen p ∧
  ariaExpanded (updateActiveSection i p) = ariaExpanded p ∧
  bodyOverflow (updateActiveSection i p) = bodyOverflow p ∧
  modal (updateActiveSection i p) = modal p ∧
  sections (updateActiveSection i p) = sections p.
Proof.
  unfold updateActiveSection.
  destruct (String.eqb (activeSection p) i); [done|]. simpl.
  split; [|split; [|done]].
  - intros e c Hc. by apply foldl_markSection_other_class.
  - intros e He. by apply foldl_markSection_other.
Qed.

Lemma updateActiveSection_frame_witness :
  "mobile-menu-open" ≠ "active" ∧
  ("mobile-menu-open"
     ∈ classesOf (classes (updateActiveSection "about"
                             (openMobileMenu examplePage))) 100
   ↔ "mobile-menu-open"
       ∈ classesOf (classes (openMobileMenu examplePage)) 100).
Proof.
  assert (H : "mobile-menu-open" ≠ "active") by discriminate.
  exact (conj H (proj1 (updateActiveSection_frame "about"
                          (openMobileMenu examplePage)) 100 _ H)).
Defined.

(** X18: the listeners do nothing unless their guard holds: a resize to a
    width of at most 768, a key other than Escape, a click inside the
    navigation, a click in the link list on something that is not a link,
    and every outside click, key or resize while the menu is closed leave
    the page exactly as it is. *)
Theorem guarded_events_do_nothing (p : Page) (width : Z) (key tag : string)
    (h : option string) (inside : bool) :
  ((width ≤ 768)%Z → handle (WindowResize width) p = p) ∧
  (key ≠ "Escape" → handle (Keydown key) p = p) ∧
  handle (DocumentClick true) p = p ∧
  (tag ≠ "A" → handle (NavLinksClick tag h) p = p) ∧
  (mobileMenuOpen p = false →
   handle (WindowResize width) p = p ∧
   handle (Keydown key) p = p ∧
   handle (DocumentClick inside) p = p).
Proof.
  simpl. split; [|split; [|split; [|split]]].
  - intros Hw. by rewrite (proj2 (Z.ltb_ge 768 width) Hw).
  - intros Hk. by destruct (String.eqb_spec key "Escape").
  - by rewrite andb_false_r.
  - intros Ht. by destruct (String.eqb_spec tag "A").
  - intros ->. by rewrite !andb_false_r.
Qed.

Lemma guarded_events_do_nothing_witness :
  (768 ≤ 768)%Z ∧
  handle (WindowResize 768) (openMobileMenu examplePage)
    = openMobileMenu examplePage ∧
  mobileMenuOpen (handle (WindowResize 769) (openMobileMenu examplePage))
    = false.
Proof.
  assert (H : (768 ≤ 768)%Z) by lia.
  split; [exact H|]. split; [|reflexivity].
  exact (proj1 (guarded_events_do_nothing (openMobileMenu examplePage) 768
                  "" "" None false) H).
Defined.

Lemma classesOf_add (cls : gmap nat (gset string)) (e e' : nat) (c c' : string) :
  c' ∈ classesOf (classList_add e c cls) e'
  ↔ c' ∈ classesOf cls e' ∨ (e = e' ∧ c' = c).
Proof.
  unfold classList_add. rewrite classesOf_insert.
  destruct (decide (e = e')) as [->|]; set_unfold; naive_solver.
Qed.

Lemma classesOf_remove (cls : gmap nat (gset string)) (e e' : nat)
    (c c' : string) :
  c' ∈ classesOf (classList_remove e c cls) e'
  ↔ c' ∈ classesOf cls e' ∧ ¬ (e = e' ∧ c' = c).
Proof.
  unfold classList_remove. rewrite classesOf_insert.
  destruct (decide (e = e')) as [->|]; set_unfold; naive_solver.
Qed.

Lemma openMobileMenu_consistent (p : Page) : menuConsistent (openMobileMenu p).
Proof.
  unfold menuConsistent, openMobileMenu. simpl.
  rewrite !classesOf_add. naive_solver.
Qed.

Lemma closeMobileMenu_consistent (p : Page) :
  menuConsistent (closeMobileMenu p).
Proof.
  unfold menuConsistent, closeMobileMenu. simpl.
  rewrite !classesOf_remove. naive_solver.
Qed.

Lemma smoothScrollToSection_menu (h : option string) (p : Page) :
  menuConsistent p → menuConsistent (smoothScrollToSection h p).2.
Proof.
  by destruct (smoothScrollToSection_cases h p) as [->|[top ->]].
Qed.

(** X19: the menu flag and the document agree: after [openMobileMenu] and
    after [closeMobileMenu] the open class of the link list, the active
    class of the hamburger button and its aria-expanded attribute all say
    what [mobileMenuOpen] says, and every listener, the timeline modal and
    (when the hamburger button is not itself a tracked link)
    [updateActiveSection] keep it that way. *)
Theorem menu_state_consistent (e : UiEvent) (i x : string) (p : Page) :
  menuConsistent (openMobileMenu p) ∧
  menuConsistent (closeMobileMenu p) ∧
  (menuConsistent p →
   menuConsistent (handle e p) ∧
   menuConsistent (showTimelineDetails x p).2 ∧
   menuConsistent (closeModal p) ∧
   (hamburgerBtn p ∉ (navLink <$> sections p) →
    menuConsistent (updateActiveSection i p))).
Proof.
  split; [apply openMobileMenu_consistent|].
  split; [apply closeMobileMenu_consistent|].
  intros Hp. split; [|split; [|split]].
  - destruct e as [|inside|key|tag h|width]; simpl.
    + unfold toggleMobileMenu. destruct (mobileMenuOpen p);
        [apply closeMobileMenu_consistent|apply openMobileMenu_consistent].
    + destruct (_ && _); [apply closeMobileMenu_consistent|done].
    + destruct (_ && _); [apply closeMobileMenu_consistent|done].
    + destruct (String.eqb tag "A"); [|done].
      apply smoothScrollToSection_menu, closeMobileMenu_consistent.
    + destruct (_ && _); [apply closeMobileMenu_consistent|done].
  - unfold showTimelineDetails, createTimelineModal, closeModal.
    destruct (findExperience x p) as [ex|]; [|done].
    by destruct (achievements ex), (technologies ex), (modal p).
  - unfold closeModal. by destruct (modal p).
  - intros Hh. unfold updateActiveSection.
    destruct (String.eqb (activeSection p) i); [done|].
    destruct Hp as (H1 & H2 & H3). unfold menuConsistent. simpl.
    rewrite foldl_markSection_other_class by discriminate.
    by rewrite foldl_markSection_other.
Qed.

Lemma menu_state_consistent_witness :
  menuConsistent (openMobileMenu examplePage) ∧
  menuConsistent (handle (Keydown "Escape") (openMobileMenu examplePage)).
Proof.
  destruct (menu_state_consistent (Keydown "Escape") "" ""
              (openMobileMenu examplePage)) as (_ & _ & H).
  destruct (menu_state_consistent HamburgerClick "" "" examplePage)
    as (Ho & _).
  exact (conj Ho (proj1 (H Ho))).
Defined.

(** X20: closing the timeline modal clears the body's scroll lock and
    removes the modal node whatever the mobile menu's state: the menu flag,
    the classes and the aria attribute are not touched, so a menu that is
    open stays open over a page that scrolls again.  Without a modal
    [closeModal] does nothing. *)
Theorem closeModal_releases_lock (p : Page) (m : nat) :
  (modal p = Some m →
   bodyOverflow (closeModal p) = "" ∧
   modal (closeModal p) = None ∧
   (m ∉ bodyChildren (closeModal p)) ∧
   mobileMenuOpen (closeModal p) = mobileMenuOpen p ∧
   classes (closeModal p) = classes p ∧
   ariaExpanded (closeModal p) = ariaExpanded p) ∧
  (modal p = None → closeModal p = p).
Proof.
  unfold closeModal. split; intros ->; [|done]. simpl.
  repeat split. intros [H _]%list_elem_of_filter. by apply H.
Qed.

Lemma closeModal_releases_lock_witness :
  modal menuAndModal = Some 200 ∧
  mobileMenuOpen menuAndModal = true ∧
  bodyOverflow (closeModal menuAndModal) = "" ∧
  mobileMenuOpen (closeModal menuAndModal) = true.
Proof.
  assert (H : modal menuAndModal = Some 200) by reflexivity.
  destruct (proj1 (closeModal_releases_lock menuAndModal 200) H)
    as (Ho & _ & _ & Hm & _).
  split; [exact H|]. split; [reflexivity|]. split; [exact Ho|].
  rewrite Hm. reflexivity.
Defined.

Lemma filter_all {A} (P : A → Prop) `{!∀ x, Decision (P x)} (l : list A) :
  (∀ x, x ∈ l → P x) → filter P l = l.
Proof.
  induction l as [|a l IH]; intros Hall; [done|].
  rewrite filter_cons_True by (apply Hall; left).
  f_equal. apply IH. intros x Hx. apply Hall. by right.
Qed.

Lemma filter_drop_last (l : list nat) (m : nat) :
  (∀ n, n ∈ l → n < m) → filter (λ n, n ≠ m) (l ++ [m])%list = l.
Proof.
  intros Hl. rewrite filter_app, filter_cons_False by (intros H; by apply H).
  rewrite filter_nil, app_nil_r. apply filter_all.
  intros n Hn. apply Hl in Hn. lia.
Qed.

Lemma closeModal_after_append (q : Page) (l : list nat) (m : nat) :
  (∀ n, n ∈ l → n < m) →
  bodyChildren q = (l ++ [m])%list → modal q = Some m →
  bodyChildren (closeModal q) = l ∧
  modal (closeModal q) = None ∧
  bodyOverflow (closeModal q) = "" ∧
  nextNode (closeModal q) = nextNode q.
Proof.
  intros Hl Hc Hm. unfold closeModal. rewrite Hm. simpl.
  by rewrite Hc, filter_drop_last.
Qed.

Lemma findExperience_absent (i : string) (p : Page) :
  i ∉ (expId <$> experiences p) → findExperience i p = None.
Proof.
  unfold findExperience. induction (experiences p) as [|ex l IH]; [done|].
  rewrite fmap_cons, not_elem_of_cons. intros [Hne Hn]. simpl.
  destruct (String.eqb_spec (expId ex) i); [congruence|]. by apply IH.
Qed.

(** X21: the timeline keeps at most one modal node in the body.  Starting
    without a modal, [createTimelineModal] for an experience that has its
    achievements and technologies appends one fresh node and locks the
    scroll; a second call replaces that node instead of adding another;
    closing removes it and restores the body's children as they were.  For
    an experience without achievements or technologies the call throws
    after it closed the modal that was open and before it appends the new
    node: no modal is open then and the scroll is not locked.  An
    experience id that is not in the data opens nothing. *)
Theorem modal_single_node (x y : Experience) (i : string) (p : Page) :
  nodesKnown p → modal p = None →
  (detailed x = true →
   (createTimelineModal x p).1 = Return tt ∧
   bodyChildren (createTimelineModal x p).2
     = (bodyChildren p ++ [nextNode p])%list ∧
   modal (createTimelineModal x p).2 = Some (nextNode p) ∧
   bodyOverflow (createTimelineModal x p).2 = "hidden" ∧
   bodyChildren (closeModal (createTimelineModal x p).2) = bodyChildren p ∧
   modal (closeModal (createTimelineModal x p).2) = None ∧
   bodyOverflow (closeModal (createTimelineModal x p).2) = "" ∧
   (detailed y = true →
    (createTimelineModal y (createTimelineModal x p).2).1 = Return tt ∧
    bodyChildren (createTimelineModal y (createTimelineModal x p).2).2
      = (bodyChildren p ++ [S (nextNode p)])%list ∧
    modal (createTimelineModal y (createTimelineModal x p).2).2
      = Some (S (nextNode p))) ∧
   (detailed y = false →
    (createTimelineModal y (createTimelineModal x p).2).1
      = Throw "TypeError" ∧
    bodyChildren (createTimelineModal y (createTimelineModal x p).2).2
      = bodyChildren p ∧
    modal (createTimelineModal y (createTimelineModal x p).2).2 = None ∧
    bodyOverflow (createTimelineModal y (createTimelineModal x p).2).2
      = "")) ∧
  (detailed x = false →
   (createTimelineModal x p).1 = Throw "TypeError" ∧
   bodyChildren (createTimelineModal x p).2 = bodyChildren p ∧
   modal (createTimelineModal x p).2 = None ∧
   bodyOverflow (createTimelineModal x p).2 = bodyOverflow p) ∧
  nodesKnown (createTimelineModal x p).2 ∧
  (i ∉ (expId <$> experiences p) →
   showTimelineDetails i p = (Return tt, p)).
Proof.
  intros Hk Hm.
  assert (Hc : closeModal p = p) by (unfold closeModal; by rewrite Hm).
  split; [|split; [|split]].
  - intros Hx.
    destruct (createTimelineModal_detailed x p Hx) as (C0 & C4 & C2 & C3 & C1).
    rewrite Hc in C1.
    destruct (closeModal_after_append (createTimelineModal x p).2
                (bodyChildren p) (nextNode p) Hk C1 C2)
      as (D1 & D2 & D3 & D4).
    split; [done|]. split; [done|]. split; [done|]. split; [done|].
    split; [done|]. split; [done|]. split; [done|]. split.
    + intros Hy.
      destruct (createTimelineModal_detailed y (createTimelineModal x p).2 Hy)
        as (E0 & _ & E2 & _ & E1).
      by rewrite E0, E1, E2, D1, C3.
    + intros Hy.
      destruct (createTimelineModal_undetailed y (createTimelineModal x p).2 Hy)
        as (E0 & E4 & E2 & _ & E1).
      by rewrite E0, E1, E2, E4, D1, D3.
  - intros Hx.
    destruct (createTimelineModal_undetailed x p Hx) as (C0 & C4 & C2 & _ & C1).
    by rewrite C0, C1, C2, C4, Hc.
  - intros n. destruct (detailed x) eqn:Hx.
    + destruct (createTimelineModal_detailed x p Hx) as (_ & _ & _ & -> & ->).
      rewrite Hc. intros [Hn|Hn]%elem_of_app.
      * apply Hk in Hn. lia.
      * apply list_elem_of_singleton in Hn. lia.
    + destruct (createTimelineModal_undetailed x p Hx) as (_ & _ & _ & -> & ->).
      rewrite Hc. intros Hn. apply Hk in Hn. lia.
  - intros Hi. unfold showTimelineDetails.
    by rewrite findExperience_absent.
Qed.

Lemma modal_single_node_witness :
  nodesKnown examplePage ∧ modal examplePage = None ∧
  detailed exp1 = true ∧ detailed exp2 = false ∧
  bodyChildren (createTimelineModal exp1
                  (createTimelineModal exp1 examplePage).2).2 = [201] ∧
  (createTimelineModal exp2 (createTimelineModal exp1 examplePage).2).1
    = Throw "TypeError" ∧
  modal (createTimelineModal exp2 (createTimelineModal exp1 examplePage).2).2
    = None.
Proof.
  assert (Hk : nodesKnown examplePage)
    by (intros n Hn; by apply elem_of_nil in Hn).
  assert (Hm : modal examplePage = None) by reflexivity.
  assert (H1 : detailed exp1 = true) by reflexivity.
  assert (H2 : detailed exp2 = false) by reflexivity.
  destruct (modal_single_node exp1 exp1 "" examplePage Hk Hm) as (Ha & _).
  destruct (modal_single_node exp1 exp2 "" examplePage Hk Hm) as (Hb & _).
  destruct (Ha H1) as (_ & _ & _ & _ & _ & _ & _ & Hy & _).
  destruct (Hb H1) as (_ & _ & _ & _ & _ & _ & _ & _ & Hn).
  destruct (Hy H1) as (_ & Hc & _).
  destruct (Hn H2) as (Ht & _ & Hnone & _).
  exact (conj Hk (conj Hm (conj H1 (conj H2 (conj Hc (conj Ht Hnone)))))).
Defined.

Lemma classList_remove_absent (cls : gmap nat (gset string)) (e : nat)
    (c : string) (X : gset string) :
  cls !! e = Some X → c ∉ X → classList_remove e c cls = cls.
Proof.
  intros He Hc. unfold classList_remove, classesOf. rewrite He. simpl.
  apply insert_id. rewrite He. f_equal. apply set_eq. intros x.
  set_unfold. naive_solver.
Qed.

Lemma classList_add_present (cls : gmap nat (gset string)) (e : nat)
    (c : string) (X : gset string) :
  cls !! e = Some X → c ∈ X → classList_add e c cls = cls.
Proof.
  intros He Hc. unfold classList_add, classesOf. rewrite He. simpl.
  apply insert_id. rewrite He. f_equal. apply set_eq. intros x.
  set_unfold. naive_solver.
Qed.

Lemma classesOf_lookup (cls : gmap nat (gset string)) (e : nat)
    (X : gset string) :
  cls !! e = Some X → classesOf cls e = X.
Proof. intros H. unfold classesOf. by rewrite H. Qed.

Lemma closed_classes (cls : gmap nat (gset string)) (nl hb : nat) :
  ∃ X Y,
    classList_remove hb "active"
      (classList_remove nl "mobile-menu-open" cls) !! nl = Some X ∧
    ("mobile-menu-open" ∉ X) ∧
    classList_remove hb "active"
      (classList_remove nl "mobile-menu-open" cls) !! hb = Some Y ∧
    ("active" ∉ Y).
Proof.
  set (c1 := classList_remove nl "mobile-menu-open" cls).
  assert (Hhb : classList_remove hb "active" c1 !! hb
                = Some (classesOf c1 hb ∖ {["active"]}))
    by apply lookup_insert_eq.
  assert (Ha : "active" ∉ classesOf c1 hb ∖ {["active"]})
    by (set_unfold; naive_solver).
  destruct (decide (hb = nl)) as [->|Hne].
  - exists (classesOf c1 nl ∖ {["active"]}), (classesOf c1 nl ∖ {["active"]}).
    repeat split; try done.
    intros [H _]%elem_of_difference. apply classesOf_remove in H.
    naive_solver.
  - exists (classesOf cls nl ∖ {["mobile-menu-open"]}),
      (classesOf c1 hb ∖ {["active"]}).
    repeat split; try done.
    + unfold classList_remove at 1. rewrite lookup_insert_ne by done.
      apply lookup_insert_eq.
    + set_unfold. naive_solver.
Qed.

Lemma opened_classes (cls : gmap nat (gset string)) (nl hb : nat) :
  ∃ X Y,
    classList_add hb "active"
      (classList_add nl "mobile-menu-open" cls) !! nl = Some X ∧
    "mobile-menu-open" ∈ X ∧
    classList_add hb "active"
      (classList_add nl "mobile-menu-open" cls) !! hb = Some Y ∧
    "active" ∈ Y.
Proof.
  set (c1 := classList_add nl "mobile-menu-open" cls).
  assert (Hhb : classList_add hb "active" c1 !! hb
                = Some (classesOf c1 hb ∪ {["active"]}))
    by apply lookup_insert_eq.
  assert (Ha : "active" ∈ classesOf c1 hb ∪ {["active"]})
    by (set_unfold; naive_solver).
  destruct (decide (hb = nl)) as [->|Hne].
  - exists (classesOf c1 nl ∪ {["active"]}), (classesOf c1 nl ∪ {["active"]}).
    repeat split; try done.
    apply elem_of_union_l. apply classesOf_add. naive_solver.
  - exists (classesOf cls nl ∪ {["mobile-menu-open"]}),
      (classesOf c1 hb ∪ {["active"]}).
    repeat split; try done.
    + unfold classList_add at 1. rewrite lookup_insert_ne by done.
      apply lookup_insert_eq.
    + set_unfold. naive_solver.
Qed.

(** X22: [closeMobileMenu] and [openMobileMenu] are idempotent: closing a
    menu that was just closed, or opening one that was just opened, leaves
    the whole page exactly as it is. *)
Theorem menu_open_close_idempotent (p : Page) :
  closeMobileMenu (closeMobileMenu p) = closeMobileMenu p ∧
  openMobileMenu (openMobileMenu p) = openMobileMenu p.
Proof.
  split.
  - unfold closeMobileMenu at 1 2. simpl.
    destruct (closed_classes (classes p) (navLinks p) (hamburgerBtn p))
      as (X & Y & HX & HmX & HY & HaY).
    rewrite (classList_remove_absent _ (navLinks p) _ X HX HmX).
    by rewrite (classList_remove_absent _ (hamburgerBtn p) _ Y HY HaY).
  - unfold openMobileMenu at 1 2. simpl.
    destruct (opened_classes (classes p) (navLinks p) (hamburgerBtn p))
      as (X & Y & HX & HmX & HY & HaY).
    rewrite (classList_add_present _ (navLinks p) _ X HX HmX).
    by rewrite (classList_add_present _ (hamburgerBtn p) _ Y HY HaY).
Qed.

End NavigationMore.

(** ** PortfolioApp: the order of the fetches *)

Module PortfolioAppMore.
Import Js PortfolioApp.

(** X23: the datasets are requested strictly one after the other and the
    first failure ends the loading: projects always, articles only after the
    projects arrived, the timeline only after both arrived.  One error is
    logged when a fetch failed and none otherwise, and in every case all
    three fields of [this.data] end up assigned. *)
Theorem loadData_sequential (net : Network) (a : App) :
  requests (loadData net a) =
    (requests a ++
     match net projectsUrl, net articlesUrl with
     | Body _, Body _ => [projectsUrl; articlesUrl; timelineUrl]
     | Body _, _ => [projectsUrl; articlesUrl]
     | _, _ => [projectsUrl]
     end)%list ∧
  errors (loadData net a) =
    (errors a ++
     match net projectsUrl, net articlesUrl, net timelineUrl with
     | Body _, Body _, Body _ => []
     | _, _, _ => ["Failed to load data:"]
     end)%list ∧
  is_Some (projects (data (loadData net a))) ∧
  is_Some (articles (data (loadData net a))) ∧
  is_Some (timeline (data (loadData net a))).
Proof.
  unfold loadData, fetchJson.
  destruct (net projectsUrl); simpl;
    [by rewrite <- ?app_assoc|by rewrite <- ?app_assoc|].
  destruct (net articlesUrl); simpl;
    [by rewrite <- ?app_assoc|by rewrite <- ?app_assoc|].
  destruct (net timelineUrl); simpl; rewrite <- ?app_assoc, ?app_nil_r; done.
Qed.

End PortfolioAppMore.

(** ** ContactForm: patterns and verdicts *)

Module ContactFormFacts.
Import Js ContactForm.

#[local] Open Scope list_scope.
#[local] Open Scope nat_scope.
#[local] Set Warnings "-clear-no-such-hyp".

Lemma matches_nil_nullable (r : re) (s : jsstring) :
  matches r s → s = [] → nullable r = true.
Proof.
  induction 1 as [|p c Hp|r1 r2 s1 s2 _ IH1 _ IH2|r1 r2 s _ IH|r1 r2 s _ IH
                 |r|r s1 s2 _ _ _ _]; intros Hs; simpl; try done.
  - apply app_eq_nil in Hs as [-> ->]. by rewrite IH1, IH2.
  - by rewrite IH.
  - rewrite IH by done. apply orb_true_r.
Qed.

Lemma nullable_matches (r : re) : nullable r = true ↔ matches r [].
Proof.
  split; [|intros H; by apply (matches_nil_nullable r [])].
  induction r as [| |p|r1 IH1 r2 IH2|r1 IH1 r2 IH2|r IH]; simpl;
    intros H; try done.
  - constructor.
  - apply andb_true_iff in H as [H1 H2].
    apply (MSeq r1 r2 [] []); auto.
  - apply orb_true_iff in H as [H|H]; [apply MAltL|apply MAltR]; auto.
  - constructor.
Qed.

(** A non-empty match of a star starts with a non-empty match of its body. *)
Lemma matches_star_cons (r : re) (s : jsstring) :
  matches (Star r) s →
  ∀ c s', s = c :: s' →
          ∃ s1 s2, s' = s1 ++ s2 ∧ matches r (c :: s1) ∧ matches (Star r) s2.
Proof.
  intros H. remember (Star r) as r' eqn:Er.
  induction H as [| | | | | |r0 s1 s2 H1 _ H2 IH2]; try done.
  injection Er as ->. intros c s' Hs.
  destruct s1 as [|c1 s1].
  - simpl in Hs. by apply IH2.
  - simpl in Hs. injection Hs as -> <-. by exists s1, s2.
Qed.

Lemma deriv_matches (c : N) (r : re) (s : jsstring) :
  matches (deriv c r) s ↔ matches r (c :: s).
Proof.
  revert s. induction r as [| |p|r1 IH1 r2 IH2|r1 IH1 r2 IH2|r IH];
    intros s; simpl.
  - split; inversion 1.
  - split; inversion 1.
  - destruct (p c) eqn:Hp; split; inversion 1; subst.
    + by constructor.
    + constructor.
    + congruence.
  - assert (Hseq : matches (Seq (deriv c r1) r2) s →
                   matches (Seq r1 r2) (c :: s)).
    { inversion 1; subst. apply (MSeq r1 r2 (c :: s1) s2); [|done].
      by apply IH1. }
    assert (Hinv : matches (Seq r1 r2) (c :: s) →
                   matches (Seq (deriv c r1) r2) s ∨
                   (nullable r1 = true ∧ matches (deriv c r2) s)).
    { inversion 1 as [| |r1' r2' s1 s2 H1 H2 E1 E2| | | |]; subst.
      destruct s1 as [|c1 s1]; simpl in *.
      - right. split; [by apply nullable_matches|]. apply IH2. by subst.
      - injection E2 as -> <-. left. constructor; [|done]. by apply IH1. }
    destruct (nullable r1) eqn:Hn; split.
    + inversion 1; subst; [by apply Hseq|].
      apply (MSeq r1 r2 [] (c :: s)); [by apply nullable_matches|].
      by apply IH2.
    + intros H. destruct (Hinv H) as [H'|[_ H']];
        [by apply MAltL|by apply MAltR].
    + apply Hseq.
    + intros H. by destruct (Hinv H) as [H'|[? _]].
  - split; inversion 1; subst.
    + apply MAltL. by apply IH1.
    + apply MAltR. by apply IH2.
    + apply MAltL. by apply IH1.
    + apply MAltR. by apply IH2.
  - split.
    + inversion 1; subst. apply (MStarApp r (c :: s1) s2); [|done].
      by apply IH.
    + intros H. destruct (matches_star_cons r _ H c s eq_refl)
        as (s1 & s2 & -> & H1 & H2).
      constructor; [|done]. by apply IH.
Qed.

Lemma test_matches (r : re) (s : jsstring) : test r s = true ↔ matches r s.
Proof.
  revert r. induction s as [|c s IH]; intros r; simpl.
  - apply nullable_matches.
  - rewrite IH. apply deriv_matches.
Qed.

Lemma matches_star_class (p : N → bool) (s : jsstring) :
  matches (Star (Class p)) s ↔ Forall (λ c, p c = true) s.
Proof.
  split.
  - intros H. remember (Star (Class p)) as r eqn:Er.
    induction H as [| | | | | |r0 s1 s2 H1 _ H2 IH2]; try done.
    injection Er as ->. inversion H1; subst. simpl.
    constructor; [done|]. by apply IH2.
  - induction 1 as [|c s Hc _ IH]; [constructor|].
    apply (MStarApp (Class p) [c] s); [by constructor|done].
Qed.

Lemma matches_plus_class (p : N → bool) (s : jsstring) :
  matches (Plus (Class p)) s ↔ s ≠ [] ∧ Forall (λ c, p c = true) s.
Proof.
  unfold Plus. split.
  - inversion 1 as [| |r1 r2 s1 s2 H1 H2| | | |]; subst.
    inversion H1; subst. simpl. split; [done|].
    constructor; [done|]. by apply matches_star_class.
  - intros [Hne Hall]. destruct s as [|c s]; [done|].
    inversion Hall; subst.
    apply (MSeq (Class p) (Star (Class p)) [c] s); [by constructor|].
    by apply matches_star_class.
Qed.

Lemma matches_chr (c : N) (s : jsstring) : matches (Chr c) s ↔ s = [c].
Proof.
  unfold Chr. split.
  - inversion 1 as [|p c' Hp| | | | |]; subst.
    apply N.eqb_eq in Hp. by subst.
  - intros ->. constructor. apply N.eqb_refl.
Qed.

Lemma matches_seq (r1 r2 : re) (s : jsstring) :
  matches (Seq r1 r2) s ↔
  ∃ s1 s2, s = s1 ++ s2 ∧ matches r1 s1 ∧ matches r2 s2.
Proof.
  split.
  - inversion 1; subst. eauto.
  - intros (s1 & s2 & -> & H1 & H2). by constructor.
Qed.

(** X24: the email pattern accepts exactly the values made of a non-empty
    local part, an at sign, and a domain with a dot that has something on
    both sides, none of the three parts containing white space or an at
    sign.  So an accepted value has no white space and exactly one at
    sign. *)
Theorem emailPattern_accepts (s : jsstring) :
  (test emailPattern s = true ↔
   ∃ a b c, s = a ++ [64%N] ++ b ++ [46%N] ++ c ∧
            a ≠ [] ∧ b ≠ [] ∧ c ≠ [] ∧
            Forall (λ x, notSpaceNorAt x = true) a ∧
            Forall (λ x, notSpaceNorAt x = true) b ∧
            Forall (λ x, notSpaceNorAt x = true) c) ∧
  (test emailPattern s = true →
   Forall (λ x, isWhiteSpace x = false) s ∧
   length (filter (λ x, x = 64%N) s) = 1).
Proof.
  assert (Hiff : test emailPattern s = true ↔
            ∃ a b c, s = a ++ [64%N] ++ b ++ [46%N] ++ c ∧
                     a ≠ [] ∧ b ≠ [] ∧ c ≠ [] ∧
                     Forall (λ x, notSpaceNorAt x = true) a ∧
                     Forall (λ x, notSpaceNorAt x = true) b ∧
                     Forall (λ x, notSpaceNorAt x = true) c).
  { rewrite test_matches. unfold emailPattern. split.
    - intros H.
      apply matches_seq in H as (a & r1 & -> & Ha & H).
      apply matches_seq in H as (x & r2 & -> & Hx & H).
      apply matches_seq in H as (b & r3 & -> & Hb & H).
      apply matches_seq in H as (y & c & -> & Hy & Hc).
      apply matches_chr in Hx as ->. apply matches_chr in Hy as ->.
      apply matches_plus_class in Ha as [? ?].
      apply matches_plus_class in Hb as [? ?].
      apply matches_plus_class in Hc as [? ?].
      by exists a, b, c.
    - intros (a & b & c & -> & Ha & Hb & Hc & Fa & Fb & Fc).
      apply matches_seq. exists a, ([64%N] ++ b ++ [46%N] ++ c).
      split; [done|]. split; [by apply matches_plus_class|].
      apply matches_seq. exists [64%N], (b ++ [46%N] ++ c).
      split; [done|]. split; [by apply matches_chr|].
      apply matches_seq. exists b, ([46%N] ++ c).
      split; [done|]. split; [by apply matches_plus_class|].
      apply matches_seq. exists [46%N], c.
      split; [done|]. split; [by apply matches_chr|].
      by apply matches_plus_class. }
  split; [exact Hiff|]. intros H.
  apply Hiff in H as (a & b & c & -> & _ & _ & _ & Fa & Fb & Fc).
  assert (Hws : ∀ l, Forall (λ x, notSpaceNorAt x = true) l →
                     Forall (λ x, isWhiteSpace x = false) l).
  { intros l Hl. eapply Forall_impl; [exact Hl|]. intros x Hx.
    unfold notSpaceNorAt in Hx.
    apply andb_true_iff in Hx as [Hx _]. by apply negb_true_iff. }
  assert (Hat : ∀ l, Forall (λ x, notSpaceNorAt x = true) l →
                     filter (λ x, x = 64%N) l = []).
  { intros l Hl. induction Hl as [|x l Hx _ IH]; [done|].
    rewrite filter_cons_False; [done|]. intros ->. by vm_compute in Hx. }
  split.
  - repeat (apply Forall_app; split); auto;
      by (constructor; [by vm_compute|constructor]).
  - unfold jsstring.
    rewrite !filter_app, !length_app, (Hat a), (Hat b), (Hat c) by done.
    by vm_compute.
Qed.

Lemma trimStart_nil (s : jsstring) :
  trimStart s = [] ↔ Forall (λ x, isWhiteSpace x = true) s.
Proof.
  induction s as [|c s IH]; simpl; [by split; [constructor|]|].
  destruct (isWhiteSpace c) eqn:E.
  - rewrite IH. split; [by constructor|]. by inversion 1.
  - split; [done|]. inversion 1; congruence.
Qed.

Lemma trimStart_head (s : jsstring) (c : N) (r : jsstring) :
  trimStart s = c :: r → isWhiteSpace c = false.
Proof.
  induction s as [|d s IH]; simpl; [done|].
  destruct (isWhiteSpace d) eqn:E; [done|]. by intros [= <- _].
Qed.

Lemma Forall_rev_iff {A} (P : A → Prop) (l : list A) :
  Forall P (rev l) ↔ Forall P l.
Proof.
  rewrite !Forall_forall. split; intros H x Hx; apply H;
    apply list_elem_of_In; apply list_elem_of_In in Hx.
  - by apply (proj1 (in_rev l x)).
  - by apply (proj2 (in_rev l x)).
Qed.

Lemma trim_nil (s : jsstring) :
  trim s = [] ↔ Forall (λ x, isWhiteSpace x = true) s.
Proof.
  unfold trim, trimEnd. split.
  - intros H. apply (f_equal (@rev N)) in H. rewrite rev_involutive in H.
    simpl in H. apply trimStart_nil in H.
    apply (proj1 (Forall_rev_iff _ _)) in H.
    destruct (trimStart s) as [|c r] eqn:E; [by apply trimStart_nil|].
    apply trimStart_head in E. apply Forall_cons in H as [H _]. congruence.
  - intros H. apply trimStart_nil in H. by rewrite H.
Qed.

Lemma verdict_required (f : Field) (raw : jsstring) :
  trim raw = [] →
  verdict f raw
  = Some (capitalizeFirst (fieldName f) ++ " is required")%string.
Proof.
  intros H. unfold verdict. rewrite H.
  by destruct f.
Qed.

(** X25: what [validateField] accepts, on the value with white space
    trimmed from both ends.  A name needs at least two characters, all of
    them letters or white space; an email has to match the email pattern; a
    subject needs 5 to 100 characters and a message 10 to 1000.  A value
    that is empty or all white space is reported as required; every other
    rejection shows the field's own message. *)
Theorem verdict_accepts (raw : jsstring) :
  (verdict FName raw = None ↔
   Forall (λ x, letterOrSpace x = true) (trim raw) ∧ 2 ≤ length (trim raw)) ∧
  (verdict FEmail raw = None ↔ test emailPattern (trim raw) = true) ∧
  (verdict FSubject raw = None ↔
   5 ≤ length (trim raw) ∧ length (trim raw) ≤ 100) ∧
  (verdict FMessage raw = None ↔
   10 ≤ length (trim raw) ∧ length (trim raw) ≤ 1000) ∧
  (∀ f, Forall (λ x, isWhiteSpace x = true) raw →
        verdict f raw
        = Some (capitalizeFirst (fieldName f) ++ " is required")%string) ∧
  (∀ f msg, ¬ Forall (λ x, isWhiteSpace x = true) raw →
            verdict f raw = Some msg → msg = message (validationRules f)).
Proof.
  set (v := trim raw).
  assert (Hlen0 : v = [] ↔ length v = 0)
    by (destruct v; simpl; split; (done || lia)).
  split; [|split; [|split; [|split; [|split]]]].
  - unfold verdict. fold v. simpl. case_bool_decide as E; simpl.
    + rewrite E. simpl. split; [done|lia].
    + destruct (test namePattern v) eqn:T; simpl.
      * apply test_matches, matches_plus_class in T as [_ T].
        destruct (length v <? 2) eqn:L; simpl.
        -- apply Nat.ltb_lt in L. split; [done|lia].
        -- apply Nat.ltb_ge in L. split; [done|]. by intros _.
      * split; [done|]. intros [Hall _].
        assert (test namePattern v = true); [|congruence].
        by apply test_matches, matches_plus_class.
  - unfold verdict. fold v. simpl. case_bool_decide as E; simpl.
    + rewrite E. by vm_compute.
    + destruct (test emailPattern v); simpl; by split.
  - unfold verdict. fold v. simpl. case_bool_decide as E; simpl.
    + apply Hlen0 in E. split; [done|lia].
    + destruct (length v <? 5) eqn:L; simpl.
      * apply Nat.ltb_lt in L. split; [done|lia].
      * apply Nat.ltb_ge in L. destruct (100 <? length v) eqn:M.
        -- apply Nat.ltb_lt in M. split; [done|lia].
        -- apply Nat.ltb_ge in M. by split.
  - unfold verdict. fold v. simpl. case_bool_decide as E; simpl.
    + apply Hlen0 in E. split; [done|lia].
    + destruct (length v <? 10) eqn:L; simpl.
      * apply Nat.ltb_lt in L. split; [done|lia].
      * apply Nat.ltb_ge in L. destruct (1000 <? length v) eqn:M.
        -- apply Nat.ltb_lt in M. split; [done|lia].
        -- apply Nat.ltb_ge in M. by split.
  - intros f Hws. apply verdict_required. by apply trim_nil.
  - intros f msg Hws. unfold verdict. fold v.
    rewrite (bool_decide_eq_false_2 (v = []))
      by (intros E; by apply Hws, trim_nil).
    rewrite andb_false_r. simpl.
    destruct (match pattern (validationRules f) with
              | Some r => negb (test r v) | None => false end);
      [by intros [= <-]|].
    destruct (below _ _); [by intros [= <-]|].
    destruct (above _ _); [by intros [= <-]|done].
Qed.

Lemma verdict_accepts_witness :
  ¬ Forall (λ x, isWhiteSpace x = true) (units "a@b") ∧
  verdict FEmail (units "a@b") = Some "Please enter a valid email address" ∧
  verdict FEmail (units " a@b.c ") = None ∧
  verdict FName (units "  ") = Some "Name is required".
Proof.
  assert (H : ¬ Forall (λ x, isWhiteSpace x = true) (units "a@b"))
    by (inversion 1; by vm_compute in *).
  split; [exact H|]. split; [by vm_compute|]. split.
  - apply (proj1 (proj2 (verdict_accepts (units " a@b.c ")))). by vm_compute.
  - apply (proj1 (proj2 (proj2 (proj2 (proj2
             (verdict_accepts (units "  "))))))).
    repeat constructor.
Defined.

Lemma upd_eq {A} (f : Field) (x : A) (m : Field → A) : upd f x m f = x.
Proof. unfold upd. by destruct (decide (f = f)). Qed.

Lemma upd_ne {A} (f g : Field) (x : A) (m : Field → A) :
  g ≠ f → upd f x m g = m g.
Proof. intros H. unfold upd. by destruct (decide (g = f)). Qed.

(** One [validateField] on a field that has its input and error element. *)
Lemma validateField_present (f : Field) (st : Form) (i : Input) (n : Notice) :
  inputs st f = Some i → notices st f = Some n →
  (validateField f st).1 = bool_decide (verdict f (value i) = None) ∧
  inputs (validateField f st).2 f = Some (judgedInput f i) ∧
  notices (validateField f st).2 f = Some (judgedNotice f i n) ∧
  (∀ g, g ≠ f → inputs (validateField f st).2 g = inputs st g ∧
                notices (validateField f st).2 g = notices st g) ∧
  submitted (validateField f st).2 = submitted st ∧
  hideTimers (validateField f st).2
    = hideTimers st ++ (if bool_decide (verdict f (value i) = None)
                        then [f] else []).
Proof.
  intros Hi Hn. unfold validateField, judgedInput, judgedNotice.
  rewrite Hi, Hn. destruct (verdict f (value i)) as [msg|]; simpl;
    rewrite ?upd_eq, ?app_nil_r; repeat split; try done;
    by rewrite upd_ne.
Qed.

Lemma validateField_absent (f : Field) (st : Form) :
  inputs st f = None ∨ notices st f = None → validateField f st = (true, st).
Proof.
  unfold validateField. intros [H|H]; rewrite H; [done|].
  by destruct (inputs st f).
Qed.

Lemma validateField_others (f g : Field) (st : Form) :
  g ≠ f →
  inputs (validateField f st).2 g = inputs st g ∧
  notices (validateField f st).2 g = notices st g.
Proof.
  intros Hne. destruct (inputs st f) as [i|] eqn:Hi;
    [destruct (notices st f) as [n|] eqn:Hn|].
  - destruct (validateField_present f st i n Hi Hn) as (_ & _ & _ & H & _).
    by apply H.
  - by rewrite validateField_absent by (by right).
  - by rewrite validateField_absent by (by left).
Qed.

Lemma validateField_submitted (f : Field) (st : Form) :
  submitted (validateField f st).2 = submitted st.
Proof.
  destruct (inputs st f) as [i|] eqn:Hi;
    [destruct (notices st f) as [n|] eqn:Hn|].
  - by destruct (validateField_present f st i n Hi Hn) as (_ & _ & _ & _ & H & _).
  - by rewrite validateField_absent by (by right).
  - by rewrite validateField_absent by (by left).
Qed.

Lemma validateField_verdict (f : Field) (st : Form) :
  (validateField f st).1 = true ↔ acceptable st f.
Proof.
  unfold acceptable. destruct (inputs st f) as [i|] eqn:Hi;
    [destruct (notices st f) as [n|] eqn:Hn|].
  - destruct (validateField_present f st i n Hi Hn) as (-> & _).
    rewrite bool_decide_eq_true. split.
    + by intros H i' [= <-] _.
    + intros H. by apply H.
  - rewrite validateField_absent by (by right). split; [|done].
    by intros _ i' _ [? ?].
  - rewrite validateField_absent by (by left). by split.
Qed.

Lemma validate_fold (l : list Field) :
  NoDup l → ∀ b st,
  ((foldl validateNext (b, st) l).1 = true
   ↔ b = true ∧ ∀ f, f ∈ l → acceptable st f) ∧
  (∀ f i n, f ∈ l → inputs st f = Some i → notices st f = Some n →
     inputs (foldl validateNext (b, st) l).2 f = Some (judgedInput f i) ∧
     notices (foldl validateNext (b, st) l).2 f = Some (judgedNotice f i n)) ∧
  (∀ f, f ∉ l ∨ inputs st f = None ∨ notices st f = None →
     inputs (foldl validateNext (b, st) l).2 f = inputs st f ∧
     notices (foldl validateNext (b, st) l).2 f = notices st f) ∧
  submitted (foldl validateNext (b, st) l).2 = submitted st.
Proof.
  induction l as [|g l IH]; intros Hnd b st.
  - simpl. split; [|split; [|split]]; try done.
    + split; [|by intros [-> _]]. intros ->. split; [done|].
      intros f Hf. by apply elem_of_nil in Hf.
    + intros f i n Hf. by apply elem_of_nil in Hf.
  - apply NoDup_cons in Hnd as [Hg Hnd].
    change (foldl validateNext (b, st) (g :: l))
      with (foldl validateNext (validateNext (b, st) g) l).
    unfold validateNext at 2 4 6 8 10 12.
    destruct (validateField g st) as [ok st1] eqn:E.
    assert (Hok : ok = true ↔ acceptable st g)
      by (rewrite <- (validateField_verdict g st); by rewrite E).
    assert (Hst1 : st1 = (validateField g st).2) by (by rewrite E).
    assert (Hoth : ∀ f, f ≠ g → inputs st1 f = inputs st f ∧
                                  notices st1 f = notices st f)
      by (intros f Hf; rewrite Hst1; by apply validateField_others).
    assert (Hacc : ∀ f, f ≠ g → acceptable st1 f ↔ acceptable st f).
    { intros f Hf. unfold acceptable. by destruct (Hoth f Hf) as [-> ->]. }
    destruct (IH Hnd (if ok then b else false) st1) as (I1 & I2 & I3 & I4).
    split; [|split; [|split]].
    + rewrite I1. split.
      * intros [Hb Hall]. destruct ok; [|done]. split; [done|].
        intros f [->|Hf]%elem_of_cons; [by apply Hok|].
        apply Hacc; [|by apply Hall]. intros ->. by apply Hg.
      * intros [-> Hall].
        assert (ok = true) as -> by (apply Hok, Hall; left).
        split; [done|]. intros f Hf. apply Hacc; [intros ->; by apply Hg|].
        apply Hall. by right.
    + intros f i n [->|Hf]%elem_of_cons Hi Hn.
      * destruct (I3 g (or_introl Hg)) as [-> ->]. rewrite Hst1.
        by destruct (validateField_present g st i n Hi Hn) as (_ & -> & -> & _).
      * assert (Hne : f ≠ g) by (intros ->; by apply Hg).
        destruct (Hoth f Hne) as [Hi1 Hn1].
        apply I2; [done| |]; congruence.
    + intros f Hf.
      destruct (decide (f = g)) as [->|Hne].
      * destruct (I3 g (or_introl Hg)) as [-> ->]. rewrite Hst1.
        rewrite validateField_absent; [done|].
        destruct Hf as [Hf|[Hf|Hf]]; [|by left|by right].
        exfalso. apply Hf. left.
      * destruct (Hoth f Hne) as [Hi1 Hn1]. rewrite <- Hi1, <- Hn1.
        apply I3. destruct Hf as [Hf|[Hf|Hf]].
        -- left. intros H. apply Hf. by right.
        -- right. left. congruence.
        -- right. right. congruence.
    + rewrite I4, Hst1. apply validateField_submitted.
Qed.

Lemma fieldNames_all (f : Field) : f ∈ fieldNames.
Proof. destruct f; unfold fieldNames; set_solver. Qed.

Lemma fieldNames_NoDup : NoDup fieldNames.
Proof.
  unfold fieldNames. repeat (apply NoDup_cons; split);
    [set_solver|set_solver|set_solver|apply not_elem_of_nil|constructor].
Qed.

(** X26: [validateAllFields] judges every field, also after one of them
    failed: each field that has its input and error element ends with the
    border colour and the error element of its own verdict, fields lacking
    either are left alone and count as valid, and the result is true
    exactly when every field that can be judged is acceptable.  The values
    themselves are never changed. *)
Theorem validateAllFields_judges_all (st : Form) :
  ((validateAllFields st).1 = true ↔ ∀ f, acceptable st f) ∧
  (∀ f i n, inputs st f = Some i → notices st f = Some n →
     inputs (validateAllFields st).2 f = Some (judgedInput f i) ∧
     notices (validateAllFields st).2 f = Some (judgedNotice f i n)) ∧
  (∀ f, inputs st f = None ∨ notices st f = None →
     inputs (validateAllFields st).2 f = inputs st f ∧
     notices (validateAllFields st).2 f = notices st f) ∧
  (∀ f, value <$> inputs (validateAllFields st).2 f = value <$> inputs st f).
Proof.
  unfold validateAllFields.
  destruct (validate_fold fieldNames fieldNames_NoDup true st)
    as (H1 & H2 & H3 & H4).
  split; [|split; [|split]].
  - rewrite H1. split.
    + intros [_ H] f. apply H, fieldNames_all.
    + intros H. split; [done|]. intros f _. apply H.
  - intros f i n. apply H2, fieldNames_all.
  - intros f Hf. apply H3. by right.
  - intros f.
    destruct (inputs st f) as [i|] eqn:Hi;
      [destruct (notices st f) as [n|] eqn:Hn|].
    + by destruct (H2 f i n (fieldNames_all f) Hi Hn) as [-> _].
    + destruct (H3 f) as [-> _]; [by right; right|by rewrite Hi].
    + destruct (H3 f) as [-> _]; [by right; left|by rewrite Hi].
Qed.

Lemma validateAllFields_judges_all_witness :
  inputs blankForm FEmail = Some (mkInput [] "") ∧
  notices blankForm FEmail = Some (mkNotice "" "none" "0") ∧
  notices (validateAllFields blankForm).2 FEmail
    = Some (mkNotice "Email is required" "block" "1").
Proof.
  assert (Hi : inputs blankForm FEmail = Some (mkInput [] "")) by reflexivity.
  assert (Hn : notices blankForm FEmail = Some (mkNotice "" "none" "0"))
    by reflexivity.
  destruct (validateAllFields_judges_all blankForm) as (_ & H & _).
  exact (conj Hi (conj Hn (proj2 (H FEmail _ _ Hi Hn)))).
Defined.

(** X27: [handleSubmit] hands the form to [submitForm] exactly when every
    field that can be judged is acceptable, and then exactly once, with what
    [FormData] reads from the form; otherwise nothing is submitted and it
    answers false.  Either way the inputs, the error elements and the
    timers are left as [validateAllFields] leaves them.  What is validated
    are the values of the inputs in [this.fields]; what is submitted is what
    [FormData] reads, whether or not it is the same. *)
Theorem handleSubmit_submits (formData : Field → option jsstring)
    (st : Form) :
  ((handleSubmit formData st).1 = true ↔ ∀ f, acceptable st f) ∧
  ((handleSubmit formData st).1 = false →
   submitted (handleSubmit formData st).2 = submitted st) ∧
  ((handleSubmit formData st).1 = true →
   submitted (handleSubmit formData st).2 = submitted st ++ [formData]) ∧
  inputs (handleSubmit formData st).2 = inputs (validateAllFields st).2 ∧
  notices (handleSubmit formData st).2 = notices (validateAllFields st).2 ∧
  hideTimers (handleSubmit formData st).2
    = hideTimers (validateAllFields st).2.
Proof.
  unfold handleSubmit, validateAllFields.
  destruct (validate_fold fieldNames fieldNames_NoDup true st)
    as (H1 & H2 & H3 & H4).
  destruct (foldl validateNext (true, st) fieldNames) as [ok st'] eqn:E.
  simpl in *.
  destruct ok; simpl.
  - assert (Hacc : ∀ f, acceptable st f).
    { intros f. apply (proj2 (proj1 H1 eq_refl)), fieldNames_all. }
    split; [by split|]. split; [done|]. split; [|done].
    intros _. by rewrite H4.
  - split; [|split; [done|split; [done|done]]].
    split; [done|]. intros H. apply H1. split; [done|]. intros f _. apply H.
Qed.

Lemma handleSubmit_submits_witness :
  (handleSubmit subjectDisabled filledForm).1 = true ∧
  submitted (handleSubmit subjectDisabled filledForm).2 = [subjectDisabled] ∧
  subjectDisabled FSubject = None ∧
  (handleSubmit subjectDisabled blankForm).1 = false ∧
  submitted (handleSubmit subjectDisabled blankForm).2 = [].
Proof.
  assert (Ht : (handleSubmit subjectDisabled filledForm).1 = true)
    by (by vm_compute).
  assert (Hf : (handleSubmit subjectDisabled blankForm).1 = false)
    by reflexivity.
  destruct (handleSubmit_submits subjectDisabled filledForm)
    as (_ & _ & Hs & _).
  destruct (handleSubmit_submits subjectDisabled blankForm)
    as (_ & Hn & _).
  exact (conj Ht (conj (Hs Ht) (conj eq_refl (conj Hf (Hn Hf))))).
Defined.

(** X28: [showError] does not cancel the timer of an earlier [hideError].
    When a field is judged valid and, before the 300 ms of that timer are
    over, is judged again with a value that is rejected, the error message
    is shown and then hidden by the old timer: the error element ends with
    the message, full opacity and display none. *)
Theorem stale_hide_timer (f : Field) (st : Form) (i : Input) (n : Notice)
    (v : jsstring) (msg : string) :
  inputs st f = Some i → notices st f = Some n →
  hideTimers st = [] →
  verdict f (value i) = None → verdict f v = Some msg →
  notices (validateField f (typeInto f v (validateField f st).2)).2 f
    = Some (mkNotice msg "block" "1") ∧
  notices (hideTimerFired
             (validateField f (typeInto f v (validateField f st).2)).2) f
    = Some (mkNotice msg "none" "1").
Proof.
  intros Hi Hn Ht Hv Hv'.
  destruct (validateField_present f st i n Hi Hn)
    as (_ & I1 & N1 & _ & _ & T1).
  set (st1 := (validateField f st).2) in *.
  rewrite Ht, (bool_decide_eq_true_2 _ Hv) in T1. simpl in T1.
  set (st2 := typeInto f v st1).
  assert (I2 : inputs st2 f = Some (mkInput v (borderColor (judgedInput f i))))
    by (unfold st2, typeInto; rewrite I1; simpl; by rewrite upd_eq).
  assert (N2 : notices st2 f = Some (judgedNotice f i n))
    by (unfold st2, typeInto; by rewrite I1).
  assert (T2 : hideTimers st2 = [f])
    by (unfold st2, typeInto; by rewrite I1).
  destruct (validateField_present f st2 _ _ I2 N2)
    as (_ & _ & N3 & _ & _ & T3).
  set (st3 := (validateField f st2).2) in *.
  unfold judgedNotice at 1 in N3. simpl in N3. rewrite Hv' in N3.
  rewrite T2 in T3. simpl in T3.
  rewrite (bool_decide_eq_false_2 (verdict f v = None)) in T3
    by (by rewrite Hv').
  split; [done|].
  unfold hideTimerFired. rewrite T3. simpl. by rewrite N3, upd_eq.
Qed.

Lemma stale_hide_timer_witness :
  notices (hideTimerFired
             (validateField FSubject
                (typeInto FSubject (units "Hi")
                   (validateField FSubject
                      (typeInto FSubject (units "Hello") blankForm)).2)).2)
    FSubject
  = Some (mkNotice "Subject must be between 5 and 100 characters" "none" "1").
Proof.
  apply (stale_hide_timer FSubject (typeInto FSubject (units "Hello") blankForm)
           (mkInput (units "Hello") "") (mkNotice "" "none" "0")
           (units "Hi")); reflexivity.
Defined.

End ContactFormFacts.

(** ** PortfolioApp: the registry after initialisation and after
    reinitialisation *)

Module AppShellFacts.
Import Js PortfolioApp AppShell.

#[local] Open Scope list_scope.
#[local] Set Warnings "-clear-no-such-hyp".

Lemma mapGet_mapSet (k k' : string) (v : nat) (m : list (string * nat)) :
  mapGet k (mapSet k' v m) = if String.eqb k' k then Some v else mapGet k m.
Proof.
  induction m as [|[k0 v0] m IH]; simpl.
  - by destruct (String.eqb k' k).
  - destruct (String.eqb_spec k0 k') as [->|Hne]; simpl.
    + by destruct (String.eqb k' k).
    + destruct (String.eqb_spec k0 k) as [->|Hne'].
      * destruct (String.eqb_spec k' k) as [->|]; [done|done].
      * apply IH.
Qed.

Lemma mapSet_keys (k : string) (v : nat) (m : list (string * nat)) :
  (mapSet k v m).*1 = if mapHas k m then m.*1 else m.*1 ++ [k].
Proof.
  unfold mapHas. induction m as [|[k0 v0] m IH]; [done|].
  cbn [mapSet mapGet].
  destruct (String.eqb_spec k0 k) as [->|Hne]; [done|].
  rewrite fmap_cons, IH. by destruct (mapGet k m).
Qed.

(** What one guarded construction does to the registry and what it leaves
    alone. *)
Lemma createAndSet_page (fails : Kind → bool) (cond : bool) (k : Kind)
    (name : string) (sh : Shell) :
  app (createAndSet fails cond k name sh).2 = app sh ∧
  destroyCalls (createAndSet fails cond k name sh).2 = destroyCalls sh ∧
  consoleErrors (createAndSet fails cond k name sh).2 = consoleErrors sh ∧
  (∀ key, key ≠ name →
          getComponent key (createAndSet fails cond k name sh).2
          = getComponent key sh) ∧
  (fails k = false →
   (createAndSet fails cond k name sh).1 = Return tt ∧
   (components (createAndSet fails cond k name sh).2).*1
   = if cond && negb (mapHas name (components sh))
     then (components sh).*1 ++ [name] else (components sh).*1).
Proof.
  unfold createAndSet, create, getComponent.
  destruct cond; [|by rewrite andb_false_l].
  destruct (fails k) eqn:E; simpl.
  - repeat split; try done.
  - repeat split; try done.
    + intros key Hne. rewrite mapGet_mapSet.
      by destruct (String.eqb_spec name key) as [->|].
    + rewrite mapSet_keys. by destruct (mapHas name (components sh)).
Qed.

Lemma andThen_keeps (P : Shell → Prop) (r : completion unit * Shell)
    (f : Shell → completion unit * Shell) :
  P r.2 → (∀ sh, P sh → P (f sh).2) → P (andThen r f).2.
Proof.
  intros Hr Hf. unfold andThen. destruct r as [[u|m] sh]; simpl in *; auto.
Qed.

(** [initializeComponents] only ever writes its own six names. *)
Lemma initializeComponents_keeps (P : Shell → Prop) (fails : Kind → bool)
    (d : Dom) (sh : Shell) :
  (∀ cond k name sh',
     name ∈ ["animationEngine"; "navigationManager"; "projectGallery";
             "blogSystem"; "contactForm"; "skillsTimeline"] →
     P sh' → P (createAndSet fails cond k name sh').2) →
  P sh → P (initializeComponents fails d sh).2.
Proof.
  intros Hstep Hsh. unfold initializeComponents.
  repeat (apply andThen_keeps;
          [|intros ? ?]);
    try (apply Hstep; [set_solver|done]).
Qed.

(** X29: with no constructor throwing, [init] on a fresh application fills
    the registry in construction order: the theme manager, the lazy image
    loader, the animation engine, then the navigation manager, project
    gallery, blog system, contact form and skills timeline, each of these
    five only when its element exists (and, for the three that take a
    dataset, the dataset is truthy).  All core components are then
    initialised.  While the document is still loading only the first two are
    there. *)
Theorem init_fills_registry (fails : Kind → bool) (net : Network) (d : Dom) :
  (∀ k, fails k = false) →
  (components (init fails net false d newShell)).*1
    = ["themeManager"; "lazyImageLoader"]
      ++ registeredNames d (init fails net false d newShell) ∧
  areAllComponentsInitialized (init fails net false d newShell) = true ∧
  app (init fails net false d newShell) = loadData net newApp ∧
  (components (init fails net true d newShell)).*1
    = ["themeManager"; "lazyImageLoader"] ∧
  areAllComponentsInitialized (init fails net true d newShell) = false.
Proof.
  intros Hf. unfold init, initializeComponents, createAndSet, create,
    andThen, registeredNames, areAllComponentsInitialized.
  rewrite ?Hf. simpl. rewrite ?Hf. simpl.
  set (a := loadData net newApp).
  destruct (navEl d); simpl; rewrite ?Hf; simpl;
    destruct (projectsEl d && jsonTruthy (projects (data a))) eqn:E1;
    simpl; rewrite ?Hf, ?E1; simpl;
    destruct (blogEl d && jsonTruthy (articles (data a))) eqn:E2;
    simpl; rewrite ?Hf, ?E1, ?E2; simpl;
    destruct (contactFormEl d); simpl; rewrite ?Hf, ?E1, ?E2; simpl;
    destruct (skillsTimelineEl d && jsonTruthy (timeline (data a))) eqn:E3;
    simpl; rewrite ?Hf, ?E1, ?E2, ?E3; simpl; done.
Qed.

Lemma init_fills_registry_witness :
  (∀ k, (λ _ : Kind, false) k = false) ∧
  (components (init (λ _, false) articlesDown false
                 (mkDom true true true false true) newShell)).*1
  = ["themeManager"; "lazyImageLoader"; "animationEngine";
     "navigationManager"; "projectGallery"; "blogSystem"; "skillsTimeline"].
Proof.
  assert (H : ∀ k, (λ _ : Kind, false) k = false) by done.
  split; [exact H|].
  rewrite (proj1 (init_fills_registry (λ _, false) articlesDown
                    (mkDom true true true false true) H)).
  reflexivity.
Defined.

Lemma six_names_not (key name : string) :
  key = "themeManager" ∨ key = "lazyImageLoader" →
  name ∈ ["animationEngine"; "navigationManager"; "projectGallery";
          "blogSystem"; "contactForm"; "skillsTimeline"] →
  key ≠ name.
Proof.
  intros Hk Hn ->.
  repeat (apply elem_of_cons in Hn as [->|Hn];
          [by destruct Hk|]).
  by apply elem_of_nil in Hn.
Qed.

(** X30: [reinitializeComponents] calls [destroy] on the registered
    components that have one, in registry order, empties the registry and
    constructs again only what [initializeComponents] constructs.  So
    afterwards, whatever the page and even when a constructor throws, the
    theme manager and the lazy image loader are no longer in the registry:
    [getComponent] does not find them and [areAllComponentsInitialized]
    answers false. *)
Theorem reinitialize_forgets_early_components (fails : Kind → bool) (d : Dom)
    (sh : Shell) :
  getComponent "themeManager" (reinitializeComponents fails d sh).2 = None ∧
  getComponent "lazyImageLoader" (reinitializeComponents fails d sh).2
    = None ∧
  areAllComponentsInitialized (reinitializeComponents fails d sh).2 = false ∧
  destroyCalls (reinitializeComponents fails d sh).2
    = destroyCalls sh ++ destroyable sh ∧
  ((∀ k, fails k = false) →
   (components (reinitializeComponents fails d sh).2).*1
   = registeredNames d sh).
Proof.
  set (sh0 := mkShell [] (kindOf sh) (destroyCalls sh ++ destroyable sh)
                (nextInstance sh) (app sh) (consoleErrors sh)).
  change (reinitializeComponents fails d sh)
    with (initializeComponents fails d sh0).
  assert (Hget : ∀ key, key = "themeManager" ∨ key = "lazyImageLoader" →
                 getComponent key (initializeComponents fails d sh0).2 = None).
  { intros key Hk.
    apply (initializeComponents_keeps (λ s, getComponent key s = None));
      [|done].
    intros cond k name sh' Hn Hs.
    destruct (createAndSet_page fails cond k name sh') as (_ & _ & _ & H & _).
    rewrite H; [done|]. by apply six_names_not. }
  split; [apply Hget; by left|]. split; [apply Hget; by right|]. split.
  - pose proof (Hget "themeManager" (or_introl eq_refl)) as H.
    unfold getComponent in H.
    unfold areAllComponentsInitialized. cbn [forallb]. unfold mapHas at 1.
    by rewrite H.
  - split.
    + apply (initializeComponents_keeps
               (λ s, destroyCalls s = destroyCalls sh ++ destroyable sh));
        [|done].
      intros cond k name sh' _ Hs.
      by destruct (createAndSet_page fails cond k name sh') as (_ & -> & _).
    + intros Hf. unfold initializeComponents, createAndSet, create, andThen,
        registeredNames, sh0.
      rewrite ?Hf. simpl. rewrite ?Hf. simpl.
      destruct (navEl d); simpl; rewrite ?Hf; simpl;
        destruct (projectsEl d && jsonTruthy (projects (data (app sh))))
          eqn:E1;
        simpl; rewrite ?Hf, ?E1; simpl;
        destruct (blogEl d && jsonTruthy (articles (data (app sh)))) eqn:E2;
        simpl; rewrite ?Hf, ?E1, ?E2; simpl;
        destruct (contactFormEl d); simpl; rewrite ?Hf, ?E1, ?E2; simpl;
        destruct (skillsTimelineEl d && jsonTruthy (timeline (data (app sh))))
          eqn:E3;
        simpl; rewrite ?Hf, ?E1, ?E2, ?E3; simpl; done.
Qed.

Lemma reinitialize_forgets_early_components_witness :
  (∀ k, (λ _ : Kind, false) k = false) ∧
  (components
     (reinitializeComponents (λ _, false) (mkDom true false false true false)
        (init (λ _, false) articlesDown false
           (mkDom true false false true false) newShell)).2).*1
  = ["animationEngine"; "navigationManager"; "contactForm"].
Proof.
  assert (H : ∀ k, (λ _ : Kind, false) k = false) by done.
  split; [exact H|].
  rewrite (proj2 (proj2 (proj2 (proj2
             (reinitialize_forgets_early_components (λ _, false)
                (mkDom true false false true false)
                (init (λ _, false) articlesDown false
                   (mkDom true false false true false) newShell))))) H).
  reflexivity.
Defined.

End AppShellFacts.
